(** * Issue store helpers ([src/git_issues.py]): a shallow embedding

    The module keeps a caller-owned list of issue dictionaries in sync:
    it lists the open issues, closes issues and marks them completed.

    The embedding follows the Python source function by function.

    - Python values stored in an issue are [None], booleans, integers and
      strings ([value]); floats and nested containers are not modelled.
      Strings are sequences of code points below 256; [py_isspace] and
      [py_lower] are Python's [str.isspace] and [str.lower] on that
      range.
    - An issue is a mapping from field names (strings) to values ([dict],
      a [gmap]).
    - Issues are objects: the helpers mutate them in place and hand the
      same objects back.  The heap is a list of objects, a reference is an
      index into it, and the collection is a list of references, so the
      same object may sit in the collection twice and a returned record is
      the very object stored in the collection.
    - Exceptions are values of [exn]; a computation is a function from the
      store to the store after the call and either the exception raised or
      the value returned ([M]). *)

From Stdlib Require Import ZArith Ascii String DecimalString.
From stdpp Require Import base option list gmap strings.

Local Open Scope string_scope.
Local Open Scope Z_scope.
Local Open Scope list_scope.

(** ** Values *)

Inductive value : Type :=
  | VNone
  | VBool (b : bool)
  | VInt (z : Z)
  | VStr (s : string).

#[global] Instance value_eq_dec : EqDecision value.
Proof. solve_decision. Defined.

(** The exceptions the module can raise.  [InvalidRef] is the model's own:
    a reference that points outside the heap, which a well-formed store
    never contains. *)
Inductive exn : Type :=
  | KeyError
  | ValueError
  | TypeError
  | IssueNotFoundError
  | IndexError
  | InvalidRef.

#[global] Instance exn_eq_dec : EqDecision exn.
Proof. solve_decision. Defined.

Abbreviation result A := (sum exn A).

(** ** The Python builtins the module uses *)

Module Py.

Definition code (c : ascii) : N := N_of_ascii c.

(** [str.isspace] for one character. *)
Definition py_isspace (c : ascii) : bool :=
  let n := code c in
  ((9 <=? n) && (n <=? 13) || (28 <=? n) && (n <=? 32)
   || (n =? 133) || (n =? 160))%N.

(** [str.lower] for one character. *)
Definition py_lower (c : ascii) : ascii :=
  let n := code c in
  if ((65 <=? n) && (n <=? 90)
      || (192 <=? n) && (n <=? 222) && negb (n =? 215))%N
  then ascii_of_N (n + 32) else c.

Fixpoint lower (s : string) : string :=
  match s with
  | EmptyString => EmptyString
  | String c s' => String (py_lower c) (lower s')
  end.

Fixpoint lstrip (s : string) : string :=
  match s with
  | EmptyString => EmptyString
  | String c s' => if py_isspace c then lstrip s' else s
  end.

Fixpoint rstrip (s : string) : string :=
  match s with
  | EmptyString => EmptyString
  | String c s' =>
      match rstrip s' with
      | EmptyString => if py_isspace c then EmptyString else String c EmptyString
      | r => String c r
      end
  end.

(** [s.strip()] *)
Definition strip (s : string) : string := rstrip (lstrip s).

(** [str(v)] *)
Definition str (v : value) : string :=
  match v with
  | VNone => "None"
  | VBool true => "True"
  | VBool false => "False"
  | VInt z => NilZero.string_of_int (Z.to_int z)
  | VStr s => s
  end.

(** [bool(v)] *)
Definition truthy (v : value) : bool :=
  match v with
  | VNone => false
  | VBool b => b
  | VInt z => negb (z =? 0)%Z
  | VStr s => negb (String.eqb s "")
  end.

(** [a or b] *)
Definition or_ (a b : value) : value := if truthy a then a else b.

(** The white space [int] skips around a literal. *)
Definition int_isspace (c : ascii) : bool :=
  let n := code c in
  ((9 <=? n) && (n <=? 13) || (n =? 32) || (n =? 133) || (n =? 160))%N.

Fixpoint int_lstrip (s : string) : string :=
  match s with
  | EmptyString => EmptyString
  | String c s' => if int_isspace c then int_lstrip s' else s
  end.

Fixpoint int_rstrip (s : string) : string :=
  match s with
  | EmptyString => EmptyString
  | String c s' =>
      match int_rstrip s' with
      | EmptyString => if int_isspace c then EmptyString else String c EmptyString
      | r => String c r
      end
  end.

Definition digit (c : ascii) : option Z :=
  let n := code c in
  if ((48 <=? n) && (n <=? 57))%N then Some (Z.of_N n - 48) else None.

(** The digits of a literal, most significant first; one underscore is
    allowed between two digits.  [acc] is the value read so far and
    [after_digit] tells whether the previous character was a digit. *)
Fixpoint digits (s : string) (acc : Z) (after_digit : bool) : option Z :=
  match s with
  | EmptyString => if after_digit then Some acc else None
  | String c s' =>
      match digit c with
      | Some d => digits s' (10 * acc + d) true
      | None =>
          if (code c =? 95)%N && after_digit
          then match s' with
               | EmptyString => None
               | String c' _ =>
                   match digit c' with
                   | Some _ => digits s' acc false
                   | None => None
                   end
               end
          else None
      end
  end.

(** [int(s)] for a string: surrounding white space, an optional sign,
    decimal digits. *)
Definition int_of_string (s : string) : option Z :=
  match int_rstrip (int_lstrip s) with
  | EmptyString => None
  | String c s' =>
      if (code c =? 43)%N then digits s' 0 false
      else if (code c =? 45)%N then Z.opp <$> digits s' 0 false
      else digits (String c s') 0 false
  end.

(** [int(v)] *)
Definition int (v : value) : result Z :=
  match v with
  | VNone => inl TypeError
  | VBool b => inr (if b then 1 else 0)
  | VInt z => inr z
  | VStr s =>
      match int_of_string s with
      | Some z => inr z
      | None => inl ValueError
      end
  end.

End Py.

(** ** Issues as mappings *)

Abbreviation dict := (gmap string value).

(** [issue.get(key)] *)
Definition get (issue : dict) (key : string) : value :=
  default VNone (issue !! key).

(** [key in issue] *)
Definition contains (issue : dict) (key : string) : bool :=
  bool_decide (is_Some (issue !! key)).

(** [issue.setdefault(key, v)], as the mapping after the call. *)
Definition setdefault (issue : dict) (key : string) (v : value) : dict :=
  match issue !! key with
  | Some _ => issue
  | None => <[key := v]> issue
  end.

(** [_normalise_state] *)
Definition _normalise_state (v : value) : string :=
  match v with
  | VNone => "open"
  | _ => Py.lower (Py.strip (Py.str v))
  end.

(** The tuple [_issue_identifier] scans. *)
Definition identifier_keys : list string :=
  ["number"; "id"; "issue_id"; "issueNumber"].

(** The [for key in (...)] loop of [_issue_identifier]. *)
Fixpoint identifier_scan (keys : list string) (issue : dict) : result Z :=
  match keys with
  | [] => inl KeyError
  | key :: rest =>
      if contains issue key then Py.int (get issue key)
      else identifier_scan rest issue
  end.

(** [_issue_identifier] *)
Definition _issue_identifier (issue : dict) : result Z :=
  identifier_scan identifier_keys issue.

(** [_get_state] *)
Definition _get_state (issue : dict) : string :=
  let state := Py.or_ (get issue "state") (get issue "status") in
  match state with
  | VNone =>
      if Py.truthy (Py.or_ (get issue "closed") (get issue "completed"))
      then "closed" else "open"
  | _ => _normalise_state state
  end.

(** The three assignments of [_set_state], as the mapping they leave. *)
Definition set_state_fields (issue : dict) (state : value) : dict :=
  let normalised := _normalise_state state in
  <["closed" := VBool (String.eqb normalised "closed")]>
    (<["status" := VStr normalised]>
       (<["state" := VStr normalised]> issue)).

(** The set literal of [_is_open]. *)
Definition closed_states : list string :=
  ["closed"; "completed"; "done"; "resolved"].

(** [_is_open] *)
Definition _is_open (issue : dict) : bool :=
  let state := _get_state issue in
  negb (existsb (String.eqb state) closed_states).

(** ** The store: objects, references and the collection *)

Abbreviation loc := nat.

(** A mapping object.  [is_mutable] is [isinstance(issue, MutableMapping)]:
    a plain [dict] is mutable, a read-only [Mapping] is not. *)
Record obj : Type := Obj { is_mutable : bool; fields : dict }.

(** [heap] holds every mapping object, [issues] is the caller's list. *)
Record store : Type := Store { heap : list obj; issues : list loc }.

#[global] Instance obj_eq_dec : EqDecision obj.
Proof. solve_decision. Defined.

#[global] Instance store_eq_dec : EqDecision store.
Proof. solve_decision. Defined.

(** Computations: the store is threaded through and survives an
    exception, as the objects of a Python program do. *)
Definition M (A : Type) : Type := store -> store * result A.

Definition ret {A} (a : A) : M A := fun s => (s, inr a).

Definition raise {A} (e : exn) : M A := fun s => (s, inl e).

Definition bind {A B} (m : M A) (k : A -> M B) : M B :=
  fun s =>
    match m s with
    | (s', inr a) => k a s'
    | (s', inl e) => (s', inl e)
    end.

(** [try: m  except e0: h] *)
Definition try_except {A} (m : M A) (e0 : exn) (h : M A) : M A :=
  fun s =>
    match m s with
    | (s', inl e) => if decide (e = e0) then h s' else (s', inl e)
    | r => r
    end.

Notation "'let*' x ':=' m 'in' k" := (bind m (fun x => k))
  (at level 10, x name, m at level 100, k at level 200).
Notation "m ';;' k" := (bind m (fun _ => k))
  (at level 100, k at level 200, right associativity).

(** [issues[index]] *)
Definition getitem (index : nat) : M loc :=
  fun s =>
    match issues s !! index with
    | Some issue => (s, inr issue)
    | None => (s, inl IndexError)
    end.

(** [issues[index] = issue] *)
Definition setitem (index : nat) (issue : loc) : M unit :=
  fun s =>
    if decide (index < length (issues s))%nat
    then (Store (heap s) (<[index := issue]> (issues s)), inr tt)
    else (s, inl IndexError).

(** Reading the object behind a reference. *)
Definition deref (issue : loc) : M obj :=
  fun s =>
    match heap s !! issue with
    | Some o => (s, inr o)
    | None => (s, inl InvalidRef)
    end.

(** [dict(issue)]: a new mutable object with the same fields. *)
Definition new_dict (d : dict) : M loc :=
  fun s => (Store (heap s ++ [Obj true d]) (issues s), inr (length (heap s))).

(** A write to an object, [f] giving the fields after it.  A read-only
    mapping refuses it; the module only writes to objects it has made
    mutable, so this does not happen in a well-formed store. *)
Definition mutate (issue : loc) (f : dict -> dict) : M unit :=
  fun s =>
    match heap s !! issue with
    | Some o =>
        if is_mutable o
        then (Store (<[issue := Obj true (f (fields o))]> (heap s)) (issues s), inr tt)
        else (s, inl TypeError)
    | None => (s, inl InvalidRef)
    end.

(** [_ensure_mutable_issue] *)
Definition _ensure_mutable_issue (index : nat) : M loc :=
  let* issue := getitem index in
  let* o := deref issue in
  if is_mutable o then ret issue
  else
    let* mutable_issue := new_dict (fields o) in
    setitem index mutable_issue ;;
    ret mutable_issue.

(** [_ensure_issue_number] *)
Definition _ensure_issue_number (issue : loc) : M Z :=
  let* o := deref issue in
  match _issue_identifier (fields o) with
  | inl e => raise e
  | inr identifier =>
      mutate issue (fun d => setdefault d "number" (VInt identifier)) ;;
      ret identifier
  end.

(** [_set_state] *)
Definition _set_state (issue : loc) (state : value) : M unit :=
  mutate issue (fun d => set_state_fields d state).

(** The loop of [list_open_issues] over the entries of the list. *)
Fixpoint list_open_loop (entries : list loc) (open_issues : list loc) : M (list loc) :=
  match entries with
  | [] => ret open_issues
  | issue :: rest =>
      let* o := deref issue in
      if _is_open (fields o) then
        let* copy := new_dict (fields o) in
        try_except
          (let* c := deref copy in
           match _issue_identifier (fields c) with
           | inl e => raise e
           | inr identifier =>
               mutate copy (fun d => setdefault d "number" (VInt identifier))
           end)
          KeyError (ret tt) ;;
        list_open_loop rest (open_issues ++ [copy])
      else list_open_loop rest open_issues
  end.

(** [list_open_issues] *)
Definition list_open_issues : M (list loc) :=
  fun s => list_open_loop (issues s) [] s.

(** The loop of [_find_issue_index] over the indices still to visit. *)
Fixpoint find_loop (indices : list nat) (issue_number : Z) : M nat :=
  match indices with
  | [] => raise IssueNotFoundError
  | index :: rest =>
      let* issue := _ensure_mutable_issue index in
      let* current_number := _ensure_issue_number issue in
      if (current_number =? issue_number)%Z then ret index
      else find_loop rest issue_number
  end.

(** [_find_issue_index]; the list keeps its length during the scan, so
    [enumerate] visits the indices [0 .. len(issues) - 1]. *)
Definition _find_issue_index (issue_number : Z) : M nat :=
  fun s => find_loop (seq 0 (length (issues s))) issue_number s.

(** [close_issue] *)
Definition close_issue (issue_number : Z) : M loc :=
  let* index := _find_issue_index issue_number in
  let* issue := _ensure_mutable_issue index in
  _ensure_issue_number issue ;;
  _set_state issue (VStr "closed") ;;
  ret issue.

(** [complete_issue] *)
Definition complete_issue (issue_number : Z) : M loc :=
  let* issue := close_issue issue_number in
  mutate issue (fun d => <["completed" := VBool true]> d) ;;
  ret issue.

(** The loop of [close_implemented_issues]. *)
Fixpoint close_implemented_loop (numbers : list Z) (closed : list loc) : M (list loc) :=
  match numbers with
  | [] => ret closed
  | issue_number :: rest =>
      let* closed' :=
        try_except
          (let* issue := close_issue issue_number in ret (closed ++ [issue]))
          IssueNotFoundError (ret closed) in
      close_implemented_loop rest closed'
  end.

(** [close_implemented_issues] *)
Definition close_implemented_issues (implemented_issue_numbers : list Z) : M (list loc) :=
  close_implemented_loop implemented_issue_numbers [].

(** The loop of [complete_open_issues]. *)
Fixpoint complete_open_loop (indices : list nat) (target_numbers : option (gset Z))
    (completed : list loc) : M (list loc) :=
  match indices with
  | [] => ret completed
  | index :: rest =>
      let* issue := _ensure_mutable_issue index in
      let* number := _ensure_issue_number issue in
      if match target_numbers with
         | Some t => bool_decide (number ∉ t)
         | None => false
         end
      then complete_open_loop rest target_numbers completed
      else
        let* o := deref issue in
        if _is_open (fields o) then
          let* issue' := complete_issue number in
          complete_open_loop rest target_numbers (completed ++ [issue'])
        else complete_open_loop rest target_numbers completed
  end.

(** [complete_open_issues]; [issue_numbers] is [None] when omitted. *)
Definition complete_open_issues (issue_numbers : option (list Z)) : M (list loc) :=
  fun s =>
    let target_numbers : option (gset Z) := list_to_set <$> issue_numbers in
    complete_open_loop (seq 0 (length (issues s))) target_numbers [] s.

(** ** Views of a store used in the statements *)

(** The fields of the object behind a reference. *)
Definition fields_at (s : store) (issue : loc) : option dict :=
  fields <$> heap s !! issue.

(** The fields of the record at an index of the collection. *)
Definition record_at (s : store) (index : nat) : option dict :=
  issues s !! index ≫= fields_at s.

(** Every entry of the collection refers to an object of the heap. *)
Definition wf (s : store) : Prop :=
  Forall (fun issue => (issue < length (heap s))%nat) (issues s).

(** The records of the collection, in order (an entry that refers to no
    object, which a well-formed store does not have, reads as empty). *)
Definition records (s : store) : list dict :=
  (fun issue => default ∅ (fields_at s issue)) <$> issues s.

(** A store made of plain dictionaries, one object per entry. *)
Definition store_of (ds : list dict) : store :=
  Store (Obj true <$> ds) (seq 0 (length ds)).

(** The collection of the test suite ([sample_issues]); titles are kept as
    ordinary fields. *)
Definition sample_issues : store :=
  store_of
    [ {[ "number" := VInt 1; "title" := VStr "Bootstrap project"; "state" := VStr "closed" ]};
      {[ "number" := VInt 2; "title" := VStr "Add /health endpoint"; "state" := VStr "open" ]};
      {[ "number" := VInt 3; "title" := VStr "Persist game state"; "status" := VStr "in_progress" ]};
      {[ "id" := VInt 4; "title" := VStr "Add achievements"; "closed" := VBool false ]} ].

(** A string that does not start with white space. *)
Definition no_lead (s : string) : Prop :=
  match s with
  | EmptyString => True
  | String c _ => Py.py_isspace c = false
  end.

(** *** What the helpers do to one mapping *)

(** The mapping after its identifier was written back: [number] is set to
    the resolved identifier when the key is missing; a mapping whose
    identifier does not resolve is left as it is. *)
Definition with_number (d : dict) : dict :=
  match _issue_identifier d with
  | inr identifier => setdefault d "number" (VInt identifier)
  | inl _ => d
  end.

(** The mapping after [_set_state(issue, "closed")]. *)
Definition closed_fields (d : dict) : dict := set_state_fields d (VStr "closed").

(** The mapping after [complete_issue] closed it and set [completed]. *)
Definition completed_fields (d : dict) : dict :=
  <["completed" := VBool true]> (closed_fields d).

(** The identifier each record of the collection resolves to. *)
Definition ids (s : store) : list (result Z) := _issue_identifier <$> records s.

(** The scan of [_find_issue_index] on the identifiers alone: the first
    index that resolves to [n], the error of the first record that does
    not resolve before it, or not found. *)
Fixpoint lookup_number (l : list (result Z)) (n : Z) : result nat :=
  match l with
  | [] => inl IssueNotFoundError
  | inl e :: _ => inl e
  | inr z :: rest =>
      if (z =? n)%Z then inr 0%nat
      else match lookup_number rest n with
           | inr j => inr (S j)
           | inl e => inl e
           end
  end.

(** The store after the entry at [index] was made mutable and its
    identifier written back (one round of the scan). *)
Definition touch (s : store) (index : nat) : store :=
  match issues s !! index with
  | Some l =>
      match heap s !! l with
      | Some o =>
          if is_mutable o
          then Store (<[l := Obj true (with_number (fields o))]> (heap s)) (issues s)
          else Store (heap s ++ [Obj true (with_number (fields o))])
                     (<[index := length (heap s)]> (issues s))
      | None => s
      end
  | None => s
  end.

(** The object at the visited index after the round: the object [o] at
    [l] itself, or its mutable copy, which is put at the end of the heap. *)
Definition touched_loc (s : store) (l : loc) (o : obj) : loc :=
  if is_mutable o then l else length (heap s).

(** [count] rounds of the scan, from [start] on. *)
Definition touch_range (s : store) (start count : nat) : store :=
  foldl touch s (seq start count).

(** The store after a write [f] to the object at [index]. *)
Definition update_at (s : store) (index : nat) (f : dict -> dict) : store :=
  match issues s !! index with
  | Some l =>
      match heap s !! l with
      | Some o => Store (<[l := Obj true (f (fields o))]> (heap s)) (issues s)
      | None => s
      end
  | None => s
  end.

(** The entry at [index] is a mutable object that has a [number]. *)
Definition settled (s : store) (index : nat) : Prop :=
  exists l d, issues s !! index = Some l /\ heap s !! l = Some (Obj true d) /\
              is_Some (d !! "number").

(** [ext s s']: [s'] is [s] after some rounds of the scan. *)
Record ext (s s' : store) : Prop := Ext {
  ext_wf : wf s';
  ext_length : length (issues s') = length (issues s);
  ext_record : forall j, with_number <$> record_at s' j = with_number <$> record_at s j;
  ext_obj : forall l o, heap s !! l = Some o ->
            exists o', heap s' !! l = Some o' /\ is_mutable o' = is_mutable o;
  ext_entry : forall j l d, issues s !! j = Some l -> heap s !! l = Some (Obj true d) ->
              issues s' !! j = Some l;
  ext_settled : forall l d, heap s !! l = Some (Obj true d) -> is_Some (d !! "number") ->
                heap s' !! l = Some (Obj true d)
}.

(** [state], [status] and [closed] of a mapping agree with each other:
    [state == status] and [closed == (state == "closed")]. *)
Definition consistent (d : dict) : Prop :=
  exists st, d !! "state" = Some st /\ d !! "status" = Some st /\
             d !! "closed" = Some (VBool (bool_decide (st = VStr "closed"))).

(** Every record resolves to an identifier, and none to [n]. *)
Definition unknown_number (s : store) (n : Z) : Prop :=
  Forall (fun r => exists z, r = inr z /\ z ≠ n) (ids s).

(** The value of a field of the object behind a reference. *)
Definition field_of (s : store) (key : string) (issue : loc) : option value :=
  fields_at s issue ≫= (.!! key).

(** The store a computation leaves and the references it returns (none
    when it raises). *)
Definition state_after {A} (m : M A) (s : store) : store := fst (m s).

Definition returned (m : M (list loc)) (s : store) : list loc :=
  match snd (m s) with
  | inr l => l
  | inl _ => []
  end.

(** [op n] returns the object stored at index [j], and that record is
    closed and consistent after the call. *)
Definition returns_closed_record (op : Z -> M loc) (s : store) (n : Z) (j : nat) : Prop :=
  exists l d, snd (op n s) = inr l /\
              issues (state_after (op n) s) !! j = Some l /\
              fields_at (state_after (op n) s) l = Some d /\
              d !! "state" = Some (VStr "closed") /\ consistent d.

(** The records behind a list of references. *)
Definition dicts (s : store) (entries : list loc) : list dict :=
  (fun issue => default ∅ (fields_at s issue)) <$> entries.

(** The open records of the collection, in order. *)
Definition open_records (s : store) : list dict :=
  List.filter _is_open (records s).

(** The identifier of every open record is absent or coerces to an
    integer: [_issue_identifier] raises nothing but [KeyError] on it. *)
Definition listable (s : store) : Prop :=
  Forall (fun d => _is_open d = true ->
                   forall e, _issue_identifier d = inl e -> e = KeyError)
         (records s).

(** A collection with one open record whose identifier is not a number. *)
Definition unnumbered_issue : store :=
  store_of [ {[ "id" := VStr "abc"; "state" := VStr "open" ]} ].

(** A closed record: its state is ["closed"] and its three state fields
    agree. *)
Definition closed_state (d : dict) : Prop :=
  d !! "state" = Some (VStr "closed") /\ consistent d.

(** What the helpers never undo in a mapping: a [number] once written and
    a closed state. *)
Definition grows (d d' : dict) : Prop :=
  (is_Some (d !! "number") -> is_Some (d' !! "number")) /\
  (closed_state d -> closed_state d').

(** [evolve s s']: [s'] is [s] after some scans, closings and completions. *)
Record evolve (s s' : store) : Prop := Evolve {
  evolve_wf : wf s';
  evolve_length : length (issues s') = length (issues s);
  evolve_ids : ids s' = ids s;
  evolve_entry : forall j l d, issues s !! j = Some l -> heap s !! l = Some (Obj true d) ->
                 issues s' !! j = Some l;
  evolve_obj : forall l d, heap s !! l = Some (Obj true d) ->
               exists d', heap s' !! l = Some (Obj true d') /\ grows d d'
}.

(** Every record of the collection resolves to an identifier. *)
Definition resolved (s : store) : Prop :=
  Forall (fun r => exists z : Z, r = inr z) (ids s).

(** The entries of [s'] at the indices where the scan of [s] finds the
    numbers [ns], in the order of [ns]; a number the scan does not find
    gives nothing. *)
Definition found_entries (s s' : store) (ns : list Z) : list loc :=
  omap (fun n => match lookup_number (ids s) n with
                 | inr j => issues s' !! j
                 | inl _ => None
                 end) ns.

(** The scan for every number of [ns] ends: it finds a record or it ends
    with not-found, having resolved every record it went over. *)
Definition scannable (s : store) (ns : list Z) : Prop :=
  Forall (fun n => (exists j, lookup_number (ids s) n = inr j)
                   \/ lookup_number (ids s) n = inl IssueNotFoundError) ns.

(** A collection whose second record has no identifier. *)
Definition anonymous_issue : store :=
  store_of [ {[ "number" := VInt 1; "state" := VStr "open" ]};
             {[ "title" := VStr "Untracked"; "state" := VStr "open" ]} ].

(** A collection whose second record has an identifier that is not an
    integer. *)
Definition unnumbered_second : store :=
  store_of [ {[ "number" := VInt 1; "state" := VStr "open" ]};
             {[ "id" := VStr "abc"; "state" := VStr "open" ]} ].

(** A record with none of the recognised identifier fields. *)
Definition no_identifier (d : dict) : Prop :=
  forall key, key ∈ identifier_keys -> d !! key = None.

(** No record before index [i] resolves to [n]. *)
Definition unmatched_before (s : store) (i : nat) (n : Z) : Prop :=
  forall m, (m < i)%nat -> ids s !! m ≠ Some (inr n).

(** Every record before index [i] resolves to an identifier. *)
Definition resolved_before (s : store) (i : nat) : Prop :=
  forall m, (m < i)%nat -> exists z : Z, ids s !! m = Some (inr z).

(** What the operations do with the record [d] at index [i], which has no
    identifier: the lookups and the bulk operations whose scan reaches it
    raise [KeyError]; [list_open_issues] never does, and whenever it
    returns, the copy of the record, which is listed when the record is
    open, is the record as it is, at the place of the record among the
    open ones; it returns when the identifiers of the open records are
    absent or integers. *)
Definition surfaces_missing_identifier (s : store) (i : nat) (d : dict) : Prop :=
  (forall n, unmatched_before s i n ->
             snd (_find_issue_index n s) = inl KeyError /\
             snd (close_issue n s) = inl KeyError /\
             snd (complete_issue n s) = inl KeyError) /\
  (forall ns, (exists n, n ∈ ns /\ unmatched_before s i n) ->
              snd (close_implemented_issues ns s) = inl KeyError) /\
  (forall issue_numbers, snd (complete_open_issues issue_numbers s) = inl KeyError) /\
  snd (list_open_issues s) ≠ inl KeyError /\
  (forall copies, snd (list_open_issues s) = inr copies -> _is_open d = true ->
     exists l, copies !! length (List.filter _is_open (take i (records s))) = Some l /\
               fields_at (state_after list_open_issues s) l = Some d /\
               d !! "number" = None) /\
  (listable s -> exists copies, snd (list_open_issues s) = inr copies).

(** What [complete_open_issues], without restriction, makes of a record:
    an open record is closed and completed, and either kind has its
    identifier written back. *)
Definition completed_or_numbered (d : dict) : dict :=
  if _is_open d then completed_fields (with_number d) else with_number d.

(** A collection with one closed record that has an [id] and no [number]. *)
Definition closed_by_id : store :=
  store_of [ {[ "id" := VInt 7; "state" := VStr "closed" ]} ].

(** The state of the loop of [complete_open_issues] before it visits
    index [k], on a collection where [i] is the first index that resolves
    to some identifier.  The records marked by [prot] resolve to it too,
    are other objects than the one at [i], and are what they were up to a
    written-back number.  [r1 < r2] are two rounds that find their record
    open: before round [r1] the record at [r1] is open; after it the
    object at [i] is in the result, and twice after round [r2]. *)
Definition dup_inv (ids0 : list (result Z)) (i : nat) (prot : nat -> dict -> Prop)
    (r1 r2 : nat) (k : nat) (acc : list loc) (s : store) : Prop :=
  wf s /\ ids s = ids0 /\ (forall m, (m < k)%nat -> settled s m) /\
  (forall j dj, prot j dj ->
     issues s !! i ≠ issues s !! j /\
     exists d, record_at s j = Some d /\ with_number d = with_number dj) /\
  ((k <= r1)%nat -> exists d, record_at s r1 = Some d /\ _is_open d = true) /\
  ((r1 < k)%nat ->
   exists lf p, issues s !! i = Some lf /\ acc !! p = Some lf /\
                ((r2 < k)%nat -> exists q, (p < q)%nat /\ acc !! q = Some lf)).

(** Two open records with the same number. *)
Definition duplicate_issues : store :=
  store_of [ {[ "number" := VInt 1; "state" := VStr "open" ]};
             {[ "number" := VInt 1; "title" := VStr "Again"; "state" := VStr "open" ]} ].

(** Two open records with the same number behind a record that has no
    identifier. *)
Definition anonymous_then_duplicates : store :=
  store_of [ {[ "title" := VStr "Untracked" ]};
             {[ "number" := VInt 1; "state" := VStr "open" ]};
             {[ "number" := VInt 1; "title" := VStr "Again"; "state" := VStr "open" ]} ].

(** Two open records with the same number behind a record whose
    identifier is not an integer. *)
Definition unnumbered_then_duplicates : store :=
  store_of [ {[ "id" := VStr "abc" ]};
             {[ "number" := VInt 1; "state" := VStr "open" ]};
             {[ "number" := VInt 1; "title" := VStr "Again"; "state" := VStr "open" ]} ].

(** The record [d] at index [j] is neither closed nor completed by the
    call that leads to [s']: it is [d] with its number written back, and
    it is open. *)
Definition stays_open (s' : store) (j : nat) (d : dict) : Prop :=
  record_at s' j = Some (with_number d) /\ _is_open (with_number d) = true.

(** What [complete_open_issues], without restriction, does with two
    records at [a] and [b] that resolve to the same identifier [n]: the
    first record of the collection that resolves to [n], at index [i], is
    in the result at two positions; at least one of the two records is
    another object than this first one, and each of them that is stays
    open. *)
Definition completes_first_twice (s : store) (n : Z) (a b : nat) (da db : dict) : Prop :=
  exists completed first i,
    lookup_number (ids s) n = inr i /\
    snd (complete_open_issues None s) = inr completed /\
    let s' := state_after (complete_open_issues None) s in
    issues s' !! i = Some first /\
    (exists p q, (p < q)%nat /\ completed !! p = Some first /\ completed !! q = Some first) /\
    (issues s !! a ≠ issues s !! i \/ issues s !! b ≠ issues s !! i) /\
    (issues s !! a ≠ issues s !! i -> stays_open s' a da) /\
    (issues s !! b ≠ issues s !! i -> stays_open s' b db).

(** A collection whose only entry is a read-only mapping. *)
Definition frozen_issue : store :=
  Store [Obj false {[ "id" := VInt 4; "state" := VStr "open" ]}] [0%nat].

(** A collection that holds the same dictionary twice. *)
Definition aliased_issue : store :=
  Store [Obj true {[ "number" := VInt 1; "state" := VStr "open" ]}] [0%nat; 0%nat].

(** *** Tactics for literal stores *)

(** A key that is not in a list of literal keys. *)
Ltac not_listed H :=
  apply list_elem_of_In in H; simpl in H; intuition discriminate.

(** A store built by [store_of] is well formed, by evaluation. *)
Ltac wf_eval := unfold wf; simpl; repeat (constructor; [lia|]); constructor.

(** Distinct literal identifiers, by evaluation. *)
Ltac nodup_eval :=
  repeat (apply NoDup_cons; split;
          [rewrite ?elem_of_cons, elem_of_nil; intuition discriminate|]);
  apply NoDup_nil_2.

(** *** Views used by the further properties *)

(** A string that [strip] and [lower] leave as it is. *)
Definition normal_form (x : string) : Prop := Py.strip x = x /\ Py.lower x = x.

(** Looking up a key in a mapping built by assignments. *)
Ltac lookup_inserts :=
  repeat (rewrite lookup_insert_eq || rewrite lookup_insert_ne by congruence).
(** The fields [d'] of a record that had the fields [d] and was closed
    under the number [n]: the three state fields say closed, [completed]
    is [flag], [number] is the value it had or else [n], and every other
    field is as before; the record is no longer open. *)
Definition closed_as (d d' : dict) (n : Z) (flag : option value) : Prop :=
  d' !! "state" = Some (VStr "closed") /\
  d' !! "status" = Some (VStr "closed") /\
  d' !! "closed" = Some (VBool true) /\
  d' !! "completed" = flag /\
  d' !! "number" = Some (default (VInt n) (d !! "number")) /\
  (forall key, key ∉ ["state"; "status"; "closed"; "completed"; "number"] ->
               d' !! key = d !! key) /\
  _is_open d' = false.

(** [op n] returns the object stored at index [j], whose fields after the
    call are those of [d] closed under [n]. *)
Definition closes_record (op : Z -> M loc) (s : store) (n : Z) (j : nat) (d : dict)
    (flag : option value) : Prop :=
  exists l d', snd (op n s) = inr l /\
    issues (state_after (op n) s) !! j = Some l /\
    fields_at (state_after (op n) s) l = Some d' /\
    closed_as d d' n flag.
(** [op n] returns the object at index [j] after the call.  When the
    entry [l] was a dictionary ([o] mutable) this is [l] itself; when it
    was a read-only mapping it is a new object, which has replaced [l] in
    the collection, and [l] is as it was. *)
Definition returns_entry (op : Z -> M loc) (s : store) (n : Z) (j : nat) (l : loc)
    (o : obj) : Prop :=
  exists l', snd (op n s) = inr l' /\
    issues (state_after (op n) s) !! j = Some l' /\
    if is_mutable o then l' = l
    else (length (heap s) <= l')%nat /\ heap (state_after (op n) s) !! l = Some o.
(** The records [complete_open_issues] completes: the open ones, and
    under a restriction those of them whose identifier is a target
    number. *)
Definition chosen (target_numbers : option (gset Z)) (d : dict) : bool :=
  match target_numbers with
  | Some t =>
      match _issue_identifier d with
      | inr number => bool_decide (number ∈ t)
      | inl _ => false
      end
  | None => true
  end && _is_open d.

(** What [complete_open_issues] makes of a record: a chosen record is
    closed and completed, and every record has its identifier written
    back. *)
Definition complete_chosen (target_numbers : option (gset Z)) (d : dict) : dict :=
  if chosen target_numbers d then completed_fields (with_number d) else with_number d.

(** The indices among [k .. k + c - 1] of the chosen records of [rs], in
    increasing order. *)
Definition chosen_indices (target_numbers : option (gset Z)) (rs : list dict)
    (k c : nat) : list nat :=
  List.filter (fun m => match rs !! m with
                        | Some d => chosen target_numbers d
                        | None => false
                        end) (seq k c).
(** The set [complete_open_issues] makes of [issue_numbers]. *)
Definition target_set (issue_numbers : option (list Z)) : option (gset Z) :=
  list_to_set <$> issue_numbers.
(** Closing [n] again changes nothing in [s]: the scan for [n] goes over
    settled entries only, and the record it finds, if any, is closed. *)
Definition closed_for (s : store) (n : Z) : Prop :=
  match lookup_number (ids s) n with
  | inr j =>
      (forall m, (m <= j)%nat -> settled s m) /\
      exists l d, issues s !! j = Some l /\ heap s !! l = Some (Obj true d) /\
                  closed_state d
  | inl IssueNotFoundError => forall m, (m < length (issues s))%nat -> settled s m
  | inl _ => False
  end.
(** [s'] keeps the records of [s] that resolve to none of [ns]: each is
    what it was, up to a written-back number. *)
Definition keeps_others (ns : list Z) (s s' : store) : Prop :=
  forall m d, record_at s m = Some d ->
    (forall n, n ∈ ns -> _issue_identifier d ≠ inr n) ->
    exists d', record_at s' m = Some d' /\ with_number d' = with_number d.

(** The fields of [d'] are those of [d], except perhaps [number]. *)
Definition same_but_number (d d' : dict) : Prop :=
  (forall key, key ≠ "number" -> d' !! key = d !! key) /\
  _issue_identifier d' = _issue_identifier d /\ _is_open d' = _is_open d.
(** After [op n], which finds [n] at index [j], [list_open_issues]
    returns copies of the records that were open before the call, without
    the record at [j]. *)
Definition lists_the_others (op : Z -> M loc) (s : store) (n : Z) (j : nat) : Prop :=
  let s' := state_after (op n) s in
  exists copies, snd (list_open_issues s') = inr copies /\
    fields_at (state_after list_open_issues s') <$> copies
    = Some <$> (with_number <$> List.filter _is_open (delete j (records s))).

(** *** Views used for records that share an identifier *)

(** A collection with an open record without identifier, followed by an
    open record whose identifier is not an integer. *)
Definition anonymous_then_unnumbered : store :=
  store_of [ {[ "title" := VStr "Untracked"; "state" := VStr "open" ]};
             {[ "id" := VStr "abc"; "state" := VStr "open" ]} ].

(** A collection whose only record is closed and has no identifier. *)
Definition closed_anonymous : store :=
  store_of [ {[ "title" := VStr "Untracked"; "state" := VStr "closed" ]} ].

(** The index [m] is the first one that resolves to [r]. *)
Definition is_first (l : list (result Z)) (m : nat) (r : result Z) : bool :=
  match r with
  | inr z => bool_decide (lookup_number l z = inr m)
  | inl _ => false
  end.

(** The first index of the collection whose record resolves to the
    identifier of the record at [k]: the index [_find_issue_index] returns
    for the number of that record. *)
Definition first_index (s : store) (k : nat) : option nat :=
  match ids s !! k with
  | Some (inr z) =>
      match lookup_number (ids s) z with
      | inr f => Some f
      | inl _ => None
      end
  | _ => None
  end.

(** The record [d] is open and resolves to [r]. *)
Definition resolves_open (r : result Z) (d : dict) : bool :=
  _is_open d && bool_decide (_issue_identifier d = r).

(** Some record at an index from [k] on is open and resolves to [r]. *)
Definition has_open_from (s : store) (k : nat) (r : result Z) : bool :=
  existsb (resolves_open r) (drop k (records s)).

(** What the rounds of [complete_open_issues] from [k] on, without
    restriction, make of the record [d] at index [m]: the first record
    that resolves to an identifier is closed and completed when one of
    the records visited is open and resolves to that identifier; every
    other record only has its identifier written back. *)
Definition finished (s : store) (k m : nat) (d : dict) : dict :=
  if is_first (ids s) m (_issue_identifier d) && has_open_from s k (_issue_identifier d)
  then completed_fields (with_number d) else with_number d.

(** The indices among [k .. k + c - 1] of the open records, in increasing
    order. *)
Definition open_from (s : store) (k c : nat) : list nat :=
  List.filter (fun m => match records s !! m with
                        | Some d => _is_open d
                        | None => false
                        end) (seq k c).
(** The indices of the open records of the collection, in increasing
    order. *)
Definition open_indices (s : store) : list nat := open_from s 0 (length (issues s)).

(** The indices of the open records that resolve to [n], in increasing
    order. *)
Definition open_resolving (s : store) (n : Z) : list nat :=
  List.filter (fun k => bool_decide (ids s !! k = Some (inr n))) (open_indices s).

(** How often the reference [l] occurs in a list. *)
Definition occurrences (l : loc) (ls : list loc) : nat :=
  length (List.filter (fun x => bool_decide (x = l)) ls).

(** What [complete_open_issues], without restriction, does when the
    records at [a < b] are open and resolve to [n].  The result has, in
    the order of the collection, one entry for every record that was open
    before the call: the first record of the collection that resolves to
    the same identifier.  So [first], the first record that resolves to
    [n], occurs in it once for every open record that resolves to [n]: at
    least twice, and exactly twice when the records at [a] and [b] are
    the only ones.  This first record is closed and completed; a record
    that is not the first one that resolves to its identifier only has
    its identifier written back, and so the record at [b], and the record
    at [a] unless it is the first, stays open. *)
Definition completes_first_each_round (s : store) (n : Z) (a b : nat) (da db : dict)
    : Prop :=
  exists completed first i di,
    lookup_number (ids s) n = inr i /\ record_at s i = Some di /\
    snd (complete_open_issues None s) = inr completed /\
    let s' := state_after (complete_open_issues None) s in
    issues s' !! i = Some first /\
    Some <$> completed
    = (fun k => first_index s k ≫= (fun f => issues s' !! f)) <$> open_indices s /\
    occurrences first completed = length (open_resolving s n) /\
    (2 <= occurrences first completed)%nat /\
    (open_resolving s n = [a; b] -> occurrences first completed = 2%nat) /\
    record_at s' i = Some (completed_fields (with_number di)) /\
    (forall j d, record_at s j = Some d -> first_index s j ≠ Some j ->
                 record_at s' j = Some (with_number d)) /\
    stays_open s' b db /\ ((a ≠ i) -> stays_open s' a da).
(** Three open records with the same number. *)
Definition three_duplicates : store :=
  store_of [ {[ "number" := VInt 1; "state" := VStr "open" ]};
             {[ "number" := VInt 1; "title" := VStr "Again"; "state" := VStr "open" ]};
             {[ "number" := VInt 1; "title" := VStr "Once more"; "state" := VStr "open" ]} ].

(** ** The builtins and the state functions on literals *)

Example str_examples :
  Py.str (VInt (-12)) = "-12" /\ Py.str (VInt 0) = "0" /\ Py.str (VBool true) = "True".
Proof. repeat split; reflexivity. Qed.

Example int_examples :
  Py.int (VStr " 1_000 ") = inr 1000 /\ Py.int (VStr "-7") = inr (-7) /\
  Py.int (VStr "+42") = inr 42 /\ Py.int (VStr "007") = inr 7 /\
  Py.int (VStr "abc") = inl ValueError /\ Py.int (VStr "1__0") = inl ValueError /\
  Py.int (VStr "_1") = inl ValueError /\ Py.int (VStr "1_") = inl ValueError /\
  Py.int (VStr "") = inl ValueError /\ Py.int (VStr "+") = inl ValueError /\
  Py.int (VStr "- 1") = inl ValueError /\ Py.int VNone = inl TypeError /\
  Py.int (VBool true) = inr 1.
Proof. repeat split; reflexivity. Qed.

Example normalise_examples :
  _normalise_state (VStr "  In_Progress ") = "in_progress" /\
  _normalise_state VNone = "open" /\ _normalise_state (VBool true) = "true" /\
  _normalise_state (VInt 3) = "3".
Proof. repeat split; reflexivity. Qed.

Example get_state_examples :
  _get_state {[ "id" := VInt 4; "closed" := VBool false ]} = "open" /\
  _get_state {[ "state" := VStr ""; "status" := VStr "Done" ]} = "done" /\
  _get_state {[ "completed" := VBool true ]} = "closed" /\
  _get_state {[ "state" := VStr " CLOSED " ]} = "closed" /\
  _is_open {[ "status" := VStr "Resolved" ]} = false /\
  _is_open {[ "status" := VStr "in_progress" ]} = true.
Proof. repeat split; reflexivity. Qed.

(** ** The test suite, replayed on the model *)

Example test_list_open_issues :
  let s := state_after list_open_issues sample_issues in
  omap (field_of s "number") (returned list_open_issues sample_issues)
    = [VInt 2; VInt 3; VInt 4] /\
  issues s = issues sample_issues /\
  records s = records sample_issues.
Proof. repeat split; reflexivity. Qed.

Example test_close_issue :
  let s := state_after (close_issue 2) sample_issues in
  snd (close_issue 2 sample_issues) = inr 1%nat /\
  field_of s "state" 1%nat = Some (VStr "closed") /\
  field_of s "status" 1%nat = Some (VStr "closed") /\
  field_of s "closed" 1%nat = Some (VBool true) /\
  issues s !! 1%nat = Some 1%nat.
Proof. repeat split; reflexivity. Qed.

Example test_close_issue_unknown :
  snd (close_issue 999 sample_issues) = inl IssueNotFoundError.
Proof. reflexivity. Qed.

Example test_complete_issue :
  let s := state_after (complete_issue 3) sample_issues in
  snd (complete_issue 3 sample_issues) = inr 2%nat /\
  field_of s "completed" 2%nat = Some (VBool true) /\
  field_of s "state" 2%nat = Some (VStr "closed").
Proof. repeat split; reflexivity. Qed.

Example test_close_implemented_issues :
  let s := state_after (close_implemented_issues [2; 999]) sample_issues in
  snd (close_implemented_issues [2; 999] sample_issues) = inr [1%nat] /\
  field_of s "state" 1%nat = Some (VStr "closed").
Proof. repeat split; reflexivity. Qed.

Example test_complete_open_issues :
  let s := state_after (complete_open_issues None) sample_issues in
  snd (complete_open_issues None sample_issues) = inr [1; 2; 3]%nat /\
  omap (field_of s "number") [1; 2; 3]%nat = [VInt 2; VInt 3; VInt 4] /\
  (fun d => d !! "completed") <$> records s =
    [None; Some (VBool true); Some (VBool true); Some (VBool true)].
Proof. repeat split; reflexivity. Qed.

Example test_complete_open_issues_subset :
  let s := state_after (complete_open_issues (Some [3])) sample_issues in
  snd (complete_open_issues (Some [3]) sample_issues) = inr [2%nat] /\
  field_of s "completed" 2%nat = Some (VBool true) /\
  field_of s "state" 1%nat = Some (VStr "open").
Proof. repeat split; reflexivity. Qed.

(** A read-only mapping is replaced in the list by a dictionary, which is
    the one closed and returned; the mapping itself is not written to. *)
Example close_frozen_issue :
  let s := state_after (close_issue 4) frozen_issue in
  snd (close_issue 4 frozen_issue) = inr 1%nat /\
  issues s = [1%nat] /\
  heap s !! 0%nat = heap frozen_issue !! 0%nat /\
  field_of s "state" 1%nat = Some (VStr "closed") /\
  field_of s "number" 1%nat = Some (VInt 4).
Proof. repeat split; reflexivity. Qed.

(** The same dictionary held twice is completed once. *)
Example complete_aliased_issue :
  let s := state_after (complete_open_issues None) aliased_issue in
  snd (complete_open_issues None aliased_issue) = inr [0%nat] /\
  issues s = [0%nat; 0%nat] /\
  (fun d => d !! "completed") <$> records s = [Some (VBool true); Some (VBool true)].
Proof. repeat split; reflexivity. Qed.

(** ** Strings: stripping and lower-casing *)

Section StringFacts.

Import Py.

Lemma isspace_lower (c : ascii) : py_isspace (py_lower c) = py_isspace c.
Proof. destruct c as [[] [] [] [] [] [] [] []]; reflexivity. Qed.

Lemma lower_lower_char (c : ascii) : py_lower (py_lower c) = py_lower c.
Proof. destruct c as [[] [] [] [] [] [] [] []]; reflexivity. Qed.

Lemma lower_idem (s : string) : lower (lower s) = lower s.
Proof. induction s as [|c s IH]; simpl; [done|]. by rewrite lower_lower_char, IH. Qed.

Lemma lstrip_lower (s : string) : lstrip (lower s) = lower (lstrip s).
Proof.
  induction s as [|c s IH]; simpl; [done|].
  rewrite isspace_lower. by destruct (py_isspace c).
Qed.

Lemma rstrip_lower (s : string) : rstrip (lower s) = lower (rstrip s).
Proof.
  induction s as [|c s IH]; simpl; [done|].
  rewrite IH, isspace_lower.
  destruct (rstrip s); simpl; [by destruct (py_isspace c)|done].
Qed.

Lemma strip_lower (s : string) : strip (lower s) = lower (strip s).
Proof. unfold strip. by rewrite lstrip_lower, rstrip_lower. Qed.

Lemma lstrip_no_lead (s : string) : no_lead (lstrip s).
Proof.
  induction s as [|c s IH]; simpl; [done|].
  destruct (py_isspace c) eqn:E; [done|]. exact E.
Qed.

Lemma lstrip_id (s : string) : no_lead s -> lstrip s = s.
Proof. destruct s as [|c s]; simpl; [done|]. by intros ->. Qed.

Lemma rstrip_no_lead (s : string) : no_lead s -> no_lead (rstrip s).
Proof.
  destruct s as [|c s]; simpl; [done|]. intros E.
  destruct (rstrip s); simpl; [by rewrite E|done].
Qed.

Lemma rstrip_idem (s : string) : rstrip (rstrip s) = rstrip s.
Proof.
  induction s as [|c s IH]; simpl; [done|].
  destruct (rstrip s) as [|c' r] eqn:E.
  - destruct (py_isspace c) eqn:Ec; simpl; [done|]. by rewrite Ec.
  - change (rstrip (String c (String c' r)) = String c (String c' r)).
    change (rstrip (String c (String c' r)))
      with (match rstrip (String c' r) with
            | EmptyString =>
                if py_isspace c then EmptyString else String c EmptyString
            | r' => String c r'
            end).
    by rewrite IH.
Qed.

Lemma strip_idem (s : string) : strip (strip s) = strip s.
Proof.
  unfold strip.
  rewrite (lstrip_id (rstrip (lstrip s)))
    by apply rstrip_no_lead, lstrip_no_lead.
  apply rstrip_idem.
Qed.

(** Normalising a normalised state changes nothing. *)
Lemma normalise_idem (v : value) :
  _normalise_state (VStr (_normalise_state v)) = _normalise_state v.
Proof.
  destruct v; simpl; [reflexivity|..];
    by rewrite strip_lower, strip_idem, lower_idem.
Qed.

End StringFacts.

(** ** Mappings: identifier and state *)

Lemma get_insert (d : dict) (k : string) (v : value) : get (<[k := v]> d) k = v.
Proof. unfold get. by rewrite lookup_insert_eq. Qed.

Lemma get_insert_ne (d : dict) (k k' : string) (v : value) :
  k ≠ k' -> get (<[k := v]> d) k' = get d k'.
Proof. intros. unfold get. by rewrite lookup_insert_ne. Qed.

Lemma get_state_set_state (d : dict) (v : value) :
  _get_state (set_state_fields d v) = _normalise_state v.
Proof.
  unfold _get_state, set_state_fields.
  rewrite !(get_insert_ne _ "closed") by done.
  rewrite (get_insert_ne _ "status" "state") by done.
  rewrite !get_insert.
  unfold Py.or_. destruct (Py.truthy _); apply normalise_idem.
Qed.

Lemma closed_set_state (d : dict) (v : value) :
  set_state_fields d v !! "closed"
  = Some (VBool (String.eqb (_normalise_state v) "closed")).
Proof. unfold set_state_fields. by rewrite lookup_insert_eq. Qed.

(** The identifier depends on the four identifier fields only. *)
Lemma identifier_agree (d d' : dict) :
  (forall key, key ∈ identifier_keys -> d' !! key = d !! key) ->
  _issue_identifier d' = _issue_identifier d.
Proof.
  unfold _issue_identifier. generalize identifier_keys as keys.
  induction keys as [|key keys IH]; intros H; simpl; [done|].
  unfold contains, get. rewrite (H key) by set_solver.
  rewrite IH; [done|]. intros k Hk. apply H. set_solver.
Qed.

(** The state depends on the four state fields only. *)
Lemma get_state_agree (d d' : dict) :
  (forall key, key ∈ ["state"; "status"; "closed"; "completed"] ->
               d' !! key = d !! key) ->
  _get_state d' = _get_state d.
Proof.
  intros H. unfold _get_state, get.
  rewrite !H by set_solver. done.
Qed.

Lemma setdefault_lookup_ne (d : dict) (k k' : string) (v : value) :
  k ≠ k' -> setdefault d k v !! k' = d !! k'.
Proof.
  intros. unfold setdefault. destruct (d !! k); [done|]. by rewrite lookup_insert_ne.
Qed.

Lemma setdefault_present (d : dict) (k : string) (v : value) :
  is_Some (d !! k) -> setdefault d k v = d.
Proof. intros [x Hx]. unfold setdefault. by rewrite Hx. Qed.

Lemma setdefault_is_Some (d : dict) (k : string) (v : value) :
  is_Some (setdefault d k v !! k).
Proof.
  unfold setdefault. destruct (d !! k) eqn:E; [by rewrite E|].
  rewrite lookup_insert_eq. by eexists.
Qed.

Lemma with_number_lookup_ne (d : dict) (k : string) :
  k ≠ "number" -> with_number d !! k = d !! k.
Proof.
  intros. unfold with_number. destruct (_issue_identifier d); [done|].
  by apply setdefault_lookup_ne.
Qed.

Lemma identifier_number (d : dict) (v : value) :
  d !! "number" = Some v -> _issue_identifier d = Py.int v.
Proof.
  intros H. unfold _issue_identifier, identifier_keys, identifier_scan, contains, get.
  rewrite H. rewrite bool_decide_eq_true_2 by by eexists. done.
Qed.

Lemma identifier_with_number (d : dict) :
  _issue_identifier (with_number d) = _issue_identifier d.
Proof.
  unfold with_number. destruct (_issue_identifier d) as [e|z] eqn:E; [done|].
  unfold setdefault. destruct (d !! "number") eqn:En; [done|].
  rewrite (identifier_number _ (VInt z)); [done|]. by rewrite lookup_insert_eq.
Qed.

Lemma with_number_present (d : dict) :
  is_Some (d !! "number") -> with_number d = d.
Proof.
  intros H. unfold with_number. destruct (_issue_identifier d); [done|].
  by apply setdefault_present.
Qed.

Lemma with_number_is_Some (d : dict) z :
  _issue_identifier d = inr z -> is_Some (with_number d !! "number").
Proof. intros H. unfold with_number. rewrite H. apply setdefault_is_Some. Qed.

Lemma with_number_idem (d : dict) : with_number (with_number d) = with_number d.
Proof.
  destruct (_issue_identifier d) as [e|z] eqn:E.
  - unfold with_number. rewrite E. unfold with_number. by rewrite E.
  - apply with_number_present. by eapply with_number_is_Some.
Qed.

Lemma get_state_with_number (d : dict) : _get_state (with_number d) = _get_state d.
Proof.
  apply get_state_agree. intros k Hk. apply with_number_lookup_ne.
  intros ->. not_listed Hk.
Qed.

Lemma is_open_with_number (d : dict) : _is_open (with_number d) = _is_open d.
Proof. unfold _is_open. by rewrite get_state_with_number. Qed.

Lemma identifier_set_state (d : dict) (v : value) :
  _issue_identifier (set_state_fields d v) = _issue_identifier d.
Proof.
  apply identifier_agree. intros k Hk. unfold set_state_fields.
  rewrite !lookup_insert_ne; [done|intros <-; not_listed Hk..].
Qed.

Lemma identifier_completed (d : dict) :
  _issue_identifier (completed_fields d) = _issue_identifier d.
Proof.
  unfold completed_fields, closed_fields.
  rewrite <- (identifier_set_state d (VStr "closed")).
  apply identifier_agree. intros k Hk.
  rewrite lookup_insert_ne; [done|intros <-; not_listed Hk].
Qed.

Lemma is_open_completed_fields (d : dict) : _is_open (completed_fields d) = false.
Proof.
  unfold _is_open, completed_fields, closed_fields, set_state_fields, _get_state, get.
  rewrite !(lookup_insert_ne _ "completed") by done.
  rewrite !(lookup_insert_ne _ "closed") by done.
  rewrite (lookup_insert_ne _ "status" "state") by done.
  by rewrite !lookup_insert_eq.
Qed.

(** ** Running the primitives *)

Lemma store_eta (s : store) : Store (heap s) (issues s) = s.
Proof. by destruct s. Qed.

Lemma bind_inr {A B} (m : M A) (k : A -> M B) s s' a :
  m s = (s', inr a) -> bind m k s = k a s'.
Proof. intros H. unfold bind. by rewrite H. Qed.

Lemma bind_inl {A B} (m : M A) (k : A -> M B) s s' e :
  m s = (s', inl e) -> bind m k s = (s', inl e).
Proof. intros H. unfold bind. by rewrite H. Qed.

Lemma mutate_run (s : store) (l : loc) (d : dict) (f : dict -> dict) :
  heap s !! l = Some (Obj true d) ->
  mutate l f s = (Store (<[l := Obj true (f d)]> (heap s)) (issues s), inr tt).
Proof. intros H. unfold mutate. by rewrite H. Qed.

Lemma with_number_resolved (d : dict) z :
  _issue_identifier d = inr z -> setdefault d "number" (VInt z) = with_number d.
Proof. intros H. unfold with_number. by rewrite H. Qed.

Lemma ensure_mutable_run (s : store) (i : nat) (l : loc) (o : obj) :
  issues s !! i = Some l -> heap s !! l = Some o ->
  _ensure_mutable_issue i s =
    if is_mutable o then (s, inr l)
    else (Store (heap s ++ [Obj true (fields o)]) (<[i := length (heap s)]> (issues s)),
          inr (length (heap s))).
Proof.
  intros Hi Hl. unfold _ensure_mutable_issue, bind, getitem, deref.
  rewrite Hi, Hl. destruct (is_mutable o); [done|].
  unfold new_dict, setitem, ret; simpl.
  apply lookup_lt_Some in Hi. by rewrite decide_True.
Qed.

Lemma ensure_number_run (s : store) (l : loc) (d : dict) :
  heap s !! l = Some (Obj true d) ->
  _ensure_issue_number l s =
    match _issue_identifier d with
    | inr z => (Store (<[l := Obj true (with_number d)]> (heap s)) (issues s), inr z)
    | inl e => (s, inl e)
    end.
Proof.
  intros Hl. unfold _ensure_issue_number, bind, deref. rewrite Hl; simpl.
  destruct (_issue_identifier d) as [e|z] eqn:E; [done|].
  rewrite (mutate_run _ _ d) by done. by rewrite with_number_resolved.
Qed.

(** ** Well-formed stores and the records view *)

Lemma wf_lookup (s : store) (i : nat) (l : loc) :
  wf s -> issues s !! i = Some l -> exists o, heap s !! l = Some o.
Proof.
  intros Hwf Hi. unfold wf in Hwf. rewrite Forall_lookup in Hwf.
  apply Hwf in Hi. apply lookup_lt_is_Some_2 in Hi. destruct Hi as [o Ho]. eauto.
Qed.

Lemma wf_lt (s : store) (i : nat) (l : loc) :
  wf s -> issues s !! i = Some l -> (l < length (heap s))%nat.
Proof.
  intros Hwf Hi. unfold wf in Hwf. rewrite Forall_lookup in Hwf. by apply Hwf in Hi.
Qed.

Lemma record_at_Some (s : store) (i : nat) (d : dict) :
  record_at s i = Some d <->
  exists l o, issues s !! i = Some l /\ heap s !! l = Some o /\ fields o = d.
Proof.
  unfold record_at, fields_at. split.
  - intros H. destruct (issues s !! i) as [l|]; [|done]. simpl in H.
    destruct (heap s !! l) as [o|] eqn:Hl; [|done]. simpl in H.
    injection H as <-. by exists l, o.
  - intros (l & o & -> & Hl & <-). simpl. by rewrite Hl.
Qed.

Lemma records_lookup (s : store) (i : nat) :
  wf s -> records s !! i = record_at s i.
Proof.
  intros Hwf. unfold records, record_at. rewrite list_lookup_fmap.
  destruct (issues s !! i) as [l|] eqn:Hi; [|done]. simpl.
  destruct (wf_lookup s i l Hwf Hi) as [o Ho].
  unfold fields_at. by rewrite Ho.
Qed.

Lemma length_records (s : store) : length (records s) = length (issues s).
Proof. unfold records. by rewrite length_fmap. Qed.

Lemma ids_lookup (s : store) (i : nat) :
  wf s -> ids s !! i = _issue_identifier <$> record_at s i.
Proof. intros. unfold ids. by rewrite list_lookup_fmap, records_lookup. Qed.

Lemma length_ids (s : store) : length (ids s) = length (issues s).
Proof. unfold ids. by rewrite length_fmap, length_records. Qed.

(** Two stores whose records agree up to a written-back number resolve to
    the same identifiers. *)
Lemma ids_agree (s s' : store) :
  wf s -> wf s' -> length (issues s') = length (issues s) ->
  (forall j, with_number <$> record_at s' j = with_number <$> record_at s j) ->
  ids s' = ids s.
Proof.
  intros Hwf Hwf' Hlen H. apply list_eq. intros j.
  rewrite !ids_lookup by done. specialize (H j).
  destruct (record_at s' j) as [d'|], (record_at s j) as [d|]; simpl in *;
    try done.
  f_equal. rewrite <- (identifier_with_number d'), <- (identifier_with_number d).
  congruence.
Qed.

(** ** One round of the scan *)

Section Touch.

Variables (s : store) (i : nat) (l : loc) (o : obj).
Hypothesis Hwf : wf s.
Hypothesis Hi : issues s !! i = Some l.
Hypothesis Hl : heap s !! l = Some o.

Lemma touch_unfold :
  touch s i =
    if is_mutable o
    then Store (<[l := Obj true (with_number (fields o))]> (heap s)) (issues s)
    else Store (heap s ++ [Obj true (with_number (fields o))])
               (<[i := length (heap s)]> (issues s)).
Proof. unfold touch. by rewrite Hi, Hl. Qed.

Lemma touch_length : length (issues (touch s i)) = length (issues s).
Proof. rewrite touch_unfold. destruct (is_mutable o); simpl; [done|]. by rewrite length_insert. Qed.

Lemma touch_wf : wf (touch s i).
Proof.
  unfold wf. rewrite touch_unfold. destruct (is_mutable o); simpl.
  - rewrite length_insert. exact Hwf.
  - rewrite length_app; simpl. apply Forall_insert.
    + eapply Forall_impl; [exact Hwf|]. simpl. intros; lia.
    + lia.
Qed.

Lemma touch_entry : issues (touch s i) !! i = Some (touched_loc s l o).
Proof.
  unfold touched_loc. rewrite touch_unfold. destruct (is_mutable o); simpl; [done|].
  apply list_lookup_insert_eq. by apply lookup_lt_Some in Hi.
Qed.

Lemma touch_entry_ne (j : nat) : j ≠ i -> issues (touch s i) !! j = issues s !! j.
Proof.
  intros. rewrite touch_unfold. destruct (is_mutable o); simpl; [done|].
  by rewrite list_lookup_insert_ne.
Qed.

Lemma touch_heap_at :
  heap (touch s i) !! touched_loc s l o = Some (Obj true (with_number (fields o))).
Proof.
  unfold touched_loc. rewrite touch_unfold. destruct (is_mutable o); simpl.
  - apply list_lookup_insert_eq. by apply lookup_lt_Some in Hl.
  - rewrite lookup_app_r by lia. by rewrite Nat.sub_diag.
Qed.

(** Objects other than the visited one are not written to. *)
Lemma touch_heap_other (l' : loc) :
  (l' < length (heap s))%nat -> l' ≠ l -> heap (touch s i) !! l' = heap s !! l'.
Proof.
  intros Hlt Hne. rewrite touch_unfold. destruct (is_mutable o); simpl.
  - by rewrite list_lookup_insert_ne.
  - by rewrite lookup_app_l.
Qed.

(** The visited object, when it is read-only, is not written to either. *)
Lemma touch_heap_frozen (l' : loc) :
  (l' < length (heap s))%nat -> is_mutable o = false ->
  heap (touch s i) !! l' = heap s !! l'.
Proof.
  intros Hlt Hm. rewrite touch_unfold, Hm; simpl. by rewrite lookup_app_l.
Qed.

Lemma touch_record_self : record_at (touch s i) i = Some (with_number (fields o)).
Proof.
  apply record_at_Some. exists (touched_loc s l o), (Obj true (with_number (fields o))).
  split; [apply touch_entry|]. split; [apply touch_heap_at|done].
Qed.

(** An entry that is another object keeps its record. *)
Lemma touch_record_other (j : nat) :
  issues s !! j ≠ Some l -> record_at (touch s i) j = record_at s j.
Proof.
  intros Hne. assert (j ≠ i) by congruence.
  unfold record_at. rewrite touch_entry_ne by done.
  destruct (issues s !! j) as [lj|] eqn:Hj; [|done]. simpl.
  unfold fields_at. rewrite touch_heap_other; [done|by eapply wf_lt|congruence].
Qed.

(** An entry that is the visited object sees the write when the object
    is mutable, and nothing when it is read-only (the copy is put at
    index [i] alone). *)
Lemma touch_record_alias (j : nat) :
  issues s !! j = Some l -> j ≠ i ->
  record_at (touch s i) j =
    Some (if is_mutable o then with_number (fields o) else fields o).
Proof.
  intros Hj Hne. apply record_at_Some.
  rewrite touch_entry_ne, Hj by done.
  destruct (is_mutable o) eqn:Hm.
  - exists l, (Obj true (with_number (fields o))). split; [done|]. split; [|done].
    pose proof touch_heap_at as H. unfold touched_loc in H. by rewrite Hm in H.
  - exists l, o. split; [done|]. split; [|done].
    rewrite touch_heap_frozen; [done|by eapply lookup_lt_Some|done].
Qed.

(** Every record is what it was, up to a written-back number. *)
Lemma touch_record_mod (j : nat) :
  with_number <$> record_at (touch s i) j = with_number <$> record_at s j.
Proof.
  assert (record_at s i = Some (fields o)) as Hri
    by (apply record_at_Some; eauto).
  destruct (decide (j = i)) as [->|Hne].
  { rewrite touch_record_self, Hri. simpl. by rewrite with_number_idem. }
  destruct (decide (issues s !! j = Some l)) as [Hj|Hj].
  - rewrite (touch_record_alias j) by done.
    assert (record_at s j = Some (fields o)) as ->
      by (apply record_at_Some; eauto).
    simpl. destruct (is_mutable o); [by rewrite with_number_idem|done].
  - by rewrite touch_record_other.
Qed.

End Touch.

(** [_ensure_mutable_issue] followed by [_ensure_issue_number], as every
    loop of the module runs them. *)
Lemma visit_run {A} (K : loc -> Z -> M A) (s : store) (i : nat) (l : loc) (o : obj) :
  issues s !! i = Some l -> heap s !! l = Some o ->
  bind (_ensure_mutable_issue i)
       (fun issue => bind (_ensure_issue_number issue) (K issue)) s =
    match _issue_identifier (fields o) with
    | inr z => K (touched_loc s l o) z (touch s i)
    | inl e =>
        (if is_mutable o then s
         else Store (heap s ++ [Obj true (fields o)])
                    (<[i := length (heap s)]> (issues s)),
         inl e)
    end.
Proof.
  intros Hi Hl. unfold bind at 1. rewrite (ensure_mutable_run s i l o) by done.
  rewrite (touch_unfold s i l o) by done. unfold touched_loc.
  destruct o as [[] d]; simpl.
  - unfold bind. rewrite (ensure_number_run s l d) by done.
    by destruct (_issue_identifier d).
  - unfold bind. erewrite ensure_number_run; simpl.
    2:{ rewrite lookup_app_r by lia. by rewrite Nat.sub_diag. }
    destruct (_issue_identifier d); [done|].
    rewrite insert_app_r_alt by lia. by rewrite Nat.sub_diag.
Qed.

Lemma identifier_error (d : dict) (e : exn) :
  _issue_identifier d = inl e -> e = KeyError \/ e = ValueError \/ e = TypeError.
Proof.
  unfold _issue_identifier. generalize identifier_keys as keys.
  induction keys as [|k keys IH]; simpl; [intros [= <-]; auto|].
  destruct (contains d k); [|done].
  destruct (get d k) as [| | |str]; simpl; try (intros [= <-]; auto); try done.
  destruct (Py.int_of_string str); [done|intros [= <-]; auto].
Qed.

(** ** Settled entries: mutable objects that have their number *)

Lemma touch_settled_id (s : store) (i : nat) : settled s i -> touch s i = s.
Proof.
  intros (l & d & Hi & Hl & Hn). rewrite (touch_unfold s i l _ Hi Hl); simpl.
  rewrite with_number_present by done.
  rewrite list_insert_id by done. apply store_eta.
Qed.

Lemma touch_settles (s : store) (i : nat) (l : loc) (o : obj) z :
  issues s !! i = Some l -> heap s !! l = Some o ->
  _issue_identifier (fields o) = inr z -> settled (touch s i) i.
Proof.
  intros Hi Hl Hz. exists (touched_loc s l o), (with_number (fields o)).
  split; [by apply touch_entry|]. split; [by apply touch_heap_at|].
  by eapply with_number_is_Some.
Qed.

(** ** What a scan leaves in place *)


Lemma ext_refl (s : store) : wf s -> ext s s.
Proof. intros Hwf. split; eauto. Qed.

Lemma ext_trans (s1 s2 s3 : store) : ext s1 s2 -> ext s2 s3 -> ext s1 s3.
Proof.
  intros H12 H23. split.
  - apply H23.
  - rewrite (ext_length _ _ H23). apply H12.
  - intros j. rewrite (ext_record _ _ H23). apply H12.
  - intros l o Hl. destruct (ext_obj _ _ H12 l o Hl) as (o2 & Hl2 & Hm2).
    destruct (ext_obj _ _ H23 l o2 Hl2) as (o3 & Hl3 & Hm3).
    exists o3. split; [done|congruence].
  - intros j l d Hj Hl.
    pose proof (ext_entry _ _ H12 j l d Hj Hl) as Hj2.
    destruct (ext_obj _ _ H12 l _ Hl) as ([m2 d2] & Hl2 & Hm2). simpl in Hm2. subst m2.
    by apply (ext_entry _ _ H23 j l d2).
  - intros l d Hl Hn. apply (ext_settled _ _ H23); [|done].
    by apply (ext_settled _ _ H12).
Qed.

Lemma ext_ids (s s' : store) : wf s -> ext s s' -> ids s' = ids s.
Proof. intros Hwf H. apply ids_agree; [done|apply H..]. Qed.

Lemma ext_settled_index (s s' : store) (j : nat) :
  ext s s' -> settled s j -> settled s' j.
Proof.
  intros H (l & d & Hj & Hl & Hn). exists l, d.
  split; [by apply (ext_entry _ _ H j l d)|].
  split; [by apply (ext_settled _ _ H)|done].
Qed.

Lemma touch_ext (s : store) (i : nat) : wf s -> ext s (touch s i).
Proof.
  intros Hwf.
  destruct (issues s !! i) as [l|] eqn:Hi;
    [|unfold touch; rewrite Hi; by apply ext_refl].
  destruct (wf_lookup s i l Hwf Hi) as [o Hl].
  split.
  - by eapply touch_wf.
  - by eapply touch_length.
  - intros j. by eapply touch_record_mod.
  - intros l' o' Hl'. destruct (decide (l' = l)) as [->|Hne].
    + assert (o' = o) as -> by congruence.
      rewrite (touch_unfold s i l o) by done.
      destruct (is_mutable o) eqn:Hm; simpl.
      * exists (Obj true (with_number (fields o))). split.
        -- apply list_lookup_insert_eq. by eapply lookup_lt_Some.
        -- simpl. congruence.
      * exists o. split; [|done]. apply lookup_app_l_Some. done.
    + exists o'. split; [|done].
      rewrite (touch_heap_other s i l o) by (done || by eapply lookup_lt_Some). done.
  - intros j l' d Hj Hl'. destruct (decide (j = i)) as [->|Hne].
    + rewrite (touch_entry s i l o) by done. unfold touched_loc.
      assert (l' = l) as -> by congruence.
      assert (o = Obj true d) as -> by congruence. done.
    + by rewrite (touch_entry_ne s i l o).
  - intros l' d Hl' Hn. destruct (decide (l' = l)) as [->|Hne].
    + assert (o = Obj true d) as -> by congruence.
      pose proof (touch_heap_at s i l _ Hi Hl) as H. unfold touched_loc in H.
      simpl in H. by rewrite with_number_present in H.
    + rewrite (touch_heap_other s i l o) by (done || by eapply lookup_lt_Some). done.
Qed.

Lemma touch_range_S (s : store) (k c : nat) :
  touch_range s k (S c) = touch_range (touch s k) (S k) c.
Proof. done. Qed.

Lemma touch_range_ext (s : store) (k c : nat) : wf s -> ext s (touch_range s k c).
Proof.
  revert s k. induction c as [|c IH]; intros s k Hwf; [by apply ext_refl|].
  rewrite touch_range_S. eapply ext_trans; [by apply touch_ext|].
  apply IH. by apply touch_ext.
Qed.

(** After the scan went over the indices [k .. k+c-1], whose records all
    resolve, these entries are settled. *)
Lemma touch_range_settles (s : store) (k c j : nat) :
  wf s -> (k + c <= length (issues s))%nat ->
  (forall m, (k <= m < k + c)%nat -> exists z, ids s !! m = Some (inr z)) ->
  (k <= j < k + c)%nat -> settled (touch_range s k c) j.
Proof.
  revert s k. induction c as [|c IH]; intros s k Hwf Hlen Hres Hj; [lia|].
  rewrite touch_range_S.
  assert (Hext : ext s (touch s k)) by by apply touch_ext.
  destruct (decide (j = k)) as [->|Hne].
  - eapply ext_settled_index; [apply touch_range_ext, Hext|].
    destruct (Hres k) as [z Hz]; [lia|].
    rewrite ids_lookup in Hz by done.
    destruct (record_at s k) as [d|] eqn:Hd; [|done].
    apply record_at_Some in Hd as (l & o & Hk & Hl & <-).
    simpl in Hz. eapply (touch_settles s k l o z); [done..|congruence].
  - apply IH.
    + apply Hext.
    + rewrite (ext_length _ _ Hext). lia.
    + intros m Hm. rewrite (ext_ids s) by done. apply Hres. lia.
    + lia.
Qed.

(** A scan over settled entries does nothing. *)
Lemma touch_range_settled_id (s : store) (k c : nat) :
  (forall m, (k <= m < k + c)%nat -> settled s m) -> touch_range s k c = s.
Proof.
  revert k. induction c as [|c IH]; intros k H; [done|].
  rewrite touch_range_S, touch_settled_id by (apply H; lia).
  apply IH. intros m Hm. apply H. lia.
Qed.

(** ** The scan of [_find_issue_index] *)

Lemma find_loop_run (n : Z) (c : nat) : forall (s : store) (k : nat),
  wf s -> (k + c)%nat = length (issues s) ->
  match lookup_number (drop k (ids s)) n with
  | inr j => find_loop (seq k c) n s = (touch_range s k (S j), inr (k + j)%nat)
  | inl IssueNotFoundError =>
      find_loop (seq k c) n s = (touch_range s k c, inl IssueNotFoundError)
  | inl e => snd (find_loop (seq k c) n s) = inl e
  end.
Proof.
  induction c as [|c IH]; intros s k Hwf Hlen.
  { rewrite drop_ge by (rewrite length_ids; lia). done. }
  destruct (lookup_lt_is_Some_2 (issues s) k) as [l Hk]; [lia|].
  destruct (wf_lookup s k l Hwf Hk) as [o Hl].
  assert (ids s !! k = Some (_issue_identifier (fields o))) as Hid.
  { rewrite ids_lookup by done.
    assert (record_at s k = Some (fields o)) as -> by (apply record_at_Some; eauto).
    done. }
  rewrite (drop_S _ _ _ Hid). simpl.
  rewrite (visit_run _ s k l o) by done.
  destruct (_issue_identifier (fields o)) as [e|z] eqn:Ez.
  { destruct (identifier_error _ _ Ez) as [->|[->| ->]]; done. }
  destruct (z =? n)%Z.
  { unfold ret. by rewrite Nat.add_0_r. }
  assert (Hext : ext s (touch s k)) by by apply touch_ext.
  specialize (IH (touch s k) (S k) (ext_wf _ _ Hext)).
  rewrite (ext_ids s), (ext_length _ _ Hext) in IH by done.
  specialize (IH ltac:(lia)).
  destruct (lookup_number (drop (S k) (ids s)) n) as [e|j].
  - destruct e; by rewrite ?touch_range_S.
  - rewrite IH, touch_range_S. do 2 f_equal. lia.
Qed.

Lemma find_run (n : Z) (s : store) :
  wf s ->
  match lookup_number (ids s) n with
  | inr j => _find_issue_index n s = (touch_range s 0 (S j), inr j)
  | inl IssueNotFoundError =>
      _find_issue_index n s
      = (touch_range s 0 (length (issues s)), inl IssueNotFoundError)
  | inl e => snd (_find_issue_index n s) = inl e
  end.
Proof.
  intros Hwf. unfold _find_issue_index.
  pose proof (find_loop_run n (length (issues s)) s 0%nat Hwf eq_refl) as H.
  by rewrite drop_0 in H.
Qed.

(** What the scan says about the identifiers. *)
Lemma lookup_number_inr (l : list (result Z)) (n : Z) (j : nat) :
  lookup_number l n = inr j ->
  l !! j = Some (inr n) /\
  forall m, (m < j)%nat -> exists z, l !! m = Some (inr z) /\ z ≠ n.
Proof.
  revert j. induction l as [|[e|z] l IH]; intros j; simpl; [done..|].
  destruct (z =? n)%Z eqn:E.
  - apply Z.eqb_eq in E as ->. intros [= <-]. split; [done|]. intros; lia.
  - destruct (lookup_number l n) as [e|j']; [done|]. intros [= <-].
    destruct (IH j' eq_refl) as [H1 H2]. split; [done|].
    intros [|m] Hm; simpl.
    + exists z. split; [done|by apply Z.eqb_neq].
    + apply H2. lia.
Qed.

Lemma lookup_number_first (l : list (result Z)) (n : Z) (j : nat) :
  l !! j = Some (inr n) ->
  (forall m, (m < j)%nat -> exists z, l !! m = Some (inr z) /\ z ≠ n) ->
  lookup_number l n = inr j.
Proof.
  revert j. induction l as [|x l IH]; intros j Hj Hlt; [done|].
  destruct j as [|j]; simpl in *.
  - injection Hj as ->. by rewrite Z.eqb_refl.
  - destruct (Hlt 0%nat) as (z & [= ->] & Hz); [lia|].
    rewrite (proj2 (Z.eqb_neq z n)) by done.
    rewrite (IH j); [done..|]. intros m Hm. apply (Hlt (S m)). lia.
Qed.


(** ** Writes to the object at an index *)

Section UpdateAt.

Variables (s : store) (j : nat) (l : loc) (o : obj) (f : dict -> dict).
Hypothesis Hj : issues s !! j = Some l.
Hypothesis Hl : heap s !! l = Some o.

Lemma update_at_unfold :
  update_at s j f = Store (<[l := Obj true (f (fields o))]> (heap s)) (issues s).
Proof. unfold update_at. by rewrite Hj, Hl. Qed.

Lemma update_at_issues : issues (update_at s j f) = issues s.
Proof. by rewrite update_at_unfold. Qed.

Lemma update_at_wf : wf s -> wf (update_at s j f).
Proof. unfold wf. rewrite update_at_unfold; simpl. by rewrite length_insert. Qed.

Lemma update_at_heap_at : heap (update_at s j f) !! l = Some (Obj true (f (fields o))).
Proof.
  rewrite update_at_unfold; simpl. apply list_lookup_insert_eq.
  by eapply lookup_lt_Some.
Qed.

Lemma update_at_heap_other (l' : loc) :
  l' ≠ l -> heap (update_at s j f) !! l' = heap s !! l'.
Proof. intros. rewrite update_at_unfold; simpl. by rewrite list_lookup_insert_ne. Qed.

Lemma update_at_record_same (m : nat) :
  issues s !! m = Some l -> record_at (update_at s j f) m = Some (f (fields o)).
Proof.
  intros Hm. apply record_at_Some. exists l, (Obj true (f (fields o))).
  rewrite update_at_issues. split; [done|]. split; [apply update_at_heap_at|done].
Qed.

Lemma update_at_record_other (m : nat) :
  issues s !! m ≠ Some l -> record_at (update_at s j f) m = record_at s m.
Proof.
  intros Hm. unfold record_at. rewrite update_at_issues.
  destruct (issues s !! m) as [lm|] eqn:E; [|done]. simpl.
  unfold fields_at. rewrite update_at_heap_other; [done|congruence].
Qed.

(** A write that keeps the identifier keeps the identifiers of the
    collection. *)
Lemma update_at_ids :
  wf s -> (forall d, _issue_identifier (f d) = _issue_identifier d) ->
  ids (update_at s j f) = ids s.
Proof.
  intros Hwf Hf. apply list_eq. intros m.
  rewrite !ids_lookup by (done || by apply update_at_wf).
  destruct (decide (issues s !! m = Some l)) as [Hm|Hm].
  - rewrite update_at_record_same by done.
    assert (record_at s m = Some (fields o)) as ->
      by (apply record_at_Some; eauto).
    simpl. by rewrite Hf.
  - by rewrite update_at_record_other.
Qed.

End UpdateAt.

(** ** [close_issue] and [complete_issue] when the number is found *)

Lemma found_settled (s : store) (n : Z) (j : nat) :
  wf s -> lookup_number (ids s) n = inr j ->
  let s1 := touch_range s 0 (S j) in
  exists l d, issues s1 !! j = Some l /\ heap s1 !! l = Some (Obj true d) /\
              is_Some (d !! "number") /\ _issue_identifier d = inr n.
Proof.
  intros Hwf Hn s1.
  destruct (lookup_number_inr _ _ _ Hn) as [Hj Hlt].
  assert (Hext : ext s s1) by by apply touch_range_ext.
  assert (settled s1 j) as (l & d & H1 & H2 & H3).
  { apply touch_range_settles; [done| | |lia].
    - apply lookup_lt_Some in Hj. rewrite length_ids in Hj. lia.
    - intros m Hm. destruct (decide (m = j)) as [->|]; [eauto|].
      destruct (Hlt m) as (z & Hz & _); [lia|eauto]. }
  exists l, d. repeat split; try done.
  rewrite <- (ext_ids s s1), ids_lookup in Hj by (done || apply Hext).
  assert (record_at s1 j = Some d) as Hd by (apply record_at_Some; eauto).
  rewrite Hd in Hj. simpl in Hj. congruence.
Qed.

Lemma close_run (s : store) (n : Z) (j : nat) :
  wf s -> lookup_number (ids s) n = inr j ->
  let s1 := touch_range s 0 (S j) in
  exists l, issues s1 !! j = Some l /\
            close_issue n s = (update_at s1 j closed_fields, inr l).
Proof.
  intros Hwf Hn s1.
  destruct (found_settled s n j Hwf Hn) as (l & d & Hj & Hl & Hnum & Hid).
  fold s1 in Hj, Hl. exists l. split; [done|].
  pose proof (find_run n s Hwf) as Hfind. rewrite Hn in Hfind.
  unfold close_issue. rewrite (bind_inr _ _ _ _ _ Hfind). fold s1.
  rewrite (visit_run _ s1 j l _ Hj Hl); simpl. rewrite Hid.
  unfold touched_loc; simpl.
  rewrite touch_settled_id by (exists l, d; done).
  unfold bind, _set_state. rewrite (mutate_run s1 l d) by done.
  unfold ret. by rewrite (update_at_unfold s1 j l _ _ Hj Hl).
Qed.

Lemma complete_run (s : store) (n : Z) (j : nat) :
  wf s -> lookup_number (ids s) n = inr j ->
  let s1 := touch_range s 0 (S j) in
  exists l, issues s1 !! j = Some l /\
            complete_issue n s = (update_at s1 j completed_fields, inr l).
Proof.
  intros Hwf Hn s1.
  destruct (found_settled s n j Hwf Hn) as (l & d & Hj & Hl & Hnum & Hid).
  destruct (close_run s n j Hwf Hn) as (l' & Hj' & Hclose).
  fold s1 in Hj, Hl, Hj', Hclose. assert (l' = l) as -> by congruence.
  exists l. split; [done|].
  unfold complete_issue. rewrite (bind_inr _ _ _ _ _ Hclose).
  unfold bind.
  rewrite (mutate_run _ l (closed_fields d))
    by (by rewrite (update_at_heap_at s1 j l _ _ Hj Hl)).
  unfold ret. rewrite !(update_at_unfold s1 j l _ _ Hj Hl); simpl.
  by rewrite list_insert_insert_eq.
Qed.

(** When the scan does not find the number, both raise what the scan
    raises. *)
Lemma close_fails (s : store) (n : Z) (e : exn) :
  wf s -> lookup_number (ids s) n = inl e ->
  snd (close_issue n s) = inl e /\ snd (complete_issue n s) = inl e /\
  snd (_find_issue_index n s) = inl e.
Proof.
  intros Hwf Hn. pose proof (find_run n s Hwf) as Hfind. rewrite Hn in Hfind.
  assert (snd (_find_issue_index n s) = inl e) as H
    by (destruct e; try done; by rewrite Hfind).
  assert (snd (close_issue n s) = inl e) as Hc.
  { unfold close_issue, bind at 1.
    destruct (_find_issue_index n s) as [s' [e'|i]]; simpl in *; congruence. }
  repeat split; try done.
  unfold complete_issue, bind at 1.
  destruct (close_issue n s) as [s' [e'|i]]; simpl in *; congruence.
Qed.

Lemma wf_store_of (ds : list dict) : wf (store_of ds).
Proof.
  unfold wf, store_of; simpl. rewrite length_fmap.
  apply Forall_forall. intros l Hl. apply elem_of_seq in Hl. lia.
Qed.

Lemma consistent_closed_fields (d : dict) : consistent (closed_fields d).
Proof.
  exists (VStr "closed"). unfold closed_fields, set_state_fields.
  change (_normalise_state (VStr "closed")) with "closed".
  rewrite !(lookup_insert_ne _ "closed") by done.
  rewrite (lookup_insert_ne _ "status" "state") by done.
  by rewrite !lookup_insert_eq.
Qed.

Lemma consistent_completed_fields (d : dict) : consistent (completed_fields d).
Proof.
  destruct (consistent_closed_fields d) as (st & H1 & H2 & H3).
  exists st. unfold completed_fields. by rewrite !lookup_insert_ne.
Qed.

Lemma completed_fields_completed (d : dict) :
  completed_fields d !! "completed" = Some (VBool true).
Proof. unfold completed_fields. by rewrite lookup_insert_eq. Qed.

Lemma closed_fields_state (d : dict) :
  closed_fields d !! "state" = Some (VStr "closed").
Proof.
  unfold closed_fields, set_state_fields.
  change (_normalise_state (VStr "closed")) with "closed".
  rewrite !lookup_insert_ne by done. by rewrite lookup_insert_eq.
Qed.

Lemma lookup_number_unknown (l : list (result Z)) (n : Z) :
  Forall (fun r => exists z, r = inr z /\ z ≠ n) l ->
  lookup_number l n = inl IssueNotFoundError.
Proof.
  induction 1 as [|r l (z & -> & Hz) _ IH]; simpl; [done|].
  rewrite (proj2 (Z.eqb_neq z n)) by done. by rewrite IH.
Qed.

(** * The claims *)

(** ** C7: [_issue_identifier]

    C7.  The identifier of a record is looked up under [number], [id],
    [issue_id] and [issueNumber], in this order; the value of the first
    field present is returned coerced by [int], and when none of the four
    is present the missing-identifier error ([KeyError]) is raised. *)
Theorem issue_identifier_priority (issue : dict) :
  match issue !! "number", issue !! "id", issue !! "issue_id", issue !! "issueNumber" with
  | Some v, _, _, _ => _issue_identifier issue = Py.int v
  | None, Some v, _, _ => _issue_identifier issue = Py.int v
  | None, None, Some v, _ => _issue_identifier issue = Py.int v
  | None, None, None, Some v => _issue_identifier issue = Py.int v
  | None, None, None, None => _issue_identifier issue = inl KeyError
  end.
Proof.
  unfold _issue_identifier, identifier_keys, identifier_scan, contains, get.
  destruct (issue !! "number") as [v1|] eqn:E1.
  { by rewrite bool_decide_eq_true_2 by by eexists. }
  rewrite bool_decide_eq_false_2 by by intros [? ?].
  destruct (issue !! "id") as [v2|] eqn:E2.
  { by rewrite bool_decide_eq_true_2 by by eexists. }
  rewrite bool_decide_eq_false_2 by by intros [? ?].
  destruct (issue !! "issue_id") as [v3|] eqn:E3.
  { by rewrite bool_decide_eq_true_2 by by eexists. }
  rewrite bool_decide_eq_false_2 by by intros [? ?].
  destruct (issue !! "issueNumber") as [v4|] eqn:E4.
  { by rewrite bool_decide_eq_true_2 by by eexists. }
  by rewrite bool_decide_eq_false_2 by by intros [? ?].
Qed.

(** ** C2: [_set_state] then [_get_state]

    C2.  For every mutable record and every state value [v]: after
    [_set_state(record, v)] the record reads back, through [_get_state],
    the normalised value [_normalise_state v], and its [closed] field is
    the boolean [_normalise_state v == "closed"]. *)
Theorem set_state_get_state (s : store) (issue : loc) (d : dict) (v : value) :
  heap s !! issue = Some (Obj true d) ->
  snd (_set_state issue v s) = inr tt /\
  exists d', fields_at (state_after (_set_state issue v) s) issue = Some d' /\
             _get_state d' = _normalise_state v /\
             d' !! "closed" = Some (VBool (String.eqb (_normalise_state v) "closed")).
Proof.
  intros Hl. unfold state_after, _set_state. rewrite (mutate_run s issue d) by done.
  split; [done|]. exists (set_state_fields d v). simpl. split.
  - unfold fields_at; simpl. rewrite list_lookup_insert_eq; [done|].
    by eapply lookup_lt_Some.
  - split; [apply get_state_set_state|apply closed_set_state].
Qed.

Lemma set_state_get_state_witness :
  let d : dict := {[ "number" := VInt 2; "title" := VStr "Add /health endpoint";
                     "state" := VStr "open" ]} in
  let v := VStr " Closed " in
  heap sample_issues !! 1%nat = Some (Obj true d) /\
  snd (_set_state 1%nat v sample_issues) = inr tt /\
  exists d', fields_at (state_after (_set_state 1%nat v) sample_issues) 1%nat = Some d' /\
             _get_state d' = _normalise_state v /\
             d' !! "closed" = Some (VBool (String.eqb (_normalise_state v) "closed")).
Proof.
  intros d v. split; [reflexivity|].
  apply (set_state_get_state sample_issues 1%nat d v). reflexivity.
Defined.

(** ** C4: the record closed or completed is consistent

    C4.  When the number [n] is found at index [j] of the collection,
    [close_issue] and [complete_issue] both return the object stored at
    index [j], and after the call that record has [state == status] and
    [closed == (state == "closed")] (its state is ["closed"]). *)
Theorem close_complete_consistent (s : store) (n : Z) (j : nat) :
  wf s -> lookup_number (ids s) n = inr j ->
  returns_closed_record close_issue s n j /\
  returns_closed_record complete_issue s n j.
Proof.
  intros Hwf Hn. unfold returns_closed_record.
  destruct (found_settled s n j Hwf Hn) as (l & d & Hj & Hl & _ & _).
  destruct (close_run s n j Hwf Hn) as (l1 & Hj1 & Hclose).
  destruct (complete_run s n j Hwf Hn) as (l2 & Hj2 & Hcomplete).
  simpl in *. assert (l1 = l) as -> by congruence. assert (l2 = l) as -> by congruence.
  unfold state_after. rewrite Hclose, Hcomplete; simpl. split.
  - exists l, (closed_fields d). split; [done|].
    rewrite (update_at_issues _ j l _ _ Hj Hl). split; [done|].
    unfold fields_at. rewrite (update_at_heap_at _ j l _ _ Hj Hl); simpl.
    split; [done|]. split; [apply closed_fields_state|apply consistent_closed_fields].
  - exists l, (completed_fields d). split; [done|].
    rewrite (update_at_issues _ j l _ _ Hj Hl). split; [done|].
    unfold fields_at. rewrite (update_at_heap_at _ j l _ _ Hj Hl); simpl.
    split; [done|]. split; [|apply consistent_completed_fields].
    unfold completed_fields. rewrite lookup_insert_ne by done. apply closed_fields_state.
Qed.

Lemma close_complete_consistent_witness :
  wf sample_issues /\ lookup_number (ids sample_issues) 3 = inr 2%nat /\
  returns_closed_record close_issue sample_issues 3 2 /\
  returns_closed_record complete_issue sample_issues 3 2.
Proof.
  split; [wf_eval|]. split; [reflexivity|].
  apply (close_complete_consistent sample_issues 3 2); [wf_eval|reflexivity].
Defined.

(** ** C1: [close_issue] on an unknown number

    The claim (C1) says that the collection is left exactly as it was.  It
    is not: the scan of [_find_issue_index] has written the resolved
    identifier into the [number] field of every record that lacked it.  On
    the collection of the test suite, closing the unknown number 999
    raises not-found and leaves the fourth record, which had only [id],
    with [number] 4. *)
Lemma close_issue_unknown_writes_number :
  unknown_number sample_issues 999 /\
  snd (close_issue 999 sample_issues) = inl IssueNotFoundError /\
  record_at sample_issues 3 ≫= (.!! "number") = None /\
  record_at (state_after (close_issue 999) sample_issues) 3 ≫= (.!! "number")
    = Some (VInt 4) /\
  state_after (close_issue 999) sample_issues ≠ sample_issues.
Proof.
  split.
  { unfold unknown_number. change (ids sample_issues) with [@inr exn Z 1; inr 2; inr 3; inr 4] at 1.
    repeat (constructor; [eexists; split; [reflexivity|lia]|]). constructor. }
  split; [reflexivity|]. split; [reflexivity|]. split; [reflexivity|].
  intros H.
  apply (f_equal (fun s => record_at s 3 ≫= (.!! "number"))) in H.
  discriminate H.
Qed.

(** C1, amended.  When every record of the collection resolves to an
    identifier and none resolves to [n], [close_issue] raises the
    not-found condition; afterwards the collection has the same length,
    every entry that was a mutable object is still that object, and every
    record is what it was before the call with, when it had no [number],
    its resolved identifier written into [number]. *)
Theorem close_issue_unknown (s : store) (n : Z) :
  wf s -> unknown_number s n ->
  snd (close_issue n s) = inl IssueNotFoundError /\
  records (state_after (close_issue n) s) = with_number <$> records s /\
  (forall j l d, issues s !! j = Some l -> heap s !! l = Some (Obj true d) ->
                 issues (state_after (close_issue n) s) !! j = Some l).
Proof.
  intros Hwf Hn. pose proof (lookup_number_unknown _ _ Hn) as Hlook.
  pose proof (find_run n s Hwf) as Hfind. rewrite Hlook in Hfind.
  unfold state_after, close_issue. rewrite (bind_inl _ _ _ _ _ Hfind); simpl.
  set (s1 := touch_range s 0 (length (issues s))).
  assert (Hext : ext s s1) by by apply touch_range_ext.
  split; [done|]. split; [|by apply Hext].
  apply list_eq. intros j. rewrite list_lookup_fmap.
  rewrite !records_lookup by (done || apply Hext).
  rewrite <- (ext_record _ _ Hext).
  destruct (decide (j < length (issues s))%nat) as [Hj|Hj].
  - assert (settled s1 j) as (l & d & H1 & H2 & H3).
    { apply touch_range_settles; [done|lia| |lia].
      intros m Hm. unfold unknown_number in Hn. rewrite Forall_lookup in Hn.
      destruct (lookup_lt_is_Some_2 (ids s) m) as [r Hr];
        [rewrite length_ids; lia|].
      destruct (Hn m r Hr) as (z & -> & _). eauto. }
    assert (record_at s1 j = Some d) as -> by (apply record_at_Some; eauto).
    simpl. by rewrite with_number_present.
  - assert (record_at s1 j = None) as ->; [|done].
    unfold record_at. rewrite lookup_ge_None_2; [done|].
    rewrite (ext_length _ _ Hext). lia.
Qed.

Lemma close_issue_unknown_witness :
  wf sample_issues /\ unknown_number sample_issues 999 /\
  snd (close_issue 999 sample_issues) = inl IssueNotFoundError /\
  records (state_after (close_issue 999) sample_issues)
    = with_number <$> records sample_issues /\
  (forall j l d, issues sample_issues !! j = Some l ->
                 heap sample_issues !! l = Some (Obj true d) ->
                 issues (state_after (close_issue 999) sample_issues) !! j = Some l).
Proof.
  assert (unknown_number sample_issues 999) as H.
  { unfold unknown_number. change (ids sample_issues) with [@inr exn Z 1; inr 2; inr 3; inr 4] at 1.
    repeat (constructor; [eexists; split; [reflexivity|lia]|]). constructor. }
  split; [wf_eval|]. split; [exact H|].
  apply (close_issue_unknown sample_issues 999); [wf_eval|exact H].
Defined.

(** ** [list_open_issues] *)

(** One round of the loop of [list_open_issues]. *)
Lemma list_open_step (entries acc : list loc) (s : store) (issue : loc) (o : obj) :
  heap s !! issue = Some o ->
  list_open_loop (issue :: entries) acc s =
    if _is_open (fields o) then
      match _issue_identifier (fields o) with
      | inl e =>
          if decide (e = KeyError)
          then list_open_loop entries (acc ++ [length (heap s)])
                 (Store (heap s ++ [Obj true (with_number (fields o))]) (issues s))
          else (Store (heap s ++ [Obj true (fields o)]) (issues s), inl e)
      | inr _ =>
          list_open_loop entries (acc ++ [length (heap s)])
            (Store (heap s ++ [Obj true (with_number (fields o))]) (issues s))
      end
    else list_open_loop entries acc s.
Proof.
  intros Hl. simpl. unfold bind at 1, deref. rewrite Hl.
  destruct (_is_open (fields o)); [|done].
  unfold bind at 1, new_dict. unfold bind at 1, try_except, bind at 1, deref; simpl.
  rewrite lookup_app_r by lia. rewrite Nat.sub_diag; simpl.
  unfold with_number.
  destruct (_issue_identifier (fields o)) as [e|z] eqn:E; unfold raise.
  - destruct (decide (e = KeyError)); [|done]. done.
  - erewrite mutate_run; simpl.
    2:{ rewrite lookup_app_r by lia. by rewrite Nat.sub_diag. }
    rewrite insert_app_r_alt by lia. by rewrite Nat.sub_diag.
Qed.

Lemma list_open_step_invalid (entries acc : list loc) (s : store) (issue : loc) :
  heap s !! issue = None ->
  list_open_loop (issue :: entries) acc s = (s, inl InvalidRef).
Proof. intros Hl. simpl. unfold bind at 1, deref. by rewrite Hl. Qed.

(** The loop never writes to the collection or to an object that existed
    before the call. *)
Lemma list_open_loop_frame (entries : list loc) : forall (acc : list loc) (s : store),
  issues (fst (list_open_loop entries acc s)) = issues s /\
  exists extra, heap (fst (list_open_loop entries acc s)) = heap s ++ extra.
Proof.
  induction entries as [|issue entries IH]; intros acc s.
  { simpl. split; [done|]. exists []. by rewrite app_nil_r. }
  destruct (heap s !! issue) as [o|] eqn:Hl.
  - rewrite (list_open_step _ _ _ _ o Hl).
    assert (forall acc' d,
      issues (fst (list_open_loop entries acc' (Store (heap s ++ [Obj true d]) (issues s))))
        = issues s /\
      exists extra,
        heap (fst (list_open_loop entries acc' (Store (heap s ++ [Obj true d]) (issues s))))
          = heap s ++ extra) as Hnext.
    { intros acc' d. destruct (IH acc' (Store (heap s ++ [Obj true d]) (issues s)))
        as [H1 [extra H2]]. simpl in *. split; [done|].
      exists ([Obj true d] ++ extra). by rewrite H2, app_assoc. }
    destruct (_is_open (fields o)); [|apply IH].
    destruct (_issue_identifier (fields o)) as [e|z]; [|apply Hnext].
    destruct (decide (e = KeyError)); [apply Hnext|].
    simpl. split; [done|]. by eexists.
  - rewrite (list_open_step_invalid _ _ _ _ Hl). simpl. split; [done|].
    exists []. by rewrite app_nil_r.
Qed.

(** C10.  [list_open_issues] never mutates the input collection: whatever
    the call does (return or raise), the list holds the same references
    as before, and every object that existed before the call has exactly
    the fields it had; so every entry of the collection is the same
    record with the same fields and values. *)
Theorem list_open_issues_frame (s : store) :
  issues (state_after list_open_issues s) = issues s /\
  (forall l o, heap s !! l = Some o ->
               heap (state_after list_open_issues s) !! l = Some o) /\
  (forall j d, record_at s j = Some d ->
               record_at (state_after list_open_issues s) j = Some d).
Proof.
  unfold state_after, list_open_issues.
  destruct (list_open_loop_frame (issues s) [] s) as [H1 [extra H2]].
  assert (forall l o, heap s !! l = Some o ->
            heap (fst (list_open_loop (issues s) [] s)) !! l = Some o) as H3.
  { intros l o Hl. rewrite H2. by apply lookup_app_l_Some. }
  split; [done|]. split; [done|].
  intros j d Hd. apply record_at_Some in Hd as (l & o & Hj & Hl & <-).
  apply record_at_Some. exists l, o. rewrite H1. auto.
Qed.

Lemma dicts_frame (s s' : store) (entries : list loc) :
  Forall (fun l => (l < length (heap s))%nat) entries ->
  (forall l, (l < length (heap s))%nat -> heap s' !! l = heap s !! l) ->
  dicts s' entries = dicts s entries.
Proof.
  intros Hvalid Hframe. unfold dicts. apply Forall_fmap_ext_1.
  eapply Forall_impl; [exact Hvalid|]. simpl. intros l Hl.
  unfold fields_at. by rewrite Hframe.
Qed.

Lemma records_frame (s s' : store) :
  wf s -> issues s' = issues s ->
  (forall l, (l < length (heap s))%nat -> heap s' !! l = heap s !! l) ->
  records s' = records s.
Proof.
  intros Hwf Hi Hframe. unfold records. rewrite Hi.
  by apply (dicts_frame s s' (issues s)).
Qed.

Lemma list_open_loop_run (entries : list loc) : forall (acc : list loc) (s : store),
  Forall (fun l => (l < length (heap s))%nat) entries ->
  Forall (fun d => _is_open d = true ->
                   forall e, _issue_identifier d = inl e -> e = KeyError)
         (dicts s entries) ->
  list_open_loop entries acc s =
    (Store (heap s ++ (Obj true <$> (with_number <$> List.filter _is_open (dicts s entries))))
           (issues s),
     inr (acc ++ seq (length (heap s))
                     (length (List.filter _is_open (dicts s entries))))).
Proof.
  induction entries as [|issue entries IH]; intros acc s Hvalid Hok.
  { simpl. unfold ret. by rewrite !app_nil_r, store_eta. }
  apply Forall_cons in Hvalid as [Hissue Hvalid].
  destruct (lookup_lt_is_Some_2 _ _ Hissue) as [o Hl].
  assert (dicts s (issue :: entries) = fields o :: dicts s entries) as Hd.
  { unfold dicts at 1. simpl. unfold fields_at at 1. by rewrite Hl. }
  rewrite Hd in *. apply Forall_cons in Hok as [Ho Hok].
  rewrite (list_open_step _ _ _ _ o Hl). simpl.
  destruct (_is_open (fields o)) eqn:Hopen; [|by apply IH].
  set (s1 := Store (heap s ++ [Obj true (with_number (fields o))]) (issues s)).
  assert (list_open_loop entries (acc ++ [length (heap s)]) s1 =
    (Store (heap s ++ (Obj true <$> (with_number <$>
                         (fields o :: List.filter _is_open (dicts s entries)))))
           (issues s),
     inr (acc ++ seq (length (heap s))
                     (length (fields o :: List.filter _is_open (dicts s entries)))))) as Hnext.
  { assert (dicts s1 entries = dicts s entries) as Hd1.
    { apply dicts_frame; [done|]. intros l Hlt. simpl. by rewrite lookup_app_l. }
    rewrite IH.
    - rewrite Hd1. simpl. rewrite length_app; simpl.
      rewrite <- !app_assoc. simpl. by rewrite Nat.add_1_r.
    - simpl. rewrite length_app; simpl.
      eapply Forall_impl; [exact Hvalid|]. simpl; intros; lia.
    - by rewrite Hd1. }
  destruct (_issue_identifier (fields o)) as [e|z] eqn:E; [|exact Hnext].
  rewrite (Ho eq_refl e eq_refl) in *. rewrite decide_True by done. exact Hnext.
Qed.

(** When the loop returns, no open record made [int] fail. *)
Lemma list_open_loop_returns (entries : list loc) : forall (acc : list loc) (s : store) r,
  Forall (fun l => (l < length (heap s))%nat) entries ->
  snd (list_open_loop entries acc s) = inr r ->
  Forall (fun d => _is_open d = true ->
                   forall e, _issue_identifier d = inl e -> e = KeyError)
         (dicts s entries).
Proof.
  induction entries as [|issue entries IH]; intros acc s r Hvalid Hret.
  { apply Forall_nil_2. }
  apply Forall_cons in Hvalid as [Hissue Hvalid].
  destruct (lookup_lt_is_Some_2 _ _ Hissue) as [o Hl].
  assert (dicts s (issue :: entries) = fields o :: dicts s entries) as ->.
  { unfold dicts at 1. simpl. unfold fields_at at 1. by rewrite Hl. }
  rewrite (list_open_step _ _ _ _ o Hl) in Hret.
  assert (forall acc' d r',
    snd (list_open_loop entries acc' (Store (heap s ++ [Obj true d]) (issues s))) = inr r' ->
    Forall (fun d => _is_open d = true ->
                     forall e, _issue_identifier d = inl e -> e = KeyError)
           (dicts s entries)) as Hnext.
  { intros acc' d r' Hr'.
    rewrite <- (dicts_frame s (Store (heap s ++ [Obj true d]) (issues s))).
    - eapply IH; [|exact Hr']. simpl. rewrite length_app; simpl.
      eapply Forall_impl; [exact Hvalid|]. simpl; intros; lia.
    - done.
    - intros l Hlt. simpl. by rewrite lookup_app_l. }
  destruct (_is_open (fields o)) eqn:Hopen.
  2:{ apply Forall_cons. split; [intros ?; congruence|]. by eapply IH. }
  destruct (_issue_identifier (fields o)) as [e|z] eqn:E.
  - destruct (decide (e = KeyError)) as [->|]; [|done].
    apply Forall_cons. split; [intros _ e' ?; congruence|]. by eapply Hnext.
  - apply Forall_cons. split; [intros _ e' ?; congruence|]. by eapply Hnext.
Qed.

Lemma list_open_issues_returns (s : store) (r : list loc) :
  wf s -> snd (list_open_issues s) = inr r -> listable s.
Proof. intros Hwf Hret. by apply (list_open_loop_returns (issues s) [] s r). Qed.

Lemma list_open_issues_run (s : store) :
  wf s -> listable s ->
  list_open_issues s =
    (Store (heap s ++ (Obj true <$> (with_number <$> open_records s))) (issues s),
     inr (seq (length (heap s)) (length (open_records s)))).
Proof.
  intros Hwf Hok. unfold list_open_issues.
  by rewrite (list_open_loop_run (issues s) [] s).
Qed.

(** ** C5: what [list_open_issues] returns

    The claim (C5) says that an identifier that cannot be resolved is
    silently skipped, for every collection.  Only a missing identifier
    is: [list_open_issues] catches [KeyError] and nothing else, so an
    open record whose identifier field is present but is not an integer
    makes the call raise the error of [int]. *)
Lemma list_open_issues_raises :
  wf unnumbered_issue /\
  open_records unnumbered_issue = records unnumbered_issue /\
  _issue_identifier {[ "id" := VStr "abc"; "state" := VStr "open" ]} = inl ValueError /\
  snd (list_open_issues unnumbered_issue) = inl ValueError.
Proof. split; [wf_eval|]. repeat split; reflexivity. Qed.

(** C5, amended.  When the identifier of every open record is absent or
    coerces to an integer, [list_open_issues] returns, in the order of the
    collection, one new object for every open record and for none
    else.  The fields of each copy are those of its record, with the
    resolved identifier written into [number] when the record has an
    identifier and no [number] yet; a record without identifier is copied
    as it is.  The copies are distinct mutable objects that are not
    entries of the collection, the call leaves the collection and its
    records as they were, and a write to a returned copy leaves them so
    too. *)
Theorem list_open_issues_copies (s : store) :
  wf s -> listable s ->
  exists copies, snd (list_open_issues s) = inr copies /\
    let s' := state_after list_open_issues s in
    fields_at s' <$> copies = Some <$> (with_number <$> open_records s) /\
    issues s' = issues s /\ records s' = records s /\
    NoDup copies /\
    (forall l, l ∈ copies -> l ∉ issues s) /\
    (forall l f, l ∈ copies ->
       snd (mutate l f s') = inr tt /\
       issues (state_after (mutate l f) s') = issues s /\
       records (state_after (mutate l f) s') = records s).
Proof.
  intros Hwf Hok. unfold state_after. rewrite (list_open_issues_run s Hwf Hok).
  set (opens := open_records s). set (h := heap s).
  exists (seq (length h) (length opens)). simpl. split; [done|].
  assert (forall l, l ∈ seq (length h) (length opens) -> l ∉ issues s) as Hfresh.
  { intros l Hl Hin. apply elem_of_seq in Hl.
    apply list_elem_of_lookup in Hin as [j Hj]. apply (wf_lt s j l Hwf) in Hj.
    subst h. lia. }
  assert (forall l, l ∈ seq (length h) (length opens) ->
            exists d, (h ++ (Obj true <$> (with_number <$> opens))) !! l = Some (Obj true d))
    as Hmut.
  { intros l Hl. apply elem_of_seq in Hl.
    rewrite lookup_app_r by lia. rewrite list_lookup_fmap.
    destruct (lookup_lt_is_Some_2 (with_number <$> opens) (l - length h)) as [d Hd].
    - rewrite length_fmap. lia.
    - rewrite Hd. by exists d. }
  split.
  { apply list_eq. intros k. rewrite !list_lookup_fmap.
    destruct (decide (k < length opens)%nat) as [Hk|Hk].
    - rewrite lookup_seq_lt by done. simpl. unfold fields_at; simpl.
      rewrite lookup_app_r by lia.
      replace (length h + k - length h)%nat with k by lia.
      rewrite !list_lookup_fmap.
      destruct (lookup_lt_is_Some_2 opens k Hk) as [d Hd]. by rewrite Hd.
    - rewrite lookup_seq_ge by lia. rewrite lookup_ge_None_2; [done|]. lia. }
  split; [done|]. split.
  { apply records_frame; [done..|]. intros l Hl. simpl. by rewrite lookup_app_l. }
  split; [apply NoDup_seq|]. split; [exact Hfresh|].
  intros l f Hl. destruct (Hmut l Hl) as [d Hd].
  rewrite (mutate_run _ l d) by done. simpl. split; [done|]. split; [done|].
  apply records_frame; [done..|]. intros l' Hl'. simpl.
  apply elem_of_seq in Hl. rewrite list_lookup_insert_ne by (subst h; lia).
  by rewrite lookup_app_l.
Qed.

Lemma listable_sample : listable sample_issues.
Proof.
  unfold listable. apply Forall_forall. intros d Hd Hopen e He.
  apply list_elem_of_In in Hd. simpl in Hd.
  destruct Hd as [<-|[<-|[<-|[<-|[]]]]]; discriminate He.
Qed.

Lemma list_open_issues_copies_witness :
  wf sample_issues /\ listable sample_issues /\
  exists copies, snd (list_open_issues sample_issues) = inr copies /\
    let s' := state_after list_open_issues sample_issues in
    fields_at s' <$> copies = Some <$> (with_number <$> open_records sample_issues) /\
    issues s' = issues sample_issues /\ records s' = records sample_issues /\
    NoDup copies /\
    (forall l, l ∈ copies -> l ∉ issues sample_issues) /\
    (forall l f, l ∈ copies ->
       snd (mutate l f s') = inr tt /\
       issues (state_after (mutate l f) s') = issues sample_issues /\
       records (state_after (mutate l f) s') = records sample_issues).
Proof.
  split; [wf_eval|]. split; [exact listable_sample|].
  apply (list_open_issues_copies sample_issues); [wf_eval|exact listable_sample].
Defined.

(** ** What scans, closings and completions leave in place *)

Lemma grows_refl (d : dict) : grows d d.
Proof. by split. Qed.

Lemma grows_trans (d1 d2 d3 : dict) : grows d1 d2 -> grows d2 d3 -> grows d1 d3.
Proof. intros [H1 H2] [H3 H4]. split; auto. Qed.

Lemma consistent_agree (d d' : dict) :
  (forall k, k ∈ ["state"; "status"; "closed"] -> d' !! k = d !! k) ->
  consistent d -> consistent d'.
Proof.
  intros H (st & H1 & H2 & H3). exists st.
  rewrite !H; [done|apply list_elem_of_In; simpl; auto..].
Qed.

Lemma grows_with_number (d : dict) : grows d (with_number d).
Proof.
  split.
  - intros H. by rewrite with_number_present.
  - intros [H1 H2]. split.
    + by rewrite with_number_lookup_ne.
    + eapply consistent_agree; [|exact H2].
      intros k Hk. apply with_number_lookup_ne. intros ->. not_listed Hk.
Qed.

Lemma grows_closed_fields (d : dict) : grows d (closed_fields d).
Proof.
  split.
  - intros H. unfold closed_fields, set_state_fields. by rewrite !lookup_insert_ne.
  - intros _. split; [apply closed_fields_state|apply consistent_closed_fields].
Qed.

Lemma grows_completed_fields (d : dict) : grows d (completed_fields d).
Proof.
  split.
  - intros H. unfold completed_fields, closed_fields, set_state_fields.
    by rewrite !lookup_insert_ne.
  - intros _. split; [|apply consistent_completed_fields].
    unfold completed_fields. rewrite lookup_insert_ne by done.
    apply closed_fields_state.
Qed.

Lemma closed_state_closed_fields (d : dict) : closed_state (closed_fields d).
Proof. split; [apply closed_fields_state|apply consistent_closed_fields]. Qed.

Lemma closed_state_completed_fields (d : dict) : closed_state (completed_fields d).
Proof.
  split; [|apply consistent_completed_fields].
  unfold completed_fields. rewrite lookup_insert_ne by done. apply closed_fields_state.
Qed.

Lemma evolve_refl (s : store) : wf s -> evolve s s.
Proof. intros Hwf. split; eauto using grows_refl. Qed.

Lemma evolve_trans (s1 s2 s3 : store) : evolve s1 s2 -> evolve s2 s3 -> evolve s1 s3.
Proof.
  intros H12 H23. split.
  - apply H23.
  - rewrite (evolve_length _ _ H23). apply H12.
  - rewrite (evolve_ids _ _ H23). apply H12.
  - intros j l d Hj Hl.
    pose proof (evolve_entry _ _ H12 j l d Hj Hl) as Hj2.
    destruct (evolve_obj _ _ H12 l d Hl) as (d2 & Hl2 & _).
    by apply (evolve_entry _ _ H23 j l d2).
  - intros l d Hl.
    destruct (evolve_obj _ _ H12 l d Hl) as (d2 & Hl2 & Hg2).
    destruct (evolve_obj _ _ H23 l d2 Hl2) as (d3 & Hl3 & Hg3).
    exists d3. split; [done|by eapply grows_trans].
Qed.

Lemma evolve_settled (s s' : store) (j : nat) :
  evolve s s' -> settled s j -> settled s' j.
Proof.
  intros H (l & d & Hj & Hl & Hn).
  destruct (evolve_obj _ _ H l d Hl) as (d' & Hl' & Hg & _).
  exists l, d'. split; [by apply (evolve_entry _ _ H j l d)|]. split; [done|auto].
Qed.

Lemma touch_evolve (s : store) (i : nat) : wf s -> evolve s (touch s i).
Proof.
  intros Hwf. pose proof (touch_ext s i Hwf) as Hext.
  split; [apply Hext|apply Hext|by apply ext_ids|apply Hext|].
  intros l' d Hl'.
  destruct (issues s !! i) as [l|] eqn:Hi;
    [|unfold touch; rewrite Hi; eauto using grows_refl].
  destruct (wf_lookup s i l Hwf Hi) as [o Hl].
  destruct (decide (l' = l)) as [->|Hne].
  - assert (o = Obj true d) as -> by congruence.
    pose proof (touch_heap_at s i l _ Hi Hl) as H. unfold touched_loc in H.
    simpl in H. eauto using grows_with_number.
  - rewrite (touch_heap_other s i l o) by (done || by eapply lookup_lt_Some).
    eauto using grows_refl.
Qed.

Lemma touch_range_evolve (s : store) (k c : nat) : wf s -> evolve s (touch_range s k c).
Proof.
  revert s k. induction c as [|c IH]; intros s k Hwf; [by apply evolve_refl|].
  rewrite touch_range_S. eapply evolve_trans; [by apply touch_evolve|].
  apply IH. by apply touch_evolve.
Qed.

Lemma update_at_evolve (s : store) (j : nat) (l : loc) (d : dict) (f : dict -> dict) :
  wf s -> issues s !! j = Some l -> heap s !! l = Some (Obj true d) ->
  (forall d, _issue_identifier (f d) = _issue_identifier d) ->
  (forall d, grows d (f d)) ->
  evolve s (update_at s j f).
Proof.
  intros Hwf Hj Hl Hid Hg. split.
  - by eapply update_at_wf.
  - by erewrite update_at_issues.
  - by eapply update_at_ids.
  - intros m l' d' Hm _. by erewrite update_at_issues.
  - intros l' d' Hl'. destruct (decide (l' = l)) as [->|Hne].
    + assert (d' = d) as -> by congruence.
      rewrite (update_at_heap_at s j l _ f Hj Hl). eauto.
    + rewrite (update_at_heap_other s j l _ f Hj Hl) by done.
      eauto using grows_refl.
Qed.

Lemma close_evolve (s : store) (n : Z) :
  wf s -> (exists j, lookup_number (ids s) n = inr j)
          \/ lookup_number (ids s) n = inl IssueNotFoundError ->
  evolve s (state_after (close_issue n) s) /\
  evolve s (state_after (complete_issue n) s).
Proof.
  intros Hwf [[j Hn]|Hn].
  - destruct (found_settled s n j Hwf Hn) as (l & d & Hj & Hl & _ & _).
    destruct (close_run s n j Hwf Hn) as (l1 & _ & Hclose).
    destruct (complete_run s n j Hwf Hn) as (l2 & _ & Hcomplete).
    unfold state_after. rewrite Hclose, Hcomplete. simpl.
    assert (He : evolve s (touch_range s 0 (S j))) by by apply touch_range_evolve.
    split; (eapply evolve_trans; [exact He|]);
      eapply update_at_evolve; eauto using evolve_wf.
    + intros d0. apply identifier_set_state.
    + apply grows_closed_fields.
    + apply identifier_completed.
    + apply grows_completed_fields.
  - pose proof (find_run n s Hwf) as Hfind. rewrite Hn in Hfind.
    unfold state_after, complete_issue, close_issue.
    rewrite (bind_inl _ _ _ _ _ (bind_inl _ _ _ _ _ Hfind)).
    rewrite (bind_inl _ _ _ _ _ Hfind). simpl.
    split; by apply touch_range_evolve.
Qed.

(** ** [close_implemented_issues] *)

Lemma close_implemented_step_ok (n : Z) (ns : list Z) (acc : list loc) (s s2 : store) l :
  close_issue n s = (s2, inr l) ->
  close_implemented_loop (n :: ns) acc s = close_implemented_loop ns (acc ++ [l]) s2.
Proof.
  intros H. simpl. unfold bind at 1, try_except, bind at 1. by rewrite H.
Qed.

Lemma close_implemented_step_skip (n : Z) (ns : list Z) (acc : list loc) (s : store) :
  snd (close_issue n s) = inl IssueNotFoundError ->
  close_implemented_loop (n :: ns) acc s
  = close_implemented_loop ns acc (state_after (close_issue n) s).
Proof.
  intros H. simpl. unfold bind at 1, try_except, bind at 1, state_after.
  destruct (close_issue n s) as [s1 r]. simpl in H. subst r. done.
Qed.

Lemma close_implemented_step_raise (n : Z) (ns : list Z) (acc : list loc) (s : store) e :
  snd (close_issue n s) = inl e -> e ≠ IssueNotFoundError ->
  snd (close_implemented_loop (n :: ns) acc s) = inl e.
Proof.
  intros H He. simpl. unfold bind at 1, try_except, bind at 1.
  destruct (close_issue n s) as [s1 r]. simpl in H. subst r.
  by rewrite decide_False.
Qed.

Lemma found_entries_ids (s1 s2 s' : store) (ns : list Z) :
  ids s2 = ids s1 -> found_entries s2 s' ns = found_entries s1 s' ns.
Proof. intros H. unfold found_entries. by rewrite H. Qed.

Lemma found_entries_found (s s' : store) (n : Z) (ns : list Z) (j : nat) (l : loc) :
  lookup_number (ids s) n = inr j -> issues s' !! j = Some l ->
  found_entries s s' (n :: ns) = l :: found_entries s s' ns.
Proof. intros Hn Hj. unfold found_entries. simpl. by rewrite Hn, Hj. Qed.

Lemma found_entries_skip (s s' : store) (n : Z) (ns : list Z) (e : exn) :
  lookup_number (ids s) n = inl e ->
  found_entries s s' (n :: ns) = found_entries s s' ns.
Proof. intros Hn. unfold found_entries. simpl. by rewrite Hn. Qed.

Lemma close_implemented_loop_run (ns : list Z) : forall (acc : list loc) (s : store),
  wf s -> scannable s ns ->
  exists s', close_implemented_loop ns acc s = (s', inr (acc ++ found_entries s s' ns)) /\
             evolve s s' /\
             forall l, l ∈ found_entries s s' ns ->
                       exists d, heap s' !! l = Some (Obj true d) /\ closed_state d.
Proof.
  induction ns as [|n ns IH]; intros acc s Hwf Hscan.
  { exists s. simpl. unfold ret. rewrite app_nil_r. split; [done|].
    split; [by apply evolve_refl|]. intros l Hl. by apply elem_of_nil in Hl. }
  apply Forall_cons in Hscan as [Hn Hscan].
  destruct (close_evolve s n Hwf Hn) as [Hev _].
  assert (Hscan' : scannable (state_after (close_issue n) s) ns)
    by (unfold scannable; by rewrite (evolve_ids _ _ Hev)).
  destruct Hn as [[j Hn]|Hn].
  - destruct (found_settled s n j Hwf Hn) as (l & d & Hj & Hl & _ & _).
    destruct (close_run s n j Hwf Hn) as (l1 & Hj1 & Hclose).
    simpl in Hj, Hl, Hj1, Hclose.
    assert (l1 = l) as -> by congruence.
    unfold state_after in Hev, Hscan'. rewrite Hclose in Hev, Hscan'.
    simpl in Hev, Hscan'.
    set (s2 := update_at (touch_range s 0 (S j)) j closed_fields) in *.
    rewrite (close_implemented_step_ok n ns acc s s2 l Hclose).
    destruct (IH (acc ++ [l]) s2 (evolve_wf _ _ Hev) Hscan') as (s' & Hrun & Hev' & Hcl).
    rewrite (found_entries_ids s s2) in Hrun, Hcl by apply Hev.
    assert (heap s2 !! l = Some (Obj true (closed_fields d))) as Hl2
      by apply (update_at_heap_at _ j l _ _ Hj Hl).
    assert (issues s' !! j = Some l) as Hj'.
    { apply (evolve_entry _ _ Hev' j l (closed_fields d)); [|done].
      unfold s2. by rewrite (update_at_issues _ j l _ _ Hj Hl). }
    exists s'. rewrite (found_entries_found s s' n ns j l Hn Hj').
    split; [by rewrite Hrun, <- app_assoc|]. split; [by eapply evolve_trans|].
    intros l' Hl'. apply elem_of_cons in Hl' as [->|Hl']; [|by apply Hcl].
    destruct (evolve_obj _ _ Hev' l _ Hl2) as (d' & Hd' & _ & Hg).
    exists d'. split; [done|]. apply Hg.
    split; [apply closed_fields_state|apply consistent_closed_fields].
  - destruct (close_fails s n _ Hwf Hn) as (Hfail & _ & _).
    rewrite (close_implemented_step_skip n ns acc s Hfail).
    destruct (IH acc _ (evolve_wf _ _ Hev) Hscan') as (s' & Hrun & Hev' & Hcl).
    rewrite (found_entries_ids s (state_after (close_issue n) s)) in Hrun, Hcl
      by apply Hev.
    exists s'. rewrite (found_entries_skip s s' n ns _ Hn).
    split; [done|]. split; [by eapply evolve_trans|done].
Qed.

(** ** C6: what [close_implemented_issues] returns

    The claim (C6) holds for every collection only when "no record is
    found" means that the scan ended with the not-found condition.
    [close_implemented_issues] catches [IssueNotFoundError] and nothing
    else: when the scan for an unknown number reaches a record without
    identifier, or with an identifier that is not an integer, the error
    of that record leaves the call.  In both collections below 1 matches
    the first record, 5 matches none, and the call raises. *)
Lemma close_implemented_issues_raises :
  wf anonymous_issue /\
  lookup_number (ids anonymous_issue) 1 = inr 0%nat /\
  (forall d, d ∈ records anonymous_issue -> _issue_identifier d ≠ inr 5) /\
  snd (close_implemented_issues [1; 5] anonymous_issue) = inl KeyError /\
  wf unnumbered_second /\
  lookup_number (ids unnumbered_second) 1 = inr 0%nat /\
  (forall d, d ∈ records unnumbered_second -> _issue_identifier d ≠ inr 5) /\
  snd (close_implemented_issues [1; 5] unnumbered_second) = inl ValueError.
Proof.
  split; [wf_eval|]. split; [reflexivity|]. split.
  { intros d Hd. apply list_elem_of_In in Hd. simpl in Hd.
    destruct Hd as [<-|[<-|[]]]; discriminate. }
  split; [reflexivity|].
  split; [wf_eval|]. split; [reflexivity|]. split; [|reflexivity].
  intros d Hd. apply list_elem_of_In in Hd. simpl in Hd.
  destruct Hd as [<-|[<-|[]]]; discriminate.
Qed.

(** C6, amended.  When the scan for every number of the input ends by
    finding a record or by not finding one (it meets no record whose
    identifier is missing or is not an integer), [close_implemented_issues]
    does not raise.  It returns, in the order of the input, the object
    stored at the index where each number was found and nothing for a
    number that was not found; every returned record is closed after the
    call.  In particular, for the input [[known; unknown]] with [known]
    found at index [j] and [unknown] not found, the result is the one
    object at index [j]. *)
Theorem close_implemented_issues_closed (s : store) (ns : list Z) :
  wf s -> scannable s ns ->
  exists closed, snd (close_implemented_issues ns s) = inr closed /\
    let s' := state_after (close_implemented_issues ns) s in
    closed = found_entries s s' ns /\
    (forall l, l ∈ closed -> exists d, fields_at s' l = Some d /\ closed_state d) /\
    (forall known unknown j,
       ns = [known; unknown] ->
       lookup_number (ids s) known = inr j ->
       lookup_number (ids s) unknown = inl IssueNotFoundError ->
       exists l, closed = [l] /\ issues s' !! j = Some l).
Proof.
  intros Hwf Hscan.
  destruct (close_implemented_loop_run ns [] s Hwf Hscan) as (s' & Hrun & Hev & Hcl).
  unfold close_implemented_issues, state_after. rewrite Hrun. simpl.
  exists (found_entries s s' ns). split; [done|]. split; [done|]. split.
  - intros l Hl. destruct (Hcl l Hl) as (d & Hd & Hc). exists d.
    unfold fields_at. by rewrite Hd.
  - intros known unknown j -> Hk Hu.
    destruct (lookup_lt_is_Some_2 (issues s') j) as [l Hl].
    { rewrite (evolve_length _ _ Hev), <- length_ids.
      destruct (lookup_number_inr _ _ _ Hk) as [Hj _]. by eapply lookup_lt_Some. }
    exists l. split; [|done].
    rewrite (found_entries_found s s' known [unknown] j l Hk Hl).
    by rewrite (found_entries_skip s s' unknown [] _ Hu).
Qed.

Lemma close_implemented_issues_closed_witness :
  wf sample_issues /\ scannable sample_issues [2; 999] /\
  exists closed, snd (close_implemented_issues [2; 999] sample_issues) = inr closed /\
    let s' := state_after (close_implemented_issues [2; 999]) sample_issues in
    closed = found_entries sample_issues s' [2; 999] /\
    (forall l, l ∈ closed -> exists d, fields_at s' l = Some d /\ closed_state d) /\
    (forall known unknown j,
       [2; 999] = [known; unknown] ->
       lookup_number (ids sample_issues) known = inr j ->
       lookup_number (ids sample_issues) unknown = inl IssueNotFoundError ->
       exists l, closed = [l] /\ issues s' !! j = Some l).
Proof.
  assert (scannable sample_issues [2; 999]) as H.
  { unfold scannable. apply Forall_cons. split; [left; by exists 1%nat|].
    apply Forall_cons. split; [by right|]. apply Forall_nil_2. }
  split; [wf_eval|]. split; [exact H|].
  apply (close_implemented_issues_closed sample_issues [2; 999]); [wf_eval|exact H].
Defined.

(** ** The loop of [complete_open_issues] *)

Lemma lookup_number_exists (l : list (result Z)) : forall (k : nat) (z : Z),
  l !! k = Some (inr z) ->
  (forall m, (m < k)%nat -> exists z', l !! m = Some (inr z')) ->
  exists f, (f <= k)%nat /\ lookup_number l z = inr f.
Proof.
  induction l as [|x l IH]; intros k z Hk Hlt; [done|].
  destruct k as [|k]; simpl in *.
  - injection Hk as ->. exists 0%nat. by rewrite Z.eqb_refl.
  - destruct (Hlt 0%nat) as (z' & [= ->]); [lia|].
    destruct (z' =? z)%Z; [exists 0%nat; split; [lia|done]|].
    destruct (IH k z Hk) as (f & Hf & ->).
    + intros m Hm. apply (Hlt (S m)). lia.
    + exists (S f). split; [lia|done].
Qed.

(** One round of the loop, at an index before which every entry is
    settled and resolves. *)
Lemma complete_open_step (k : nat) (rest : list nat) (targets : option (gset Z))
    (acc : list loc) (s : store) (l : loc) (o : obj) :
  wf s -> issues s !! k = Some l -> heap s !! l = Some o ->
  (forall m, (m < k)%nat -> settled s m) ->
  (forall m, (m < k)%nat -> exists z, ids s !! m = Some (inr z)) ->
  match _issue_identifier (fields o) with
  | inl e => snd (complete_open_loop (k :: rest) targets acc s) = inl e
  | inr z =>
      if match targets with
         | Some t => bool_decide (z ∉ t)
         | None => false
         end
      then complete_open_loop (k :: rest) targets acc s
           = complete_open_loop rest targets acc (touch s k)
      else if _is_open (fields o)
      then exists f lf,
             lookup_number (ids s) z = inr f /\ (f <= k)%nat /\
             issues (touch s k) !! f = Some lf /\
             complete_open_loop (k :: rest) targets acc s
             = complete_open_loop rest targets (acc ++ [lf])
                 (update_at (touch s k) f completed_fields)
      else complete_open_loop (k :: rest) targets acc s
           = complete_open_loop rest targets acc (touch s k)
  end.
Proof.
  intros Hwf Hk Hl Hset Hres. simpl.
  rewrite (visit_run _ s k l o Hk Hl).
  destruct (_issue_identifier (fields o)) as [e|z] eqn:Ez; [done|].
  destruct (match targets with Some t => bool_decide (z ∉ t) | None => false end);
    [done|].
  pose proof (touch_heap_at s k l o Hk Hl) as Hat.
  destruct (_is_open (fields o)) eqn:Hopen.
  2:{ unfold bind at 1, deref. rewrite Hat. simpl.
      by rewrite is_open_with_number, Hopen. }
  assert (Hev : evolve s (touch s k)) by by apply touch_evolve.
  assert (ids s !! k = Some (inr z)) as Hidk.
  { rewrite ids_lookup by done.
    assert (record_at s k = Some (fields o)) as -> by (apply record_at_Some; eauto).
    simpl. by rewrite Ez. }
  destruct (lookup_number_exists (ids s) k z Hidk Hres) as (f & Hf & Hlook).
  assert (lookup_number (ids (touch s k)) z = inr f) as Hlook'
    by by rewrite (evolve_ids _ _ Hev).
  destruct (complete_run (touch s k) z f (evolve_wf _ _ Hev) Hlook')
    as (lf & Hlf & Hrun).
  rewrite touch_range_settled_id in Hlf, Hrun.
  2,3: intros m Hm; destruct (decide (m = k)) as [->|];
    [by eapply touch_settles|eapply evolve_settled; [exact Hev|apply Hset; lia]].
  exists f, lf. repeat split; try done.
  unfold bind at 1, deref. rewrite Hat. simpl.
  rewrite is_open_with_number, Hopen.
  unfold bind at 1. by rewrite Hrun.
Qed.

Lemma touch_prefix_settled (s : store) (k : nat) (l : loc) (o : obj) z :
  wf s -> issues s !! k = Some l -> heap s !! l = Some o ->
  _issue_identifier (fields o) = inr z ->
  (forall m, (m < k)%nat -> settled s m) ->
  forall m, (m < S k)%nat -> settled (touch s k) m.
Proof.
  intros Hwf Hk Hl Hz Hset m Hm. destruct (decide (m = k)) as [->|].
  - by eapply touch_settles.
  - eapply evolve_settled; [by apply touch_evolve|apply Hset; lia].
Qed.

Lemma update_completed_evolve (s : store) (f : nat) :
  wf s -> settled s f -> evolve s (update_at s f completed_fields).
Proof.
  intros Hwf (l & d & Hf & Hl & _).
  eapply update_at_evolve; eauto using identifier_completed, grows_completed_fields.
Qed.

Lemma identifier_missing (d : dict) :
  no_identifier d -> _issue_identifier d = inl KeyError.
Proof.
  intros H. unfold _issue_identifier. unfold no_identifier in H.
  revert H. generalize identifier_keys as keys.
  induction keys as [|k keys IH]; intros H; simpl; [done|].
  unfold contains. rewrite H by apply list_elem_of_here.
  rewrite bool_decide_eq_false_2 by by intros [? ?].
  apply IH. intros k' Hk'. apply H. by apply list_elem_of_further.
Qed.

Lemma with_number_missing (d : dict) : no_identifier d -> with_number d = d.
Proof. intros H. unfold with_number. by rewrite identifier_missing. Qed.

(** The scan stops at the first record that does not resolve, unless it
    found the number before. *)
Lemma lookup_number_prefix (l : list (result Z)) : forall (i : nat) (e : exn) (n : Z),
  l !! i = Some (inl e) ->
  (forall m, (m < i)%nat -> exists z, l !! m = Some (inr z)) ->
  (exists j, (j < i)%nat /\ lookup_number l n = inr j)
  \/ ((forall m, (m < i)%nat -> l !! m ≠ Some (inr n)) /\ lookup_number l n = inl e).
Proof.
  induction l as [|x l IH]; intros i e n Hi Hlt; [done|].
  destruct i as [|i]; simpl in *.
  - injection Hi as ->. right. split; [intros; lia|done].
  - destruct (Hlt 0%nat) as (z & [= ->]); [lia|].
    destruct (z =? n)%Z eqn:E; [left; exists 0%nat; split; [lia|done]|].
    destruct (IH i e n Hi) as [(j & Hj & ->)|[Hne ->]].
    + intros m Hm. apply (Hlt (S m)). lia.
    + left. exists (S j). split; [lia|done].
    + right. split; [|done]. intros [|m] Hm; simpl.
      * apply Z.eqb_neq in E. congruence.
      * apply Hne. lia.
Qed.

Lemma close_implemented_loop_raises (i : nat) (e : exn) (ns : list Z) :
  forall (acc : list loc) (s : store),
  wf s -> e ≠ IssueNotFoundError -> ids s !! i = Some (inl e) ->
  (forall m, (m < i)%nat -> exists z, ids s !! m = Some (inr z)) ->
  (exists n, n ∈ ns /\ forall m, (m < i)%nat -> ids s !! m ≠ Some (inr n)) ->
  snd (close_implemented_loop ns acc s) = inl e.
Proof.
  induction ns as [|n ns IH]; intros acc s Hwf He Hi Hlt (n' & Hn' & Hne).
  { by apply elem_of_nil in Hn'. }
  destruct (lookup_number_prefix (ids s) i e n Hi Hlt) as [(j & Hj & Hn)|[_ Hn]].
  - destruct (close_run s n j Hwf Hn) as (l & _ & Hclose).
    destruct (close_evolve s n Hwf) as [Hev _]; [left; eauto|].
    unfold state_after in Hev. rewrite Hclose in Hev. simpl in Hev.
    rewrite (close_implemented_step_ok n ns acc s _ l Hclose).
    apply IH; [apply Hev|done|by rewrite (evolve_ids _ _ Hev)|
               by rewrite (evolve_ids _ _ Hev)|].
    exists n'. rewrite (evolve_ids _ _ Hev). split; [|done].
    apply elem_of_cons in Hn' as [->|]; [|done].
    destruct (lookup_number_inr _ _ _ Hn) as [Hjn _]. by destruct (Hne j Hj).
  - destruct (close_fails s n e Hwf Hn) as (Hfail & _ & _).
    by apply close_implemented_step_raise.
Qed.

Lemma complete_open_loop_raises (i : nat) (e : exn) (targets : option (gset Z)) (c : nat) :
  forall (k : nat) (acc : list loc) (s : store),
  wf s -> ids s !! i = Some (inl e) ->
  (forall m, (m < i)%nat -> exists z, ids s !! m = Some (inr z)) ->
  (forall m, (m < k)%nat -> settled s m) ->
  (k <= i < k + c)%nat ->
  snd (complete_open_loop (seq k c) targets acc s) = inl e.
Proof.
  induction c as [|c IH]; intros k acc s Hwf Hi Hlt Hset Hk; [lia|].
  change (seq k (S c)) with (k :: seq (S k) c).
  destruct (lookup_lt_is_Some_2 (issues s) k) as [l Hl].
  { apply lookup_lt_Some in Hi. rewrite length_ids in Hi. lia. }
  destruct (wf_lookup s k l Hwf Hl) as [o Ho].
  assert (ids s !! k = Some (_issue_identifier (fields o))) as Hidk.
  { rewrite ids_lookup by done.
    assert (record_at s k = Some (fields o)) as -> by (apply record_at_Some; eauto).
    done. }
  assert (Hlt' : forall m, (m < k)%nat -> exists z, ids s !! m = Some (inr z))
    by (intros m Hm; apply Hlt; lia).
  pose proof (complete_open_step k (seq (S k) c) targets acc s l o Hwf Hl Ho Hset Hlt')
    as Hstep.
  destruct (decide (k = i)) as [->|Hne].
  { rewrite Hi in Hidk. injection Hidk as Hidk. by rewrite <- Hidk in Hstep. }
  destruct (Hlt k) as [z Hz]; [lia|]. rewrite Hz in Hidk. injection Hidk as Hidk.
  rewrite <- Hidk in Hstep. symmetry in Hidk.
  assert (Hev : evolve s (touch s k)) by by apply touch_evolve.
  assert (Hset1 : forall m, (m < S k)%nat -> settled (touch s k) m)
    by (eapply touch_prefix_settled; eauto).
  assert (Hnext : forall acc',
    snd (complete_open_loop (seq (S k) c) targets acc' (touch s k)) = inl e).
  { intros acc'. apply IH; [apply Hev|by rewrite (evolve_ids _ _ Hev)|
      by rewrite (evolve_ids _ _ Hev)|done|lia]. }
  destruct (match targets with Some t => bool_decide (z ∉ t) | None => false end);
    [by rewrite Hstep|].
  destruct (_is_open (fields o)); [|by rewrite Hstep].
  destruct Hstep as (f & lf & Hf & Hfk & Hlf & ->).
  assert (Hev2 : evolve (touch s k) (update_at (touch s k) f completed_fields)).
  { apply update_completed_evolve; [apply Hev|apply Hset1; lia]. }
  apply IH.
  - apply Hev2.
  - by rewrite (evolve_ids _ _ Hev2), (evolve_ids _ _ Hev).
  - by rewrite (evolve_ids _ _ Hev2), (evolve_ids _ _ Hev).
  - intros m Hm. eapply evolve_settled; [exact Hev2|by apply Hset1].
  - lia.
Qed.

Lemma list_open_loop_no_key_error (entries : list loc) : forall (acc : list loc) (s : store),
  snd (list_open_loop entries acc s) ≠ inl KeyError.
Proof.
  induction entries as [|issue entries IH]; intros acc s; [done|].
  destruct (heap s !! issue) as [o|] eqn:Hl.
  - rewrite (list_open_step _ _ _ _ o Hl).
    destruct (_is_open (fields o)); [|apply IH].
    destruct (_issue_identifier (fields o)) as [e|z]; [|apply IH].
    destruct (decide (e = KeyError)); [apply IH|]. simpl. congruence.
  - by rewrite (list_open_step_invalid _ _ _ _ Hl).
Qed.

(** ** C8: a record without identifier

    The claim (C8) says that [list_open_issues] returns the copy of a
    record without identifier, for every collection that contains one.
    It does not always.  [list_open_issues] tolerates the missing
    identifier of a record, but not an identifier that is not an integer:
    when another open record has one, the call raises [ValueError] and
    returns nothing.  And a record without identifier that is closed is
    not listed, so the result has no copy of it. *)
Lemma list_open_issues_loses_anonymous :
  let d : dict := {[ "title" := VStr "Untracked"; "state" := VStr "open" ]} in
  let d' : dict := {[ "title" := VStr "Untracked"; "state" := VStr "closed" ]} in
  wf anonymous_then_unnumbered /\
  record_at anonymous_then_unnumbered 0 = Some d /\ no_identifier d /\
  resolved_before anonymous_then_unnumbered 0 /\ _is_open d = true /\
  snd (list_open_issues anonymous_then_unnumbered) = inl ValueError /\
  wf closed_anonymous /\
  record_at closed_anonymous 0 = Some d' /\ no_identifier d' /\
  resolved_before closed_anonymous 0 /\ _is_open d' = false /\
  list_open_issues closed_anonymous = (closed_anonymous, inr []).
Proof.
  intros d d'.
  assert (forall x : dict, x = d \/ x = d' -> no_identifier x) as Hno.
  { intros x Hx key Hk. apply list_elem_of_In in Hk. simpl in Hk.
    destruct Hx as [->| ->]; destruct Hk as [<-|[<-|[<-|[<-|[]]]]]; reflexivity. }
  split; [wf_eval|]. split; [reflexivity|]. split; [apply Hno; by left|].
  split; [intros m Hm; lia|]. split; [reflexivity|]. split; [reflexivity|].
  split; [wf_eval|]. split; [reflexivity|]. split; [apply Hno; by right|].
  split; [intros m Hm; lia|]. split; reflexivity.
Qed.

(** C8, amended.  Let the record at index [i] have none of the recognised
    identifier fields, and let every record before it resolve, so that a
    scan can reach it.  Then [_find_issue_index], [close_issue] and
    [complete_issue] raise the missing-identifier error ([KeyError]) for
    every number that no earlier record matches;
    [close_implemented_issues] raises it as soon as one of its numbers is
    matched by no earlier record; [complete_open_issues] raises it with
    or without a restriction.  [list_open_issues] never raises it:
    whenever it returns and the record is open, the result holds the
    copy of this record, at the place of the record among the open ones,
    with the fields of the record and so no [number]; and it returns
    when the identifiers of the open records are absent or integers. *)
Theorem missing_identifier_surfaces (s : store) (i : nat) (d : dict) :
  wf s -> record_at s i = Some d -> no_identifier d -> resolved_before s i ->
  surfaces_missing_identifier s i d.
Proof.
  intros Hwf Hd Hno Hres.
  assert (ids s !! i = Some (inl KeyError)) as Hi.
  { rewrite ids_lookup, Hd by done. simpl. by rewrite identifier_missing. }
  unfold surfaces_missing_identifier. split; [|split; [|split; [|split; [|split]]]].
  - intros n Hn.
    destruct (lookup_number_prefix (ids s) i KeyError n Hi Hres)
      as [(j & Hj & Hlook)|[_ Hlook]].
    + destruct (lookup_number_inr _ _ _ Hlook) as [Hjn _]. by destruct (Hn j Hj).
    + destruct (close_fails s n KeyError Hwf Hlook) as (H1 & H2 & H3). done.
  - intros ns Hns. unfold close_implemented_issues.
    by apply (close_implemented_loop_raises i).
  - intros issue_numbers. unfold complete_open_issues.
    apply (complete_open_loop_raises i); [done..|intros; lia|].
    apply lookup_lt_Some in Hi. rewrite length_ids in Hi. lia.
  - apply list_open_loop_no_key_error.
  - intros copies Hret Hopen.
    assert (Hok : listable s) by by eapply list_open_issues_returns.
    unfold state_after. rewrite (list_open_issues_run s Hwf Hok) in *. simpl in *.
    injection Hret as <-.
    assert (records s !! i = Some d) as Hri by by rewrite records_lookup.
    set (p := length (List.filter _is_open (take i (records s)))).
    assert (open_records s !! p = Some d) as Hp.
    { unfold open_records. rewrite <- (take_drop_middle _ _ _ Hri).
      rewrite List.filter_app. simpl. rewrite Hopen.
      by apply list_lookup_middle. }
    pose proof (lookup_lt_Some _ _ _ Hp) as Hlt.
    exists (length (heap s) + p)%nat. split; [by apply lookup_seq_lt|]. split.
    + unfold fields_at. simpl. rewrite lookup_app_r by lia.
      replace (length (heap s) + p - length (heap s))%nat with p by lia.
      rewrite !list_lookup_fmap, Hp. simpl. by rewrite with_number_missing.
    + apply Hno. apply list_elem_of_here.
  - intros Hok. rewrite (list_open_issues_run s Hwf Hok). by eexists.
Qed.

Lemma missing_identifier_surfaces_witness :
  let d : dict := {[ "title" := VStr "Untracked"; "state" := VStr "open" ]} in
  wf anonymous_issue /\ record_at anonymous_issue 1 = Some d /\
  no_identifier d /\ resolved_before anonymous_issue 1 /\
  surfaces_missing_identifier anonymous_issue 1 d.
Proof.
  intros d.
  assert (no_identifier d) as Hno.
  { intros key Hk. apply list_elem_of_In in Hk. simpl in Hk.
    destruct Hk as [<-|[<-|[<-|[<-|[]]]]]; reflexivity. }
  assert (resolved_before anonymous_issue 1) as Hres.
  { intros m Hm. assert (m = 0%nat) as -> by lia. by exists 1. }
  split; [wf_eval|]. split; [reflexivity|]. split; [exact Hno|]. split; [exact Hres|].
  apply (missing_identifier_surfaces anonymous_issue 1 d);
    [wf_eval|reflexivity|exact Hno|exact Hres].
Defined.

(** ** Collections whose identifiers are pairwise distinct *)

Lemma unique_entry (s : store) (k : nat) (l : loc) :
  wf s -> NoDup (ids s) -> issues s !! k = Some l ->
  forall m, m ≠ k -> issues s !! m ≠ Some l.
Proof.
  intros Hwf Hnd Hk m Hne Hm. apply Hne.
  destruct (wf_lookup s k l Hwf Hk) as [o Ho].
  assert (record_at s k = Some (fields o)) as Hrk by (apply record_at_Some; eauto).
  assert (record_at s m = Some (fields o)) as Hrm by (apply record_at_Some; eauto).
  eapply (NoDup_lookup (ids s)); [done| |];
    rewrite ids_lookup by done; [by rewrite Hrm|by rewrite Hrk].
Qed.

Lemma touch_records (s : store) (k : nat) (l : loc) (o : obj) :
  wf s -> issues s !! k = Some l -> heap s !! l = Some o ->
  (forall m, m ≠ k -> issues s !! m ≠ Some l) ->
  records (touch s k) = <[k := with_number (fields o)]> (records s).
Proof.
  intros Hwf Hk Hl Huniq. apply list_eq. intros m.
  rewrite records_lookup by by eapply touch_wf.
  destruct (decide (m = k)) as [->|Hne].
  - rewrite (touch_record_self s k l o) by done.
    rewrite list_lookup_insert_eq; [done|].
    rewrite length_records. by eapply lookup_lt_Some.
  - rewrite (touch_record_other s k l o) by auto.
    rewrite list_lookup_insert_ne by done. by rewrite records_lookup.
Qed.

Lemma update_at_records (s : store) (k : nat) (l : loc) (o : obj) (f : dict -> dict) :
  wf s -> issues s !! k = Some l -> heap s !! l = Some o ->
  (forall m, m ≠ k -> issues s !! m ≠ Some l) ->
  records (update_at s k f) = <[k := f (fields o)]> (records s).
Proof.
  intros Hwf Hk Hl Huniq. apply list_eq. intros m.
  rewrite records_lookup by by eapply update_at_wf.
  destruct (decide (m = k)) as [->|Hne].
  - rewrite (update_at_record_same s k l o) by done.
    rewrite list_lookup_insert_eq; [done|].
    rewrite length_records. by eapply lookup_lt_Some.
  - rewrite (update_at_record_other s k l o) by auto.
    rewrite list_lookup_insert_ne by done. by rewrite records_lookup.
Qed.

Lemma insert_take_drop_map {A} (F : A -> A) (l : list A) (k : nat) (x : A) :
  l !! k = Some x ->
  take (S k) (<[k := F x]> l) ++ (F <$> drop (S k) (<[k := F x]> l))
  = take k l ++ (F <$> drop k l).
Proof.
  intros Hk. pose proof (lookup_lt_Some _ _ _ Hk) as Hlt.
  rewrite (take_S_r _ _ (F x)) by by apply list_lookup_insert_eq.
  rewrite take_insert_ge by lia. rewrite drop_insert_lt by lia.
  rewrite (drop_S l x k Hk). simpl. by rewrite <- app_assoc.
Qed.

(** The loop of [complete_open_issues], without restriction, on a
    collection whose records resolve to distinct identifiers. *)
Lemma complete_all_loop (c : nat) : forall (k : nat) (acc : list loc) (s : store),
  wf s -> resolved s -> NoDup (ids s) ->
  (k + c)%nat = length (issues s) ->
  (forall m, (m < k)%nat -> settled s m) ->
  exists acc' s',
    complete_open_loop (seq k c) None acc s = (s', inr acc') /\
    records s' = take k (records s) ++ (completed_or_numbered <$> drop k (records s)).
Proof.
  induction c as [|c IH]; intros k acc s Hwf Hres Hnd Hlen Hset.
  { exists acc, s. split; [done|].
    rewrite drop_ge, take_ge by (rewrite length_records; lia).
    by rewrite app_nil_r. }
  change (seq k (S c)) with (k :: seq (S k) c).
  destruct (lookup_lt_is_Some_2 (issues s) k) as [l Hl]; [lia|].
  destruct (wf_lookup s k l Hwf Hl) as [o Ho].
  assert (record_at s k = Some (fields o)) as Hrk by (apply record_at_Some; eauto).
  assert (records s !! k = Some (fields o)) as Hrsk by by rewrite records_lookup.
  assert (ids s !! k = Some (_issue_identifier (fields o))) as Hidk
    by (rewrite ids_lookup, Hrk by done; done).
  assert (Hall : forall m, exists z, (m < length (issues s))%nat -> ids s !! m = Some (inr z)).
  { intros m. destruct (ids s !! m) as [r|] eqn:Hm.
    - unfold resolved in Hres. rewrite Forall_lookup in Hres.
      destruct (Hres m r Hm) as [z ->]. by exists z.
    - exists 0. intros Hlt. apply lookup_ge_None_1 in Hm. rewrite length_ids in Hm. lia. }
  assert (Hlt' : forall m, (m < k)%nat -> exists z, ids s !! m = Some (inr z)).
  { intros m Hm. destruct (Hall m) as [z Hz]. exists z. apply Hz. lia. }
  pose proof (complete_open_step k (seq (S k) c) None acc s l o Hwf Hl Ho Hset Hlt')
    as Hstep.
  destruct (Hall k) as [z Hz]. rewrite Hz in Hidk by lia.
  injection Hidk as Hidk. rewrite <- Hidk in Hstep. symmetry in Hidk.
  assert (Hev : evolve s (touch s k)) by by apply touch_evolve.
  assert (Hset1 : forall m, (m < S k)%nat -> settled (touch s k) m)
    by (eapply touch_prefix_settled; eauto).
  assert (Hrec1 : records (touch s k) = <[k := with_number (fields o)]> (records s))
    by (apply (touch_records s k l o); [done..|by apply unique_entry]).
  assert (forall acc1 s2 x,
    evolve s s2 -> (forall m, (m < S k)%nat -> settled s2 m) ->
    records s2 = <[k := x]> (records s) -> x = completed_or_numbered (fields o) ->
    exists acc' s',
      complete_open_loop (seq (S k) c) None acc1 s2 = (s', inr acc') /\
      records s' = take k (records s) ++ (completed_or_numbered <$> drop k (records s)))
    as Hnext.
  { intros acc1 s2 x Hev2 Hset2 Hrec2 ->.
    destruct (IH (S k) acc1 s2) as (acc' & s' & Hrun & Hrec).
    - apply Hev2.
    - unfold resolved. by rewrite (evolve_ids _ _ Hev2).
    - by rewrite (evolve_ids _ _ Hev2).
    - rewrite (evolve_length _ _ Hev2). lia.
    - done.
    - exists acc', s'. split; [done|].
      rewrite Hrec, Hrec2. by apply insert_take_drop_map. }
  cbv iota in Hstep.
  destruct (_is_open (fields o)) eqn:Hopen.
  - destruct Hstep as (f & lf & Hf & Hfk & Hlf & ->).
    assert (f = k) as ->.
    { destruct (lookup_number_inr _ _ _ Hf) as [Hidf _].
      eapply NoDup_lookup; [exact Hnd|exact Hidf|by rewrite Hz by lia]. }
    pose proof (touch_entry s k l o Hl Ho) as Hk1.
    pose proof (touch_heap_at s k l o Hl Ho) as Ho1.
    eapply (Hnext _ _ (completed_fields (with_number (fields o))));
      [| | |unfold completed_or_numbered; by rewrite Hopen].
    + eapply evolve_trans; [exact Hev|].
      apply update_completed_evolve; [apply Hev|apply Hset1; lia].
    + intros m Hm. eapply evolve_settled; [|by apply Hset1].
      apply update_completed_evolve; [apply Hev|apply Hset1; lia].
    + rewrite (update_at_records _ k _ _ _ (evolve_wf _ _ Hev) Hk1 Ho1).
      * rewrite Hrec1. simpl. by rewrite list_insert_insert_eq.
      * apply unique_entry; [apply Hev|by rewrite (evolve_ids _ _ Hev)|done].
  - rewrite Hstep. eapply (Hnext _ _ (with_number (fields o))); [done..|].
    unfold completed_or_numbered. by rewrite Hopen.
Qed.

(** ** C3: [complete_open_issues] without restriction

    The claim (C3) says that a record that was closed before the call is
    left entirely untouched.  It is not: the loop calls
    [_ensure_issue_number] on every record before it looks at its state,
    so a closed record that had an [id] and no [number] has a [number]
    after the call (and, as claimed, no [completed] flag). *)
Lemma complete_open_issues_numbers_closed :
  let d : dict := {[ "id" := VInt 7; "state" := VStr "closed" ]} in
  wf closed_by_id /\ record_at closed_by_id 0 = Some d /\ _is_open d = false /\
  snd (complete_open_issues None closed_by_id) = inr [] /\
  record_at (state_after (complete_open_issues None) closed_by_id) 0
    = Some (<["number" := VInt 7]> d) /\
  record_at (state_after (complete_open_issues None) closed_by_id) 0
    ≠ record_at closed_by_id 0.
Proof.
  intros d. split; [wf_eval|]. repeat (split; [reflexivity|]).
  intros H. apply (f_equal (fun r => r ≫= (.!! "number"))) in H. discriminate H.
Qed.

(** C3, amended.  On a collection whose records resolve to pairwise
    distinct identifiers, [complete_open_issues] without restriction
    returns, and afterwards every record that was open before the call is
    closed with [completed] true, and every record that was closed before
    the call has the fields it had, except that its resolved identifier
    is written into [number] when it had none; no [completed] flag is
    added to it. *)
Theorem complete_open_issues_all (s : store) :
  wf s -> resolved s -> NoDup (ids s) ->
  exists completed, snd (complete_open_issues None s) = inr completed /\
    let s' := state_after (complete_open_issues None) s in
    records s' = completed_or_numbered <$> records s /\
    (forall j d, records s !! j = Some d -> _is_open d = true ->
       exists d', records s' !! j = Some d' /\ closed_state d' /\
                  d' !! "completed" = Some (VBool true)) /\
    (forall j d, records s !! j = Some d -> _is_open d = false ->
       records s' !! j = Some (with_number d) /\
       forall key, key ≠ "number" -> with_number d !! key = d !! key).
Proof.
  intros Hwf Hres Hnd.
  destruct (complete_all_loop (length (issues s)) 0 [] s Hwf Hres Hnd eq_refl)
    as (completed & s' & Hrun & Hrec); [intros; lia|].
  rewrite drop_0, take_0 in Hrec. simpl in Hrec.
  unfold state_after, complete_open_issues. simpl. rewrite Hrun. simpl.
  exists completed. split; [done|]. split; [done|]. rewrite Hrec. split.
  - intros j d Hj Hopen. rewrite list_lookup_fmap, Hj. simpl.
    unfold completed_or_numbered. rewrite Hopen. eexists. split; [done|].
    split; [apply closed_state_completed_fields|apply completed_fields_completed].
  - intros j d Hj Hopen. rewrite list_lookup_fmap, Hj. simpl.
    unfold completed_or_numbered. rewrite Hopen. split; [done|].
    intros key Hkey. by apply with_number_lookup_ne.
Qed.

Lemma complete_open_issues_all_witness :
  wf sample_issues /\ resolved sample_issues /\ NoDup (ids sample_issues) /\
  exists completed, snd (complete_open_issues None sample_issues) = inr completed /\
    let s' := state_after (complete_open_issues None) sample_issues in
    records s' = completed_or_numbered <$> records sample_issues /\
    (forall j d, records sample_issues !! j = Some d -> _is_open d = true ->
       exists d', records s' !! j = Some d' /\ closed_state d' /\
                  d' !! "completed" = Some (VBool true)) /\
    (forall j d, records sample_issues !! j = Some d -> _is_open d = false ->
       records s' !! j = Some (with_number d) /\
       forall key, key ≠ "number" -> with_number d !! key = d !! key).
Proof.
  assert (resolved sample_issues) as Hres.
  { unfold resolved. change (ids sample_issues) with [@inr exn Z 1; inr 2; inr 3; inr 4].
    repeat (apply Forall_cons; split; [by eexists|]). apply Forall_nil_2. }
  assert (NoDup (ids sample_issues)) as Hnd.
  { change (ids sample_issues) with [@inr exn Z 1; inr 2; inr 3; inr 4]. nodup_eval. }
  split; [wf_eval|]. split; [exact Hres|]. split; [exact Hnd|].
  apply (complete_open_issues_all sample_issues); [wf_eval|exact Hres|exact Hnd].
Defined.

(** ** Two records with the same identifier *)

Lemma same_entry_same_id (s : store) (a b : nat) (l : loc) :
  wf s -> issues s !! a = Some l -> issues s !! b = Some l ->
  ids s !! a = ids s !! b.
Proof.
  intros Hwf Ha Hb. rewrite !ids_lookup by done.
  unfold record_at. by rewrite Ha, Hb.
Qed.

(** A round of the scan keeps distinct entries distinct. *)
Lemma touch_distinct (s : store) (k a b : nat) :
  wf s -> issues s !! a ≠ issues s !! b ->
  (a < length (issues s))%nat -> (b < length (issues s))%nat ->
  issues (touch s k) !! a ≠ issues (touch s k) !! b.
Proof.
  intros Hwf Hab Ha Hb.
  destruct (issues s !! k) as [l|] eqn:Hk; [|by unfold touch; rewrite Hk].
  destruct (wf_lookup s k l Hwf Hk) as [o Ho].
  destruct (lookup_lt_is_Some_2 _ _ Ha) as [la Hla].
  destruct (lookup_lt_is_Some_2 _ _ Hb) as [lb Hlb].
  pose proof (wf_lt s a la Hwf Hla). pose proof (wf_lt s b lb Hwf Hlb).
  assert (forall c lc, issues s !! c = Some lc ->
    issues (touch s k) !! c = Some (if decide (c = k) then touched_loc s l o else lc))
    as Hentry.
  { intros c lc Hc. destruct (decide (c = k)) as [->|Hne].
    - by apply touch_entry.
    - by rewrite (touch_entry_ne s k l o). }
  rewrite (Hentry a la Hla), (Hentry b lb Hlb). unfold touched_loc.
  intros [= Heq]. apply Hab. rewrite Hla, Hlb. f_equal.
  destruct (decide (a = k)) as [->|], (decide (b = k)) as [->|]; try congruence;
    destruct (is_mutable o); first [congruence|lia].
Qed.


Section Duplicates.

Variables (ids0 : list (result Z)) (n : Z) (i : nat).
Variables (prot : nat -> dict -> Prop) (r1 r2 : nat).
Hypothesis Hres0 : Forall (fun r => exists z : Z, r = inr z) ids0.
Hypothesis Hfirst : lookup_number ids0 n = inr i.
Hypothesis Hprot : forall j dj, prot j dj ->
  ids0 !! j = Some (inr n) /\ _is_open dj = true.
Hypothesis Hr1 : r1 = i \/ exists d, prot r1 d.
Hypothesis Hr2 : exists d, prot r2 d.
Hypothesis Hr12 : (r1 < r2)%nat.

Lemma dup_first : ids0 !! i = Some (inr n).
Proof. by destruct (lookup_number_inr _ _ _ Hfirst). Qed.

Lemma dup_before (m : nat) : ids0 !! m = Some (inr n) -> (i <= m)%nat.
Proof.
  intros Hm. destruct (lookup_number_inr _ _ _ Hfirst) as [_ H].
  destruct (decide (m < i)%nat) as [Hlt|]; [|lia].
  destruct (H m Hlt) as (z' & Hz' & Hne). congruence.
Qed.

Lemma dup_r1 : ids0 !! r1 = Some (inr n).
Proof. destruct Hr1 as [->|[d Hd]]; [apply dup_first|by apply (Hprot r1 d)]. Qed.

Lemma dup_r2 : ids0 !! r2 = Some (inr n).
Proof. destruct Hr2 as [d Hd]. by apply (Hprot r2 d). Qed.

(** One round of the loop keeps the invariant. *)
Lemma dup_step (k : nat) (rest : list nat) (acc : list loc) (s : store) :
  dup_inv ids0 i prot r1 r2 k acc s -> (k < length (issues s))%nat ->
  exists acc1 s1,
    complete_open_loop (k :: rest) None acc s = complete_open_loop rest None acc1 s1 /\
    dup_inv ids0 i prot r1 r2 (S k) acc1 s1 /\
    length (issues s1) = length (issues s).
Proof.
  intros (Hwf & Hids & Hset & Hp & Hopen1 & Hacc) Hk.
  assert (Hrange : forall m r, ids0 !! m = Some r -> (m < length (issues s))%nat).
  { intros m r Hm. rewrite <- length_ids, Hids. by eapply lookup_lt_Some. }
  pose proof (Hrange _ _ dup_first) as Hilen.
  pose proof (dup_before _ dup_r1) as Hir1.
  destruct (lookup_lt_is_Some_2 _ _ Hk) as [l Hl].
  destruct (wf_lookup s k l Hwf Hl) as [o Ho].
  assert (record_at s k = Some (fields o)) as Hrk by (apply record_at_Some; eauto).
  assert (Hall : forall m, (m < length (issues s))%nat ->
                           exists z, ids s !! m = Some (inr z)).
  { intros m Hm. destruct (lookup_lt_is_Some_2 (ids s) m) as [r Hr];
      [by rewrite length_ids|].
    rewrite Hids in Hr. rewrite Forall_lookup in Hres0.
    destruct (Hres0 m r Hr) as [z ->]. exists z. by rewrite Hids. }
  assert (Hlt' : forall m, (m < k)%nat -> exists z, ids s !! m = Some (inr z))
    by (intros m Hm; apply Hall; lia).
  pose proof (complete_open_step k rest None acc s l o Hwf Hl Ho Hset Hlt') as Hstep.
  destruct (Hall k Hk) as [z Hz].
  assert (_issue_identifier (fields o) = inr z) as Hidk.
  { rewrite ids_lookup, Hrk in Hz by done. simpl in Hz. congruence. }
  rewrite Hidk in Hstep. cbv iota in Hstep. rewrite Hids in Hz.
  assert (Hev : evolve s (touch s k)) by by apply touch_evolve.
  assert (Hids1 : ids (touch s k) = ids0) by by rewrite (evolve_ids _ _ Hev).
  assert (Hset1 : forall m, (m < S k)%nat -> settled (touch s k) m)
    by (eapply touch_prefix_settled; eauto).
  assert (Hmod : forall m d, record_at s m = Some d ->
            exists d1, record_at (touch s k) m = Some d1 /\
                       with_number d1 = with_number d).
  { intros m d Hd. pose proof (touch_record_mod s k l o Hwf Hl Ho m) as H.
    rewrite Hd in H. simpl in H.
    destruct (record_at (touch s k) m) as [d1|]; [|done].
    exists d1. split; [done|]. simpl in H. congruence. }
  assert (Hp1 : forall j dj, prot j dj ->
            issues (touch s k) !! i ≠ issues (touch s k) !! j /\
            exists d1, record_at (touch s k) j = Some d1 /\
                       with_number d1 = with_number dj).
  { intros j dj Hj. destruct (Hp j dj Hj) as (Hdist & d & Hd & Hdn).
    destruct (Hprot j dj Hj) as [Hidj _]. split.
    - apply touch_distinct; [done..|by eapply Hrange].
    - destruct (Hmod j d Hd) as (d1 & Hd1 & Hd1n). exists d1. split; [done|congruence]. }
  assert (Hopen11 : (k <= r1)%nat ->
            exists d1, record_at (touch s k) r1 = Some d1 /\ _is_open d1 = true).
  { intros Hle. destruct (Hopen1 Hle) as (d & Hd & Hopen).
    destruct (Hmod r1 d Hd) as (d1 & Hd1 & Hd1n). exists d1. split; [done|].
    by rewrite <- is_open_with_number, Hd1n, is_open_with_number. }
  assert (Hacc1 : (r1 < k)%nat ->
    exists lf p, issues (touch s k) !! i = Some lf /\ acc !! p = Some lf /\
                 ((r2 < k)%nat -> exists q, (p < q)%nat /\ acc !! q = Some lf)).
  { intros Hlt. destruct (Hacc Hlt) as (lf & p & H1 & H2 & H3).
    exists lf, p. rewrite (touch_entry_ne s k l o) by (done || lia). done. }
  (* the record at [k] is open when [k] is one of the two rounds *)
  assert (Hkopen : k = r1 \/ k = r2 -> _is_open (fields o) = true).
  { intros [->| ->].
    - destruct (Hopen1 ltac:(lia)) as (d & Hd & Hopen). congruence.
    - destruct Hr2 as [d2 Hd2]. destruct (Hp r2 d2 Hd2) as (_ & d & Hd & Hdn).
      destruct (Hprot r2 d2 Hd2) as [_ Hopen2].
      assert (d = fields o) as -> by congruence.
      by rewrite <- is_open_with_number, Hdn, is_open_with_number. }
  destruct (_is_open (fields o)) eqn:Hopen.
  2:{ (* a closed record: nothing but the round of the scan *)
    assert (k ≠ r1 /\ k ≠ r2) as [Hkr1 Hkr2]
      by (split; intros ->; discriminate Hkopen; auto).
    exists acc, (touch s k). split; [exact Hstep|].
    split; [|by apply Hev].
    split; [apply Hev|]. do 3 (split; [done|]). split.
    - intros Hle. apply Hopen11. lia.
    - intros Hlt. destruct (Hacc1 ltac:(lia)) as (lf & p & H1 & H2 & H3).
      exists lf, p. do 2 (split; [done|]). intros Hjk. apply H3. lia. }
  destruct Hstep as (f & lf & Hf & Hfk & Hlf & Hrun). rewrite Hids in Hf.
  destruct (lookup_number_inr _ _ _ Hf) as [Hidf _].
  assert (Hsetf : settled (touch s k) f) by (apply Hset1; lia).
  assert (Hev2 : evolve (touch s k) (update_at (touch s k) f completed_fields))
    by (apply update_completed_evolve; [apply Hev|done]).
  destruct Hsetf as (lf' & df & Hlf' & Hheap & _).
  assert (lf' = lf) as -> by congruence.
  set (s1 := touch s k) in *. set (s2 := update_at s1 f completed_fields) in *.
  assert (Hiss : issues s2 = issues s1) by apply (update_at_issues s1 f lf _ _ Hlf Hheap).
  assert (Hsep : forall c, ids0 !! c ≠ Some (inr z) -> issues s1 !! c ≠ Some lf).
  { intros c Hc Hcl. apply Hc. rewrite <- Hidf, <- Hids1.
    by apply (same_entry_same_id s1 c f lf (evolve_wf _ _ Hev)). }
  assert (Hkeep : forall c, issues s1 !! c ≠ Some lf -> record_at s2 c = record_at s1 c)
    by (intros c Hc; by apply (update_at_record_other s1 f lf _ _ Hlf Hheap)).
  exists (acc ++ [lf]), s2. split; [exact Hrun|].
  split; [|by rewrite Hiss; apply Hev].
  split; [apply Hev2|]. split; [by rewrite (evolve_ids _ _ Hev2)|].
  split; [intros m Hm; eapply evolve_settled; [exact Hev2|by apply Hset1]|].
  destruct (decide (z = n)) as [->|Hzn].
  - (* the record resolves to [n]: the object at [i] is completed *)
    assert (f = i) as -> by congruence.
    assert (Hp2 : forall j dj, prot j dj ->
              issues s2 !! i ≠ issues s2 !! j /\
              exists d, record_at s2 j = Some d /\ with_number d = with_number dj).
    { intros j dj Hj. destruct (Hp1 j dj Hj) as (Hdist & Hd). rewrite Hiss.
      split; [done|]. rewrite Hkeep; [done|].
      intros Hjl. apply Hdist. by rewrite Hlf, Hjl. }
    split; [exact Hp2|]. split.
    + intros Hle. destruct Hr1 as [->|[d1 Hd1]]; [lia|].
      destruct (Hp2 r1 d1 Hd1) as (_ & d & Hd & Hdn).
      destruct (Hprot r1 d1 Hd1) as [_ Hopend].
      exists d. split; [done|].
      by rewrite <- is_open_with_number, Hdn, is_open_with_number.
    + intros Hlt. rewrite Hiss. exists lf.
      destruct (decide (k = r1)) as [->|Hkr1].
      * exists (length acc). split; [done|].
        split; [by apply list_lookup_middle|]. intros; lia.
      * destruct (Hacc1 ltac:(lia)) as (lf0 & p & H1 & H2 & H3).
        assert (lf0 = lf) as -> by congruence.
        pose proof (lookup_lt_Some _ _ _ H2) as Hplt.
        exists p. split; [done|]. split; [by apply lookup_app_l_Some|].
        intros Hjk. destruct (decide (r2 = k)) as [->|Hjk'].
        -- exists (length acc). split; [done|]. by apply list_lookup_middle.
        -- destruct (H3 ltac:(lia)) as (q & Hq1 & Hq2).
           exists q. split; [done|]. by apply lookup_app_l_Some.
  - (* another identifier: the records that resolve to [n] are not written to *)
    assert (Hother : forall c, ids0 !! c = Some (inr n) ->
              record_at s2 c = record_at s1 c /\ k ≠ c).
    { intros c Hc. split; [apply Hkeep, Hsep; rewrite Hc; congruence|].
      intros ->. rewrite Hz in Hc. congruence. }
    destruct (Hother r1 dup_r1) as [Hrr1 Hkr1].
    destruct (Hother r2 dup_r2) as [_ Hkr2].
    split; [|split].
    + intros j dj Hj. destruct (Hp1 j dj Hj) as (Hdist & Hd). rewrite Hiss.
      split; [done|]. destruct (Hprot j dj Hj) as [Hidj _].
      by rewrite (proj1 (Hother j Hidj)).
    + intros Hle. rewrite Hrr1. apply Hopen11. lia.
    + intros Hlt. rewrite Hiss.
      destruct (Hacc1 ltac:(lia)) as (lf0 & p & H1 & H2 & H3).
      exists lf0, p. split; [done|]. split; [by apply lookup_app_l_Some|].
      intros Hjk. destruct (H3 ltac:(lia)) as (q & Hq1 & Hq2).
      exists q. split; [done|]. by apply lookup_app_l_Some.
Qed.

Lemma dup_loop (c : nat) : forall (k : nat) (acc : list loc) (s : store),
  dup_inv ids0 i prot r1 r2 k acc s -> (k + c)%nat = length (issues s) ->
  exists acc' s',
    complete_open_loop (seq k c) None acc s = (s', inr acc') /\
    dup_inv ids0 i prot r1 r2 (k + c) acc' s'.
Proof.
  induction c as [|c IH]; intros k acc s Hinv Hlen.
  { exists acc, s. rewrite Nat.add_0_r. done. }
  change (seq k (S c)) with (k :: seq (S k) c).
  destruct (dup_step k (seq (S k) c) acc s Hinv) as (acc1 & s1 & -> & Hinv1 & Hlen1);
    [lia|].
  destruct (IH (S k) acc1 s1 Hinv1) as (acc' & s' & Hrun & Hinv'); [lia|].
  exists acc', s'. split; [done|]. by replace (k + S c)%nat with (S k + c)%nat by lia.
Qed.

(** The whole loop, from a store in which the marked records are as
    given and the record of the first round is open. *)
Lemma dup_result (s : store) (d1 : dict) :
  wf s -> ids s = ids0 ->
  (forall j dj, prot j dj ->
     issues s !! i ≠ issues s !! j /\ record_at s j = Some dj) ->
  record_at s r1 = Some d1 -> _is_open d1 = true ->
  exists completed first,
    snd (complete_open_issues None s) = inr completed /\
    issues (state_after (complete_open_issues None) s) !! i = Some first /\
    (exists p q, (p < q)%nat /\ completed !! p = Some first /\ completed !! q = Some first) /\
    forall j dj, prot j dj ->
      stays_open (state_after (complete_open_issues None) s) j dj.
Proof.
  intros Hwf Hids Hp Hd1 Hopen1.
  assert (dup_inv ids0 i prot r1 r2 0 [] s) as Hinv.
  { split; [done|]. split; [done|]. split; [intros; lia|]. split.
    - intros j dj Hj. destruct (Hp j dj Hj) as [H1 H2]. eauto.
    - split; [eauto|intros; lia]. }
  destruct (dup_loop (length (issues s)) 0 [] s Hinv eq_refl)
    as (completed & s' & Hrun & Hinv').
  simpl in Hinv'.
  destruct Hinv' as (Hwf' & Hids' & Hset' & Hp' & _ & Hacc).
  assert (Hlen' : length (issues s') = length (issues s))
    by by rewrite <- !length_ids, Hids', Hids.
  assert (Hrange : forall m r, ids0 !! m = Some r -> (m < length (issues s))%nat).
  { intros m r Hm. rewrite <- length_ids, Hids. by eapply lookup_lt_Some. }
  destruct Hacc as (first & p & Hfirst' & Hpp & Hq); [by eapply Hrange, dup_r1|].
  destruct Hq as (q & Hpq & Hq); [by eapply Hrange, dup_r2|].
  unfold state_after, complete_open_issues. simpl. rewrite Hrun. simpl.
  exists completed, first. split; [done|]. split; [done|]. split; [by exists p, q|].
  intros j dj Hj. destruct (Hp' j dj Hj) as (_ & d & Hd & Hdn).
  destruct (Hprot j dj Hj) as [Hidj Hopenj]. unfold stays_open.
  rewrite is_open_with_number. split; [|done].
  destruct (Hset' j) as (lj & d' & Hlj & Hheap & Hnum); [by eapply Hrange|].
  assert (d' = d) as ->.
  { apply record_at_Some in Hd as (l0 & o0 & H1 & H2 & H3).
    rewrite H1 in Hlj. injection Hlj as ->. rewrite H2 in Hheap.
    injection Hheap as ->. done. }
  by rewrite Hd, <- Hdn, with_number_present.
Qed.

End Duplicates.

(** ** Two open records with the same identifier, in any collection

    X22 ([complete_open_issues], also with entries that share an object).
    Let every record of the collection resolve to an identifier, and let
    the records at [a] and [b] be distinct objects, both open, that
    resolve to the same identifier [n].  Then [complete_open_issues]
    without restriction returns a list that holds the first record of the
    collection that resolves to [n] at two positions at least, appended
    in the rounds of two open records that resolve to [n].  A record of
    the two that is not this first record (there is one at least) is
    neither closed nor completed: after the call it is the record it was,
    with its number written back, and it is still open.  The entries of
    the collection may be read-only mappings, and the same object may sit
    in the collection more than once. *)
Theorem complete_open_issues_duplicates (s : store) (n : Z) (a b : nat) (da db : dict) :
  wf s -> resolved s -> (a < b)%nat ->
  ids s !! a = Some (inr n) -> ids s !! b = Some (inr n) ->
  issues s !! a ≠ issues s !! b ->
  record_at s a = Some da -> record_at s b = Some db ->
  _is_open da = true -> _is_open db = true ->
  completes_first_twice s n a b da db.
Proof.
  intros Hwf Hres Hab Ha Hb Hdist Hda Hdb Hopena Hopenb.
  destruct (lookup_number_exists (ids s) a n Ha) as (i & Hia & Hfirst).
  { intros m Hm. destruct (lookup_lt_is_Some_2 (ids s) m) as [r Hr].
    - apply lookup_lt_Some in Ha. lia.
    - unfold resolved in Hres. rewrite Forall_lookup in Hres.
      destruct (Hres m r Hr) as [z ->]. eauto. }
  set (prot := fun (j : nat) (dj : dict) =>
                 (j = a /\ dj = da \/ j = b /\ dj = db) /\
                 issues s !! j ≠ issues s !! i).
  assert (Hprot : forall j dj, prot j dj ->
            ids s !! j = Some (inr n) /\ _is_open dj = true).
  { intros j dj [[[-> ->]|[-> ->]] _]; done. }
  assert (Hp : forall j dj, prot j dj ->
            issues s !! i ≠ issues s !! j /\ record_at s j = Some dj).
  { intros j dj [[[-> ->]|[-> ->]] Hne]; split; congruence. }
  assert (Hsame : forall j dj, record_at s j = Some dj ->
            issues s !! j = issues s !! i -> record_at s i = Some dj).
  { intros j dj Hdj Heq. unfold record_at in *. by rewrite <- Heq. }
  assert (exists r1 r2 d1,
            (r1 = i \/ exists d, prot r1 d) /\ (exists d, prot r2 d) /\
            (r1 < r2)%nat /\ record_at s r1 = Some d1 /\ _is_open d1 = true)
    as (r1 & r2 & d1 & Hr1 & Hr2 & Hr12 & Hd1 & Hopen1).
  { destruct (decide (issues s !! b = issues s !! i)) as [Hbi|Hbi].
    - (* the record at [b] is the first one: the rounds are [i] and [a] *)
      assert (issues s !! a ≠ issues s !! i) as Hai by congruence.
      assert (i ≠ a) by (intros ->; done).
      exists i, a, db. split; [by left|]. split; [exists da; split; auto|].
      split; [lia|]. split; [by apply (Hsame b)|done].
    - destruct (decide (issues s !! a = issues s !! i)) as [Hai|Hai].
      + (* the record at [a] is the first one: the rounds are [i] and [b] *)
        exists i, b, da. split; [by left|]. split; [exists db; split; auto|].
        split; [lia|]. split; [by apply (Hsame a)|done].
      + (* neither is: the rounds are [a] and [b] *)
        exists a, b, da. split; [right; exists da; split; auto|].
        split; [exists db; split; auto|]. done. }
  destruct (dup_result (ids s) n i prot r1 r2 Hres Hfirst Hprot Hr1 Hr2 Hr12
              s d1 Hwf eq_refl Hp Hd1 Hopen1)
    as (completed & first & Hrun & Hentry & Hpos & Hstay).
  exists completed, first, i. split; [done|]. split; [done|]. simpl.
  split; [done|]. split; [done|]. split.
  - destruct (decide (issues s !! a = issues s !! i)); [right|left]; congruence.
  - split; intros Hne; apply Hstay; split; auto.
Qed.

Lemma complete_open_issues_duplicates_witness :
  let da : dict := {[ "number" := VInt 1; "state" := VStr "open" ]} in
  let db : dict := {[ "number" := VInt 1; "title" := VStr "Again"; "state" := VStr "open" ]} in
  wf duplicate_issues /\ resolved duplicate_issues /\ (0 < 1)%nat /\
  ids duplicate_issues !! 0%nat = Some (inr 1) /\
  ids duplicate_issues !! 1%nat = Some (inr 1) /\
  issues duplicate_issues !! 0%nat ≠ issues duplicate_issues !! 1%nat /\
  record_at duplicate_issues 0 = Some da /\ record_at duplicate_issues 1 = Some db /\
  _is_open da = true /\ _is_open db = true /\
  completes_first_twice duplicate_issues 1 0 1 da db.
Proof.
  intros da db.
  assert (resolved duplicate_issues) as Hres.
  { unfold resolved. change (ids duplicate_issues) with [@inr exn Z 1; inr 1].
    repeat (apply Forall_cons; split; [by eexists|]). apply Forall_nil_2. }
  split; [wf_eval|]. split; [exact Hres|]. split; [lia|].
  split; [reflexivity|]. split; [reflexivity|]. split; [discriminate|].
  split; [reflexivity|]. split; [reflexivity|]. split; [reflexivity|].
  split; [reflexivity|].
  apply (complete_open_issues_duplicates duplicate_issues 1 0 1 da db);
    [wf_eval|exact Hres|lia|reflexivity|reflexivity|discriminate|reflexivity..].
Defined.

(** * Further properties of the helpers *)

(** ** The helpers that work on one issue *)

Lemma normalise_normal_form (v : value) : normal_form (_normalise_state v).
Proof.
  destruct v; try (split; reflexivity); unfold _normalise_state, normal_form;
    (split; [by rewrite strip_lower, strip_idem|by rewrite lower_idem]).
Qed.

(** X1 ([_get_state], [_normalise_state]).  The state [_get_state]
    computes for an issue, whatever its fields, is stripped and in lower
    case: [strip] and [lower] leave it as it is, and [_normalise_state]
    gives it back unchanged. *)
Theorem get_state_normal_form (issue : dict) :
  normal_form (_get_state issue) /\
  _normalise_state (VStr (_get_state issue)) = _get_state issue.
Proof.
  assert (normal_form (_get_state issue)) as H.
  { unfold _get_state.
    destruct (Py.or_ (get issue "state") (get issue "status")) eqn:E;
      try apply normalise_normal_form.
    destruct (Py.truthy _); split; reflexivity. }
  split; [done|]. destruct H as [H1 H2]. unfold _normalise_state, Py.str.
  by rewrite H1, H2.
Qed.

(** X2 ([_ensure_mutable_issue]).  At an index of the collection the call
    returns a mutable object that sits at this index afterwards and has
    the fields the entry had.  A dictionary is returned itself and the
    store is unchanged; a read-only mapping is replaced in the collection
    by a new dictionary.  Every object that existed is as it was, the
    other entries stay, the records of the collection read as before, and
    a second call returns the same object and changes nothing. *)
Theorem ensure_mutable_issue_in_place (s : store) (index : nat) (l : loc) (o : obj) :
  wf s -> issues s !! index = Some l -> heap s !! l = Some o ->
  exists l', snd (_ensure_mutable_issue index s) = inr l' /\
    let s' := state_after (_ensure_mutable_issue index) s in
    issues s' !! index = Some l' /\
    heap s' !! l' = Some (Obj true (fields o)) /\
    (is_mutable o = true -> l' = l /\ s' = s) /\
    (is_mutable o = false -> l' = length (heap s)) /\
    (forall x y, heap s !! x = Some y -> heap s' !! x = Some y) /\
    (forall j, j ≠ index -> issues s' !! j = issues s !! j) /\
    records s' = records s /\
    _ensure_mutable_issue index s' = (s', inr l').
Proof.
  intros Hwf Hi Hl. unfold state_after.
  rewrite (ensure_mutable_run s index l o Hi Hl).
  destruct o as [[|] d]; simpl.
  - exists l. split; [done|]. do 2 (split; [done|]). split; [done|].
    split; [done|]. do 3 (split; [done|]).
    by rewrite (ensure_mutable_run s index l _ Hi Hl).
  - pose proof (lookup_lt_Some _ _ _ Hi) as Hlt.
    exists (length (heap s)). split; [done|].
    split; [by apply list_lookup_insert_eq|].
    split; [by apply list_lookup_middle|]. split; [done|]. split; [done|].
    split; [intros x y Hx; by apply lookup_app_l_Some|].
    split; [intros j Hj; by apply list_lookup_insert_ne|]. split.
    + apply list_eq. intros j. unfold records, fields_at. simpl.
      rewrite !list_lookup_fmap. destruct (decide (j = index)) as [->|Hne].
      * rewrite list_lookup_insert_eq, Hi by done. simpl.
        rewrite list_lookup_middle, Hl by done. done.
      * rewrite list_lookup_insert_ne by done.
        destruct (issues s !! j) as [lj|] eqn:Hj; [|done]. simpl.
        destruct (wf_lookup s j lj Hwf Hj) as [oj Hoj].
        by rewrite (lookup_app_l_Some _ _ _ _ Hoj), Hoj.
    + erewrite ensure_mutable_run;
        [|simpl; by apply list_lookup_insert_eq|simpl; by apply list_lookup_middle].
      done.
Qed.

Lemma ensure_mutable_issue_in_place_witness :
  let o := Obj false {[ "id" := VInt 4; "state" := VStr "open" ]} in
  wf frozen_issue /\ issues frozen_issue !! 0%nat = Some 0%nat /\
  heap frozen_issue !! 0%nat = Some o /\
  exists l', snd (_ensure_mutable_issue 0 frozen_issue) = inr l' /\
    let s' := state_after (_ensure_mutable_issue 0) frozen_issue in
    issues s' !! 0%nat = Some l' /\
    heap s' !! l' = Some (Obj true (fields o)) /\
    (is_mutable o = true -> l' = 0%nat /\ s' = frozen_issue) /\
    (is_mutable o = false -> l' = length (heap frozen_issue)) /\
    (forall x y, heap frozen_issue !! x = Some y -> heap s' !! x = Some y) /\
    (forall j, j ≠ 0%nat -> issues s' !! j = issues frozen_issue !! j) /\
    records s' = records frozen_issue /\
    _ensure_mutable_issue 0 s' = (s', inr l').
Proof.
  intros o. split; [wf_eval|]. split; [reflexivity|]. split; [reflexivity|].
  apply (ensure_mutable_issue_in_place frozen_issue 0 0%nat o);
    [wf_eval|reflexivity|reflexivity].
Defined.

(** X3 ([_ensure_issue_number]).  On a dictionary the call returns what
    [_issue_identifier] gives for it, the identifier or the error.  It
    writes [number] only when the key is missing and the identifier
    resolves: a [number] that is present keeps its value, no other key and
    no other object changes, the identifier of the dictionary stays the
    same, and nothing changes at all when the identifier does not resolve.
    A second call returns the same and changes nothing. *)
Theorem ensure_issue_number_writes_once (s : store) (issue : loc) (d : dict) :
  heap s !! issue = Some (Obj true d) ->
  let s' := state_after (_ensure_issue_number issue) s in
  snd (_ensure_issue_number issue s) = _issue_identifier d /\
  issues s' = issues s /\
  (forall l, l ≠ issue -> heap s' !! l = heap s !! l) /\
  (exists d', heap s' !! issue = Some (Obj true d') /\
     (forall key, key ≠ "number" -> d' !! key = d !! key) /\
     d' !! "number" = match d !! "number", _issue_identifier d with
                      | Some v, _ => Some v
                      | None, inr identifier => Some (VInt identifier)
                      | None, inl _ => None
                      end /\
     _issue_identifier d' = _issue_identifier d) /\
  ((exists e, _issue_identifier d = inl e) -> s' = s) /\
  _ensure_issue_number issue s' = (s', _issue_identifier d).
Proof.
  intros Hl s'. subst s'. unfold state_after.
  rewrite (ensure_number_run s issue d Hl).
  destruct (_issue_identifier d) as [e|z] eqn:Ez; simpl.
  - split; [done|]. split; [done|]. split; [done|]. split.
    { exists d. split; [done|]. split; [done|]. split; [|done].
      destruct (d !! "number") as [v|] eqn:En; done. }
    split; [done|]. by rewrite (ensure_number_run s issue d Hl), Ez.
  - pose proof (lookup_lt_Some _ _ _ Hl) as Hlt.
    split; [done|]. split; [done|].
    split; [intros l Hne; by apply list_lookup_insert_ne|]. split.
    { exists (with_number d). split; [by apply list_lookup_insert_eq|].
      split; [intros key Hkey; by apply with_number_lookup_ne|]. split.
      - unfold with_number. rewrite Ez. unfold setdefault.
        destruct (d !! "number") as [v|] eqn:En; [done|]. by rewrite lookup_insert_eq.
      - by rewrite identifier_with_number. }
    split; [intros [e He]; discriminate|].
    erewrite ensure_number_run; [|simpl; by apply list_lookup_insert_eq].
    rewrite identifier_with_number, Ez, with_number_idem. simpl.
    by rewrite list_insert_insert_eq.
Qed.

Lemma ensure_issue_number_writes_once_witness :
  let d : dict := {[ "id" := VInt 4; "title" := VStr "Add achievements";
                     "closed" := VBool false ]} in
  heap sample_issues !! 3%nat = Some (Obj true d) /\
  let s' := state_after (_ensure_issue_number 3%nat) sample_issues in
  snd (_ensure_issue_number 3%nat sample_issues) = _issue_identifier d /\
  issues s' = issues sample_issues /\
  (forall l, l ≠ 3%nat -> heap s' !! l = heap sample_issues !! l) /\
  (exists d', heap s' !! 3%nat = Some (Obj true d') /\
     (forall key, key ≠ "number" -> d' !! key = d !! key) /\
     d' !! "number" = match d !! "number", _issue_identifier d with
                      | Some v, _ => Some v
                      | None, inr identifier => Some (VInt identifier)
                      | None, inl _ => None
                      end /\
     _issue_identifier d' = _issue_identifier d) /\
  ((exists e, _issue_identifier d = inl e) -> s' = sample_issues) /\
  _ensure_issue_number 3%nat s' = (s', _issue_identifier d).
Proof.
  intros d. split; [reflexivity|].
  apply (ensure_issue_number_writes_once sample_issues 3%nat d). reflexivity.
Defined.

Lemma set_state_overwrite (d : dict) (v v' : value) :
  set_state_fields (set_state_fields d v) v' = set_state_fields d v'.
Proof.
  apply map_eq. intros k. unfold set_state_fields.
  destruct (decide (k = "closed")) as [->|]; [by lookup_inserts|].
  destruct (decide (k = "status")) as [->|]; [by lookup_inserts|].
  destruct (decide (k = "state")) as [->|]; by lookup_inserts.
Qed.

Lemma set_state_lookup_ne (d : dict) (v : value) (key : string) :
  key ∉ ["state"; "status"; "closed"] -> set_state_fields d v !! key = d !! key.
Proof.
  intros H. unfold set_state_fields.
  rewrite !lookup_insert_ne; [done|intros <-; apply H; set_solver..].
Qed.

(** X4 ([_set_state], [_is_open]).  After [_set_state(issue, v)] the
    issue is open for [_is_open] exactly when the normalised [v] is none
    of ["closed"], ["completed"], ["done"], ["resolved"], while its
    [closed] flag is true only for ["closed"].  The call writes [state],
    [status] and [closed] and nothing else, so the identifier stays, and
    of two calls in a row only the second counts. *)
Theorem set_state_is_open (s : store) (issue : loc) (d : dict) (v : value) :
  heap s !! issue = Some (Obj true d) ->
  let s' := state_after (_set_state issue v) s in
  issues s' = issues s /\
  (forall l, l ≠ issue -> heap s' !! l = heap s !! l) /\
  (exists d', heap s' !! issue = Some (Obj true d') /\
     _is_open d' = negb (existsb (String.eqb (_normalise_state v)) closed_states) /\
     (d' !! "closed" = Some (VBool true) <-> _normalise_state v = "closed") /\
     (forall key, key ∉ ["state"; "status"; "closed"] -> d' !! key = d !! key) /\
     _issue_identifier d' = _issue_identifier d) /\
  forall v', state_after (_set_state issue v') s' = state_after (_set_state issue v') s.
Proof.
  intros Hl s'. subst s'. unfold state_after, _set_state.
  rewrite (mutate_run s issue d _ Hl). simpl.
  pose proof (lookup_lt_Some _ _ _ Hl) as Hlt.
  split; [done|]. split; [intros l Hne; by apply list_lookup_insert_ne|]. split.
  - exists (set_state_fields d v). split; [by apply list_lookup_insert_eq|].
    split; [unfold _is_open; by rewrite get_state_set_state|]. split.
    + rewrite closed_set_state. split.
      * intros [= H]. by apply String.eqb_eq.
      * intros ->. done.
    + split; [apply set_state_lookup_ne|apply identifier_set_state].
  - intros v'. rewrite (mutate_run s issue d _ Hl).
    erewrite mutate_run; [|simpl; by apply list_lookup_insert_eq]. simpl.
    by rewrite list_insert_insert_eq, set_state_overwrite.
Qed.

Lemma set_state_is_open_witness :
  let d : dict := {[ "number" := VInt 2; "title" := VStr "Add /health endpoint";
                     "state" := VStr "open" ]} in
  let v := VStr " Done " in
  heap sample_issues !! 1%nat = Some (Obj true d) /\
  let s' := state_after (_set_state 1%nat v) sample_issues in
  issues s' = issues sample_issues /\
  (forall l, l ≠ 1%nat -> heap s' !! l = heap sample_issues !! l) /\
  (exists d', heap s' !! 1%nat = Some (Obj true d') /\
     _is_open d' = negb (existsb (String.eqb (_normalise_state v)) closed_states) /\
     (d' !! "closed" = Some (VBool true) <-> _normalise_state v = "closed") /\
     (forall key, key ∉ ["state"; "status"; "closed"] -> d' !! key = d !! key) /\
     _issue_identifier d' = _issue_identifier d) /\
  forall v', state_after (_set_state 1%nat v') s'
             = state_after (_set_state 1%nat v') sample_issues.
Proof.
  intros d v. split; [reflexivity|].
  apply (set_state_is_open sample_issues 1%nat d v). reflexivity.
Defined.

(** ** Closing and completing: the record written *)

Lemma closed_fields_idem (d : dict) : closed_fields (closed_fields d) = closed_fields d.
Proof. apply set_state_overwrite. Qed.

Lemma completed_closed_fields (d : dict) :
  completed_fields (closed_fields d) = completed_fields d.
Proof. unfold completed_fields. by rewrite closed_fields_idem. Qed.

Lemma closed_completed_fields (d : dict) :
  closed_fields (completed_fields d) = completed_fields d.
Proof.
  apply map_eq. intros k. unfold completed_fields, closed_fields, set_state_fields.
  destruct (decide (k = "closed")) as [->|]; [by lookup_inserts|].
  destruct (decide (k = "status")) as [->|]; [by lookup_inserts|].
  destruct (decide (k = "state")) as [->|]; [by lookup_inserts|].
  destruct (decide (k = "completed")) as [->|]; by lookup_inserts.
Qed.

Lemma completed_fields_idem (d : dict) :
  completed_fields (completed_fields d) = completed_fields d.
Proof.
  unfold completed_fields at 1. rewrite closed_completed_fields.
  unfold completed_fields. by rewrite insert_insert_eq.
Qed.

(** The store after the scan found [n] at [j] and [f] was written to the
    record there. *)
Lemma found_update (s : store) (n : Z) (j : nat) (f : dict -> dict) :
  wf s -> lookup_number (ids s) n = inr j ->
  (forall d, _issue_identifier (f d) = _issue_identifier d) ->
  (forall d, grows d (f d)) ->
  let s1 := touch_range s 0 (S j) in
  let s2 := update_at s1 j f in
  exists l d, record_at s j = Some d /\ _issue_identifier d = inr n /\
    issues s1 !! j = Some l /\ heap s1 !! l = Some (Obj true (with_number d)) /\
    s2 = Store (<[l := Obj true (f (with_number d))]> (heap s1)) (issues s1) /\
    issues s2 !! j = Some l /\ heap s2 !! l = Some (Obj true (f (with_number d))) /\
    evolve s s2 /\ forall m, (m <= j)%nat -> settled s2 m.
Proof.
  intros Hwf Hn Hid Hg s1 s2.
  destruct (found_settled s n j Hwf Hn) as (l & d1 & Hj & Hl & Hnum & Hd1).
  fold s1 in Hj, Hl.
  pose proof (touch_range_ext s 0 (S j) Hwf) as Hext. fold s1 in Hext.
  pose proof (touch_range_evolve s 0 (S j) Hwf) as Hev. fold s1 in Hev.
  pose proof (ext_record _ _ Hext j) as Hrec.
  assert (record_at s1 j = Some d1) as Hr1 by (apply record_at_Some; eauto).
  rewrite Hr1 in Hrec. destruct (record_at s j) as [d|] eqn:Hr; [|done].
  simpl in Hrec. injection Hrec as Hrec.
  rewrite (with_number_present d1 Hnum) in Hrec. subst d1.
  assert (Hev2 : evolve s1 s2).
  { eapply update_at_evolve; eauto using evolve_wf. }
  destruct (lookup_number_inr _ _ _ Hn) as [Hjn Hlt].
  exists l, d. split; [done|]. split; [by rewrite <- identifier_with_number|].
  split; [done|]. split; [done|].
  split; [apply (update_at_unfold s1 j l _ f Hj Hl)|].
  split; [unfold s2; by rewrite (update_at_issues s1 j l _ f Hj Hl)|].
  split; [apply (update_at_heap_at s1 j l _ f Hj Hl)|].
  split; [by eapply evolve_trans|].
  intros m Hm. eapply evolve_settled; [exact Hev2|].
  apply touch_range_settles; [done| | |lia].
  - apply lookup_lt_Some in Hjn. rewrite length_ids in Hjn. lia.
  - intros m' Hm'. destruct (decide (m' = j)) as [->|]; [eauto|].
    destruct (Hlt m') as (z & Hz & _); [lia|eauto].
Qed.

(** Closing or completing changes nothing when the records up to the one
    found are settled and the record found is already what it writes. *)
Lemma settled_update_id (s : store) (n : Z) (j : nat) (l : loc) (d : dict)
    (f : dict -> dict) :
  (forall m, (m <= j)%nat -> settled s m) ->
  issues s !! j = Some l -> heap s !! l = Some (Obj true d) -> f d = d ->
  update_at (touch_range s 0 (S j)) j f = s.
Proof.
  intros Hset Hj Hl Hf.
  rewrite touch_range_settled_id by (intros m Hm; apply Hset; lia).
  rewrite (update_at_unfold s j l _ f Hj Hl). simpl. rewrite Hf.
  rewrite list_insert_id by done. apply store_eta.
Qed.

Lemma close_again (s : store) (n : Z) (j : nat) (l : loc) (d : dict) :
  wf s -> lookup_number (ids s) n = inr j ->
  (forall m, (m <= j)%nat -> settled s m) ->
  issues s !! j = Some l -> heap s !! l = Some (Obj true d) ->
  (closed_fields d = d -> close_issue n s = (s, inr l)) /\
  (completed_fields d = d -> complete_issue n s = (s, inr l)).
Proof.
  intros Hwf Hn Hset Hj Hl.
  destruct (close_run s n j Hwf Hn) as (l1 & Hj1 & Hclose).
  destruct (complete_run s n j Hwf Hn) as (l2 & Hj2 & Hcomplete).
  simpl in Hj1, Hj2, Hclose, Hcomplete.
  rewrite touch_range_settled_id in Hj1, Hj2 by (intros m Hm; apply Hset; lia).
  split; intros Hf.
  - rewrite Hclose, (settled_update_id s n j l d) by done. congruence.
  - rewrite Hcomplete, (settled_update_id s n j l d) by done. congruence.
Qed.

Lemma with_number_number (d : dict) (n : Z) :
  _issue_identifier d = inr n ->
  with_number d !! "number" = Some (default (VInt n) (d !! "number")).
Proof.
  intros Hid. unfold with_number. rewrite Hid. unfold setdefault.
  destruct (d !! "number") as [v|] eqn:E; [done|]. by rewrite lookup_insert_eq.
Qed.

Lemma closed_as_closed_fields (d : dict) (n : Z) :
  _issue_identifier d = inr n ->
  closed_as d (closed_fields (with_number d)) n (d !! "completed").
Proof.
  intros Hid. unfold closed_as, closed_fields, set_state_fields.
  split; [by lookup_inserts|]. split; [by lookup_inserts|].
  split; [by lookup_inserts|].
  split; [lookup_inserts; by apply with_number_lookup_ne|].
  split; [lookup_inserts; by apply with_number_number|]. split.
  - intros key Hkey. rewrite !lookup_insert_ne by (intros <-; apply Hkey; set_solver).
    apply with_number_lookup_ne. intros ->. apply Hkey. set_solver.
  - unfold _is_open, _get_state, get. by lookup_inserts.
Qed.

Lemma closed_as_completed_fields (d : dict) (n : Z) :
  _issue_identifier d = inr n ->
  closed_as d (completed_fields (with_number d)) n (Some (VBool true)).
Proof.
  intros Hid. unfold closed_as.
  split; [|split; [|split; [|split; [|split; [|split]]]]];
    try (unfold completed_fields, closed_fields, set_state_fields; by lookup_inserts).
  - unfold completed_fields, closed_fields, set_state_fields. lookup_inserts.
    by apply with_number_number.
  - intros key Hkey. unfold completed_fields, closed_fields, set_state_fields.
    rewrite !lookup_insert_ne by (intros <-; apply Hkey; set_solver).
    apply with_number_lookup_ne. intros ->. apply Hkey. set_solver.
  - apply is_open_completed_fields.
Qed.

(** X5 ([close_issue], [complete_issue]).  When the scan finds [n] at
    index [j], where the record has the fields [d], both functions return
    the object at index [j], whose fields afterwards are: [state] and
    [status] ["closed"], [closed] true, [number] the value it had or else
    [n], and every other field as in [d]; [completed] is true after
    [complete_issue] and untouched by [close_issue]. *)
Theorem close_issue_fields (s : store) (n : Z) (j : nat) :
  wf s -> lookup_number (ids s) n = inr j ->
  exists d, record_at s j = Some d /\
    closes_record close_issue s n j d (d !! "completed") /\
    closes_record complete_issue s n j d (Some (VBool true)).
Proof.
  intros Hwf Hn.
  destruct (found_update s n j closed_fields Hwf Hn)
    as (l & d & Hd & Hid & Hj1 & Hl1 & _ & Hj2 & Hl2 & _);
    [intros; apply identifier_set_state|apply grows_closed_fields|].
  destruct (found_update s n j completed_fields Hwf Hn)
    as (l' & d0 & Hd0 & _ & Hj1' & _ & _ & Hj3 & Hl3 & _);
    [apply identifier_completed|apply grows_completed_fields|].
  assert (d0 = d) as -> by congruence. assert (l' = l) as -> by congruence.
  destruct (close_run s n j Hwf Hn) as (l1 & Hj1c & Hclose).
  destruct (complete_run s n j Hwf Hn) as (l2 & Hj1d & Hcomplete).
  simpl in Hj1c, Hj1d, Hclose, Hcomplete.
  assert (l1 = l) as -> by congruence. assert (l2 = l) as -> by congruence.
  exists d. split; [done|]. unfold closes_record, state_after. split.
  - rewrite Hclose. simpl. exists l, (closed_fields (with_number d)).
    split; [done|]. split; [done|]. split; [unfold fields_at; by rewrite Hl2|].
    by apply closed_as_closed_fields.
  - rewrite Hcomplete. simpl. exists l, (completed_fields (with_number d)).
    split; [done|]. split; [done|]. split; [unfold fields_at; by rewrite Hl3|].
    by apply closed_as_completed_fields.
Qed.

Lemma close_issue_fields_witness :
  wf sample_issues /\ lookup_number (ids sample_issues) 4 = inr 3%nat /\
  exists d, record_at sample_issues 3 = Some d /\
    closes_record close_issue sample_issues 4 3 d (d !! "completed") /\
    closes_record complete_issue sample_issues 4 3 d (Some (VBool true)).
Proof.
  split; [wf_eval|]. split; [reflexivity|].
  apply (close_issue_fields sample_issues 4 3); [wf_eval|reflexivity].
Defined.

(** X6 ([close_issue] then [complete_issue]).  Completing an issue that
    was just closed gives the same store and the same object as
    completing it at once. *)
Theorem complete_after_close (s : store) (n : Z) (j : nat) :
  wf s -> lookup_number (ids s) n = inr j ->
  complete_issue n (state_after (close_issue n) s) = complete_issue n s.
Proof.
  intros Hwf Hn.
  destruct (found_update s n j closed_fields Hwf Hn)
    as (l & d & Hd & Hid & Hj1 & Hl1 & Hs2 & Hj2 & Hl2 & Hev2 & Hset2);
    [intros; apply identifier_set_state|apply grows_closed_fields|].
  destruct (found_update s n j completed_fields Hwf Hn)
    as (l' & d0 & Hd0 & _ & Hj1' & _ & Hs3 & _);
    [apply identifier_completed|apply grows_completed_fields|].
  assert (d0 = d) as -> by congruence. assert (l' = l) as -> by congruence.
  destruct (close_run s n j Hwf Hn) as (l1 & Hj1c & Hclose).
  destruct (complete_run s n j Hwf Hn) as (l2 & Hj1d & Hcomplete).
  simpl in Hj1c, Hj1d, Hclose, Hcomplete.
  assert (l1 = l) as -> by congruence. assert (l2 = l) as -> by congruence.
  unfold state_after. rewrite Hclose, Hcomplete. simpl.
  set (s2 := update_at (touch_range s 0 (S j)) j closed_fields) in *.
  assert (Hn2 : lookup_number (ids s2) n = inr j) by by rewrite (evolve_ids _ _ Hev2).
  destruct (complete_run s2 n j (evolve_wf _ _ Hev2) Hn2) as (l3 & Hj3 & ->).
  rewrite touch_range_settled_id in * by (intros m Hm; apply Hset2; lia).
  assert (l3 = l) as -> by congruence. f_equal.
  rewrite (update_at_unfold s2 j l _ completed_fields Hj2 Hl2). simpl.
  rewrite completed_closed_fields, Hs3, Hs2. simpl.
  by rewrite list_insert_insert_eq.
Qed.

Lemma complete_after_close_witness :
  wf sample_issues /\ lookup_number (ids sample_issues) 4 = inr 3%nat /\
  complete_issue 4 (state_after (close_issue 4) sample_issues)
  = complete_issue 4 sample_issues.
Proof.
  split; [wf_eval|]. split; [reflexivity|].
  apply (complete_after_close sample_issues 4 3); [wf_eval|reflexivity].
Defined.

(** X7 ([close_issue], [complete_issue]).  Both are idempotent on a
    number the scan finds: a second [close_issue] after the first, a
    second [complete_issue] after the first, and a [close_issue] after a
    [complete_issue] leave the store as it is and return the same object
    (a completed issue stays completed). *)
Theorem close_issue_idempotent (s : store) (n : Z) (j : nat) :
  wf s -> lookup_number (ids s) n = inr j ->
  (exists l, snd (close_issue n s) = inr l /\
     let s' := state_after (close_issue n) s in
     close_issue n s' = (s', inr l)) /\
  (exists l, snd (complete_issue n s) = inr l /\
     let s' := state_after (complete_issue n) s in
     complete_issue n s' = (s', inr l) /\ close_issue n s' = (s', inr l)).
Proof.
  intros Hwf Hn.
  destruct (found_update s n j closed_fields Hwf Hn)
    as (l & d & Hd & Hid & Hj1 & Hl1 & _ & Hj2 & Hl2 & Hev2 & Hset2);
    [intros; apply identifier_set_state|apply grows_closed_fields|].
  destruct (found_update s n j completed_fields Hwf Hn)
    as (l' & d0 & Hd0 & _ & Hj1' & _ & _ & Hj3 & Hl3 & Hev3 & Hset3);
    [apply identifier_completed|apply grows_completed_fields|].
  assert (d0 = d) as -> by congruence. assert (l' = l) as -> by congruence.
  destruct (close_run s n j Hwf Hn) as (l1 & Hj1c & Hclose).
  destruct (complete_run s n j Hwf Hn) as (l2 & Hj1d & Hcomplete).
  simpl in Hj1c, Hj1d, Hclose, Hcomplete.
  assert (l1 = l) as -> by congruence. assert (l2 = l) as -> by congruence.
  unfold state_after. rewrite Hclose, Hcomplete. simpl. split; exists l.
  - split; [done|].
    eapply close_again; [apply Hev2|by rewrite (evolve_ids _ _ Hev2)|done..|].
    apply closed_fields_idem.
  - split; [done|]. split.
    + eapply close_again; [apply Hev3|by rewrite (evolve_ids _ _ Hev3)|done..|].
      apply completed_fields_idem.
    + eapply close_again; [apply Hev3|by rewrite (evolve_ids _ _ Hev3)|done..|].
      apply closed_completed_fields.
Qed.

Lemma close_issue_idempotent_witness :
  wf sample_issues /\ lookup_number (ids sample_issues) 4 = inr 3%nat /\
  (exists l, snd (close_issue 4 sample_issues) = inr l /\
     let s' := state_after (close_issue 4) sample_issues in
     close_issue 4 s' = (s', inr l)) /\
  (exists l, snd (complete_issue 4 sample_issues) = inr l /\
     let s' := state_after (complete_issue 4) sample_issues in
     complete_issue 4 s' = (s', inr l) /\ close_issue 4 s' = (s', inr l)).
Proof.
  split; [wf_eval|]. split; [reflexivity|].
  apply (close_issue_idempotent sample_issues 4 3); [wf_eval|reflexivity].
Defined.

(** ** What a scan leaves alone *)

Lemma touch_range_snoc (s : store) (c : nat) :
  touch_range s 0 (S c) = touch (touch_range s 0 c) c.
Proof. unfold touch_range. by rewrite seq_S, foldl_app. Qed.

Lemma touch_entry_other (s : store) (k m : nat) :
  m ≠ k -> issues (touch s k) !! m = issues s !! m.
Proof.
  intros Hne. destruct (issues s !! k) as [l|] eqn:Hk; [|unfold touch; by rewrite Hk].
  destruct (heap s !! l) as [o|] eqn:Hl; [|unfold touch; by rewrite Hk, Hl].
  by apply (touch_entry_ne s k l o Hk Hl).
Qed.

Lemma touch_range_entry_ge (c : nat) : forall (s : store) (k m : nat),
  (k + c <= m)%nat -> issues (touch_range s k c) !! m = issues s !! m.
Proof.
  induction c as [|c IH]; intros s k m Hm; [done|].
  rewrite touch_range_S, IH by lia. apply touch_entry_other. lia.
Qed.

Lemma touch_heap_frame (s : store) (k : nat) (l : loc) (o : obj) :
  heap s !! l = Some o -> issues s !! k ≠ Some l \/ is_mutable o = false ->
  heap (touch s k) !! l = Some o.
Proof.
  intros Hl Hne. pose proof (lookup_lt_Some _ _ _ Hl) as Hlt.
  destruct (issues s !! k) as [lk|] eqn:Hk; [|unfold touch; by rewrite Hk].
  destruct (heap s !! lk) as [ok|] eqn:Hlk; [|unfold touch; by rewrite Hk, Hlk].
  destruct (decide (lk = l)) as [->|Hd].
  - destruct Hne as [Hne|Hne]; [done|]. assert (ok = o) as -> by congruence.
    by rewrite (touch_heap_frozen s k l o Hk Hlk).
  - by rewrite (touch_heap_other s k lk ok Hk Hlk).
Qed.

Lemma touch_range_heap_frame (c : nat) : forall (s : store) (k : nat) (l : loc) (o : obj),
  wf s -> heap s !! l = Some o ->
  (forall m, (k <= m < k + c)%nat -> issues s !! m ≠ Some l) \/ is_mutable o = false ->
  heap (touch_range s k c) !! l = Some o.
Proof.
  induction c as [|c IH]; intros s k l o Hwf Hl Hne; [done|].
  rewrite touch_range_S. apply IH.
  - by apply touch_evolve.
  - apply touch_heap_frame; [done|]. destruct Hne as [Hne|Hne]; [left|by right].
    apply Hne. lia.
  - destruct Hne as [Hne|Hne]; [left|by right]. intros m Hm.
    rewrite touch_entry_other by lia. apply Hne. lia.
Qed.

Lemma ext_heap_length (s s' : store) : ext s s' -> (length (heap s) <= length (heap s'))%nat.
Proof.
  intros Hext. destruct (decide (length (heap s) = 0)%nat) as [->|Hne]; [lia|].
  destruct (lookup_lt_is_Some_2 (heap s) (length (heap s) - 1)) as [o Ho]; [lia|].
  destruct (ext_obj _ _ Hext _ _ Ho) as (o' & Ho' & _).
  apply lookup_lt_Some in Ho'. lia.
Qed.

(** X8 ([_find_issue_index]).  When the record at index [j] resolves to
    [n] and every earlier record resolves to another number, the scan
    returns [j], the first match.  Afterwards the records up to [j] have a
    [number]; no record differs from what it was except by a written-back
    number; the entries after [j] are the same objects; and an object
    that none of the entries up to [j] refers to is unchanged. *)
Theorem find_issue_index_first (s : store) (n : Z) (j : nat) :
  wf s -> ids s !! j = Some (inr n) ->
  (forall m, (m < j)%nat -> exists z, ids s !! m = Some (inr z) /\ z ≠ n) ->
  snd (_find_issue_index n s) = inr j /\
  let s' := state_after (_find_issue_index n) s in
  (forall m, (m <= j)%nat ->
     exists d, record_at s' m = Some d /\ is_Some (d !! "number")) /\
  (forall m, with_number <$> record_at s' m = with_number <$> record_at s m) /\
  (forall m, (j < m)%nat -> issues s' !! m = issues s !! m) /\
  (forall l o, heap s !! l = Some o ->
     (forall m, (m <= j)%nat -> issues s !! m ≠ Some l) -> heap s' !! l = Some o).
Proof.
  intros Hwf Hj Hlt.
  pose proof (lookup_number_first _ _ _ Hj Hlt) as Hn.
  pose proof (find_run n s Hwf) as Hfind. rewrite Hn in Hfind.
  unfold state_after. rewrite Hfind. simpl. split; [done|].
  pose proof (touch_range_ext s 0 (S j) Hwf) as Hext. split; [|split; [|split]].
  - intros m Hm.
    assert (settled (touch_range s 0 (S j)) m) as (l & d & H1 & H2 & H3).
    { apply touch_range_settles; [done| | |lia].
      - apply lookup_lt_Some in Hj. rewrite length_ids in Hj. lia.
      - intros m' Hm'. destruct (decide (m' = j)) as [->|]; [eauto|].
        destruct (Hlt m') as (z & Hz & _); [lia|eauto]. }
    exists d. split; [|done]. apply record_at_Some. eauto.
  - apply Hext.
  - intros m Hm. apply touch_range_entry_ge. lia.
  - intros l o Hl Hne. apply touch_range_heap_frame; [done..|].
    left. intros m Hm. apply Hne. lia.
Qed.

Lemma find_issue_index_first_witness :
  wf sample_issues /\ ids sample_issues !! 2%nat = Some (inr 3) /\
  (forall m, (m < 2)%nat -> exists z, ids sample_issues !! m = Some (inr z) /\ z ≠ 3) /\
  snd (_find_issue_index 3 sample_issues) = inr 2%nat /\
  let s' := state_after (_find_issue_index 3) sample_issues in
  (forall m, (m <= 2)%nat ->
     exists d, record_at s' m = Some d /\ is_Some (d !! "number")) /\
  (forall m, with_number <$> record_at s' m = with_number <$> record_at sample_issues m) /\
  (forall m, (2 < m)%nat -> issues s' !! m = issues sample_issues !! m) /\
  (forall l o, heap sample_issues !! l = Some o ->
     (forall m, (m <= 2)%nat -> issues sample_issues !! m ≠ Some l) ->
     heap s' !! l = Some o).
Proof.
  assert (forall m, (m < 2)%nat ->
            exists z, ids sample_issues !! m = Some (inr z) /\ z ≠ 3) as H.
  { intros m Hm. destruct m as [|[|m]]; [by exists 1|by exists 2|lia]. }
  split; [wf_eval|]. split; [reflexivity|]. split; [exact H|].
  apply (find_issue_index_first sample_issues 3 2); [wf_eval|reflexivity|exact H].
Defined.

(** X9 (empty collection).  On a collection without entries the lookups
    [_find_issue_index], [close_issue] and [complete_issue] raise
    [IssueNotFoundError], the bulk operations and [list_open_issues]
    return the empty list, and none of them changes the store. *)
Theorem empty_collection (s : store) (n : Z) (ns : list Z) (issue_numbers : option (list Z)) :
  issues s = [] ->
  _find_issue_index n s = (s, inl IssueNotFoundError) /\
  close_issue n s = (s, inl IssueNotFoundError) /\
  complete_issue n s = (s, inl IssueNotFoundError) /\
  close_implemented_issues ns s = (s, inr []) /\
  complete_open_issues issue_numbers s = (s, inr []) /\
  list_open_issues s = (s, inr []).
Proof.
  intros Hs.
  assert (_find_issue_index n s = (s, inl IssueNotFoundError)) as Hfind
    by (unfold _find_issue_index; by rewrite Hs).
  assert (forall n, close_issue n s = (s, inl IssueNotFoundError)) as Hclose.
  { intros n'. unfold close_issue. apply bind_inl.
    unfold _find_issue_index. by rewrite Hs. }
  split; [done|]. split; [done|].
  split; [unfold complete_issue; by apply bind_inl|]. split; [|split].
  - unfold close_implemented_issues. generalize (@nil loc) as acc.
    induction ns as [|n' ns IH]; intros acc; [done|].
    rewrite close_implemented_step_skip by by rewrite Hclose.
    unfold state_after. rewrite Hclose. apply IH.
  - unfold complete_open_issues. by rewrite Hs.
  - unfold list_open_issues. by rewrite Hs.
Qed.

Lemma empty_collection_witness :
  issues (Store [] []) = [] /\
  _find_issue_index 1 (Store [] []) = (Store [] [], inl IssueNotFoundError) /\
  close_issue 1 (Store [] []) = (Store [] [], inl IssueNotFoundError) /\
  complete_issue 1 (Store [] []) = (Store [] [], inl IssueNotFoundError) /\
  close_implemented_issues [1; 2] (Store [] []) = (Store [] [], inr []) /\
  complete_open_issues (Some [1]) (Store [] []) = (Store [] [], inr []) /\
  list_open_issues (Store [] []) = (Store [] [], inr []).
Proof.
  split; [reflexivity|].
  apply (empty_collection (Store [] []) 1 [1; 2] (Some [1])). reflexivity.
Defined.

(** ** Dictionaries and read-only mappings in the collection *)

Lemma found_entry (s : store) (n : Z) (j : nat) (l : loc) (o : obj) (f : dict -> dict) :
  wf s -> lookup_number (ids s) n = inr j ->
  issues s !! j = Some l -> heap s !! l = Some o ->
  let s1 := touch_range s 0 (S j) in
  exists l', issues s1 !! j = Some l' /\
    issues (update_at s1 j f) !! j = Some l' /\
    if is_mutable o then l' = l
    else (length (heap s) <= l')%nat /\ heap (update_at s1 j f) !! l = Some o.
Proof.
  intros Hwf Hn Hj Hl s1.
  destruct (found_settled s n j Hwf Hn) as (l' & d' & Hj1 & Hl1 & _). fold s1 in Hj1, Hl1.
  exists l'. split; [done|].
  split; [by rewrite (update_at_issues s1 j l' _ f Hj1 Hl1)|].
  destruct o as [[|] d]; simpl.
  - pose proof (ext_entry _ _ (touch_range_ext s 0 (S j) Hwf) j l d Hj Hl) as H.
    fold s1 in H. congruence.
  - set (s0 := touch_range s 0 j).
    assert (Hext0 : ext s s0) by by apply touch_range_ext.
    assert (issues s0 !! j = Some l) as Hj0
      by (unfold s0; rewrite touch_range_entry_ge by lia; done).
    assert (heap s0 !! l = Some (Obj false d)) as Hl0
      by (apply touch_range_heap_frame; [done..|by right]).
    assert (s1 = touch s0 j) as Hs1 by apply touch_range_snoc.
    pose proof (touch_entry s0 j l _ Hj0 Hl0) as He. rewrite <- Hs1 in He.
    unfold touched_loc in He. simpl in He.
    assert (l' = length (heap s0)) as -> by congruence.
    pose proof (ext_heap_length _ _ Hext0) as Hlen.
    pose proof (lookup_lt_Some _ _ _ Hl0) as Hlt.
    split; [done|].
    rewrite (update_at_heap_other s1 j _ _ f Hj1 Hl1) by lia.
    rewrite Hs1. apply touch_heap_frame; [done|by right].
Qed.

(** X10 ([close_issue], [complete_issue] and read-only mappings).  When
    the scan finds [n] at index [j], the object returned is the entry at
    [j] after the call.  If the entry was a dictionary, it is that very
    dictionary, mutated in place; if it was a read-only mapping, it is a
    new object that has taken its place in the collection, and the
    read-only mapping itself is unchanged. *)
Theorem close_issue_returns_entry (s : store) (n : Z) (j : nat) (l : loc) (o : obj) :
  wf s -> lookup_number (ids s) n = inr j ->
  issues s !! j = Some l -> heap s !! l = Some o ->
  returns_entry close_issue s n j l o /\ returns_entry complete_issue s n j l o.
Proof.
  intros Hwf Hn Hj Hl.
  destruct (close_run s n j Hwf Hn) as (l1 & Hj1c & Hclose).
  destruct (complete_run s n j Hwf Hn) as (l2 & Hj1d & Hcomplete).
  simpl in Hj1c, Hj1d, Hclose, Hcomplete.
  unfold returns_entry, state_after. rewrite Hclose, Hcomplete. simpl. split.
  - destruct (found_entry s n j l o closed_fields Hwf Hn Hj Hl) as (l' & H1 & H2 & H3).
    exists l'. split; [congruence|]. done.
  - destruct (found_entry s n j l o completed_fields Hwf Hn Hj Hl) as (l' & H1 & H2 & H3).
    exists l'. split; [congruence|]. done.
Qed.

Lemma close_issue_returns_entry_witness :
  let o := Obj false {[ "id" := VInt 4; "state" := VStr "open" ]} in
  wf frozen_issue /\ lookup_number (ids frozen_issue) 4 = inr 0%nat /\
  issues frozen_issue !! 0%nat = Some 0%nat /\ heap frozen_issue !! 0%nat = Some o /\
  returns_entry close_issue frozen_issue 4 0 0%nat o /\
  returns_entry complete_issue frozen_issue 4 0 0%nat o.
Proof.
  intros o. split; [wf_eval|]. do 3 (split; [reflexivity|]).
  apply (close_issue_returns_entry frozen_issue 4 0 0%nat o);
    [wf_eval|reflexivity..].
Defined.

(** ** [complete_open_issues] with a restriction *)

Lemma chosen_indices_insert (t : option (gset Z)) (rs : list dict) (x : dict) (c : nat) :
  forall k k', (k < k')%nat ->
  chosen_indices t (<[k := x]> rs) k' c = chosen_indices t rs k' c.
Proof.
  intros k k' Hk. unfold chosen_indices. apply List.filter_ext_in.
  intros m Hm. apply in_seq in Hm. by rewrite list_lookup_insert_ne by lia.
Qed.

Lemma chosen_indices_S (t : option (gset Z)) (rs : list dict) (k c : nat) (d : dict) :
  rs !! k = Some d ->
  chosen_indices t rs k (S c)
  = (if chosen t d then [k] else []) ++ chosen_indices t rs (S k) c.
Proof.
  intros Hk. unfold chosen_indices. simpl. rewrite Hk. by destruct (chosen t d).
Qed.

Lemma resolved_lookup (s : store) (m : nat) :
  resolved s -> (m < length (issues s))%nat -> exists z, ids s !! m = Some (inr z).
Proof.
  intros Hres Hm. destruct (lookup_lt_is_Some_2 (ids s) m) as [r Hr];
    [by rewrite length_ids|].
  unfold resolved in Hres. rewrite Forall_lookup in Hres.
  destruct (Hres m r Hr) as [z ->]. eauto.
Qed.

Lemma complete_chosen_loop (t : option (gset Z)) (c : nat) :
  forall (k : nat) (acc : list loc) (s : store),
  wf s -> resolved s -> NoDup (ids s) ->
  (k + c)%nat = length (issues s) ->
  (forall m, (m < k)%nat -> settled s m) ->
  exists acc' s',
    complete_open_loop (seq k c) t acc s = (s', inr acc') /\
    evolve s s' /\
    (forall m, (m < k + c)%nat -> settled s' m) /\
    records s' = take k (records s) ++ (complete_chosen t <$> drop k (records s)) /\
    Some <$> acc'
    = (Some <$> acc) ++ ((fun m => issues s' !! m) <$> chosen_indices t (records s) k c).
Proof.
  induction c as [|c IH]; intros k acc s Hwf Hres Hnd Hlen Hset.
  { exists acc, s. split; [done|]. split; [by apply evolve_refl|].
    split; [intros m Hm; apply Hset; lia|]. split.
    - rewrite drop_ge, take_ge by (rewrite length_records; lia). by rewrite app_nil_r.
    - by rewrite app_nil_r. }
  change (seq k (S c)) with (k :: seq (S k) c).
  destruct (lookup_lt_is_Some_2 (issues s) k) as [l Hl]; [lia|].
  destruct (wf_lookup s k l Hwf Hl) as [o Ho].
  assert (record_at s k = Some (fields o)) as Hrk by (apply record_at_Some; eauto).
  assert (records s !! k = Some (fields o)) as Hrsk by by rewrite records_lookup.
  assert (ids s !! k = Some (_issue_identifier (fields o))) as Hidk
    by (rewrite ids_lookup, Hrk by done; done).
  assert (Hlt' : forall m, (m < k)%nat -> exists z, ids s !! m = Some (inr z))
    by (intros m Hm; apply resolved_lookup; [done|lia]).
  pose proof (complete_open_step k (seq (S k) c) t acc s l o Hwf Hl Ho Hset Hlt')
    as Hstep.
  destruct (resolved_lookup s k Hres) as [z Hz]; [lia|]. rewrite Hz in Hidk.
  injection Hidk as Hidk. rewrite <- Hidk in Hstep. symmetry in Hidk.
  assert (Hev : evolve s (touch s k)) by by apply touch_evolve.
  assert (Hset1 : forall m, (m < S k)%nat -> settled (touch s k) m)
    by (eapply touch_prefix_settled; eauto).
  assert (Hrec1 : records (touch s k) = <[k := with_number (fields o)]> (records s))
    by (apply (touch_records s k l o); [done..|by apply unique_entry]).
  assert (forall acc1 s2 x,
    evolve s s2 -> (forall m, (m < S k)%nat -> settled s2 m) ->
    records s2 = <[k := x]> (records s) -> x = complete_chosen t (fields o) ->
    Some <$> acc1
    = (Some <$> acc) ++ ((fun m => issues s2 !! m)
                           <$> (if chosen t (fields o) then [k] else [])) ->
    exists acc' s',
      complete_open_loop (seq (S k) c) t acc1 s2 = (s', inr acc') /\
      evolve s s' /\
      (forall m, (m < k + S c)%nat -> settled s' m) /\
      records s' = take k (records s) ++ (complete_chosen t <$> drop k (records s)) /\
      Some <$> acc'
      = (Some <$> acc)
        ++ ((fun m => issues s' !! m) <$> chosen_indices t (records s) k (S c)))
    as Hnext.
  { intros acc1 s2 x Hev2 Hset2 Hrec2 -> Hacc1.
    destruct (IH (S k) acc1 s2) as (acc' & s' & Hrun & Hev' & Hset' & Hrec & Hacc).
    - apply Hev2.
    - unfold resolved. by rewrite (evolve_ids _ _ Hev2).
    - by rewrite (evolve_ids _ _ Hev2).
    - rewrite (evolve_length _ _ Hev2). lia.
    - done.
    - exists acc', s'. split; [done|]. split; [by eapply evolve_trans|].
      split; [intros m Hm; apply Hset'; lia|]. split.
      + rewrite Hrec, Hrec2. by apply insert_take_drop_map.
      + rewrite Hacc, Hacc1, Hrec2, chosen_indices_insert by lia.
        rewrite (chosen_indices_S t (records s) k c (fields o) Hrsk).
        rewrite fmap_app, <- app_assoc. f_equal. f_equal.
        destruct (chosen t (fields o)); [|done]. simpl. f_equal.
        destruct (Hset2 k) as (lk & dk & Hk2 & Hlk2 & _); [lia|].
        rewrite Hk2. symmetry. by apply (evolve_entry _ _ Hev' k lk dk). }
  assert (Hskip : chosen t (fields o) = false ->
    complete_open_loop (k :: seq (S k) c) t acc s
    = complete_open_loop (seq (S k) c) t acc (touch s k) ->
    exists acc' s',
      complete_open_loop (k :: seq (S k) c) t acc s = (s', inr acc') /\
      evolve s s' /\
      (forall m, (m < k + S c)%nat -> settled s' m) /\
      records s' = take k (records s) ++ (complete_chosen t <$> drop k (records s)) /\
      Some <$> acc'
      = (Some <$> acc)
        ++ ((fun m => issues s' !! m) <$> chosen_indices t (records s) k (S c))).
  { intros Hch ->. eapply (Hnext _ _ (with_number (fields o))); [done..| |].
    - unfold complete_chosen. by rewrite Hch.
    - rewrite Hch. simpl. by rewrite app_nil_r. }
  assert (Hchosen : chosen t (fields o)
                    = negb (match t with
                            | Some t0 => bool_decide (z ∉ t0)
                            | None => false
                            end) && _is_open (fields o)).
  { unfold chosen. rewrite Hidk. destruct t as [t0|]; [|done]. f_equal.
    destruct (decide (z ∈ t0)) as [Hin|Hin].
    - rewrite bool_decide_eq_true_2 by done.
      rewrite bool_decide_eq_false_2 by (intros H; by apply H). done.
    - rewrite bool_decide_eq_false_2 by done.
      by rewrite bool_decide_eq_true_2 by done. }
  destruct (match t with Some t0 => bool_decide (z ∉ t0) | None => false end).
  { apply Hskip; [by rewrite Hchosen|done]. }
  simpl in Hchosen. cbv iota in Hstep.
  destruct (_is_open (fields o)) eqn:Hopen; [|by apply Hskip].
  destruct Hstep as (f & lf & Hf & Hfk & Hlf & ->).
  assert (f = k) as ->.
  { destruct (lookup_number_inr _ _ _ Hf) as [Hidf _].
    eapply NoDup_lookup; [exact Hnd|exact Hidf|exact Hz]. }
  pose proof (touch_entry s k l o Hl Ho) as Hk1.
  pose proof (touch_heap_at s k l o Hl Ho) as Ho1.
  assert (Hev2 : evolve (touch s k) (update_at (touch s k) k completed_fields))
    by (apply update_completed_evolve; [apply Hev|apply Hset1; lia]).
  eapply (Hnext _ _ (completed_fields (with_number (fields o)))).
  - by eapply evolve_trans.
  - intros m Hm. eapply evolve_settled; [exact Hev2|by apply Hset1].
  - rewrite (update_at_records _ k _ _ _ (evolve_wf _ _ Hev) Hk1 Ho1).
    + rewrite Hrec1. simpl. by rewrite list_insert_insert_eq.
    + apply unique_entry; [apply Hev|by rewrite (evolve_ids _ _ Hev)|done].
  - unfold complete_chosen. by rewrite Hchosen.
  - rewrite Hchosen. simpl.
    rewrite (update_at_issues _ k _ _ completed_fields Hk1 Ho1), Hlf.
    by rewrite fmap_app.
Qed.

Lemma chosen_with_number (t : option (gset Z)) (d : dict) :
  chosen t (with_number d) = chosen t d.
Proof. unfold chosen. by rewrite identifier_with_number, is_open_with_number. Qed.

Lemma chosen_complete_chosen (t : option (gset Z)) (d : dict) :
  chosen t (complete_chosen t d) = false.
Proof.
  unfold complete_chosen. destruct (chosen t d) eqn:E.
  - unfold chosen. rewrite is_open_completed_fields. apply andb_false_r.
  - by rewrite chosen_with_number.
Qed.

Lemma chosen_agree (t : option (gset Z)) (d d' : dict) :
  with_number d' = with_number d -> chosen t d' = chosen t d.
Proof. intros H. by rewrite <- (chosen_with_number t d'), H, chosen_with_number. Qed.

(** The loop when it meets no record to complete: it only writes the
    identifiers back. *)
Lemma complete_none_loop (t : option (gset Z)) (c : nat) :
  forall (k : nat) (acc : list loc) (s : store),
  wf s -> resolved s -> (k + c)%nat = length (issues s) ->
  (forall m, (m < k)%nat -> settled s m) ->
  (forall m d, (k <= m)%nat -> record_at s m = Some d -> chosen t d = false) ->
  complete_open_loop (seq k c) t acc s = (touch_range s k c, inr acc).
Proof.
  induction c as [|c IH]; intros k acc s Hwf Hres Hlen Hset Hno; [done|].
  change (seq k (S c)) with (k :: seq (S k) c).
  destruct (lookup_lt_is_Some_2 (issues s) k) as [l Hl]; [lia|].
  destruct (wf_lookup s k l Hwf Hl) as [o Ho].
  assert (record_at s k = Some (fields o)) as Hrk by (apply record_at_Some; eauto).
  assert (ids s !! k = Some (_issue_identifier (fields o))) as Hidk
    by (rewrite ids_lookup, Hrk by done; done).
  assert (Hlt' : forall m, (m < k)%nat -> exists z, ids s !! m = Some (inr z))
    by (intros m Hm; apply resolved_lookup; [done|lia]).
  pose proof (complete_open_step k (seq (S k) c) t acc s l o Hwf Hl Ho Hset Hlt')
    as Hstep.
  destruct (resolved_lookup s k Hres) as [z Hz]; [lia|]. rewrite Hz in Hidk.
  injection Hidk as Hidk. rewrite <- Hidk in Hstep. symmetry in Hidk.
  assert (Hev : evolve s (touch s k)) by by apply touch_evolve.
  assert (complete_open_loop (k :: seq (S k) c) t acc s
          = complete_open_loop (seq (S k) c) t acc (touch s k)) as ->.
  { assert (chosen t (fields o) = false) as Hch by (apply (Hno k); [lia|done]).
    unfold chosen in Hch.
    rewrite Hidk in Hch.
    destruct t as [t0|].
    - destruct (decide (z ∈ t0)) as [Hin|Hin].
      + rewrite bool_decide_eq_true_2 in Hch by done. simpl in Hch.
        rewrite bool_decide_eq_false_2 in Hstep by (intros H; by apply H).
        by rewrite Hch in Hstep.
      + by rewrite bool_decide_eq_true_2 in Hstep by done.
    - simpl in Hch. by rewrite Hch in Hstep. }
  rewrite touch_range_S. apply IH.
  - apply Hev.
  - unfold resolved. by rewrite (evolve_ids _ _ Hev).
  - rewrite (evolve_length _ _ Hev). lia.
  - eapply touch_prefix_settled; eauto.
  - intros m d Hm Hd. pose proof (touch_record_mod s k l o Hwf Hl Ho m) as Hmod.
    rewrite Hd in Hmod. destruct (record_at s m) as [d0|] eqn:Hd0; [|done].
    simpl in Hmod. injection Hmod as Hmod.
    rewrite (chosen_agree t d0 d Hmod). apply (Hno m); [lia|done].
Qed.

Lemma touch_range_records_all (s : store) :
  wf s -> resolved s ->
  records (touch_range s 0 (length (issues s))) = with_number <$> records s.
Proof.
  intros Hwf Hres. set (s1 := touch_range s 0 (length (issues s))).
  assert (Hext : ext s s1) by by apply touch_range_ext.
  apply list_eq. intros j. rewrite list_lookup_fmap.
  rewrite !records_lookup by (done || apply Hext).
  rewrite <- (ext_record _ _ Hext).
  destruct (decide (j < length (issues s))%nat) as [Hj|Hj].
  - assert (settled s1 j) as (l & d & H1 & H2 & H3).
    { apply touch_range_settles; [done|lia| |lia].
      intros m Hm. apply resolved_lookup; [done|lia]. }
    assert (record_at s1 j = Some d) as -> by (apply record_at_Some; eauto).
    simpl. by rewrite with_number_present.
  - assert (record_at s1 j = None) as ->; [|done].
    unfold record_at. rewrite lookup_ge_None_2; [done|].
    rewrite (ext_length _ _ Hext). lia.
Qed.

Lemma target_set_elem (ns : list Z) (z : Z) :
  bool_decide (z ∈ (list_to_set ns : gset Z)) = bool_decide (z ∈ ns).
Proof. apply bool_decide_ext. apply elem_of_list_to_set. Qed.

(** X11 ([complete_open_issues] with or without restriction).  On a
    collection whose records resolve to pairwise distinct identifiers the
    call returns; a record is completed exactly when it is open and, under
    a restriction, its identifier is one of [issue_numbers]; every other
    record only has its identifier written back.  The result holds the
    completed entries in the order of the collection, whatever the order
    of [issue_numbers]. *)
Theorem complete_open_issues_restricted (s : store) (issue_numbers : option (list Z)) :
  wf s -> resolved s -> NoDup (ids s) ->
  exists completed, snd (complete_open_issues issue_numbers s) = inr completed /\
    let s' := state_after (complete_open_issues issue_numbers) s in
    records s' = complete_chosen (target_set issue_numbers) <$> records s /\
    Some <$> completed
    = (fun m => issues s' !! m)
      <$> chosen_indices (target_set issue_numbers) (records s) 0 (length (issues s)) /\
    (forall j d z, records s !! j = Some d -> _issue_identifier d = inr z ->
       (_is_open d = true -> (forall ns, issue_numbers = Some ns -> z ∈ ns) ->
        exists d', records s' !! j = Some d' /\ closed_as d d' z (Some (VBool true))) /\
       (_is_open d = false \/ (exists ns, issue_numbers = Some ns /\ z ∉ ns) ->
        records s' !! j = Some (with_number d))).
Proof.
  intros Hwf Hres Hnd.
  destruct (complete_chosen_loop (target_set issue_numbers) (length (issues s)) 0 [] s
              Hwf Hres Hnd eq_refl)
    as (completed & s' & Hrun & Hev & Hset & Hrec & Hacc); [intros; lia|].
  rewrite drop_0, take_0 in Hrec. simpl in Hrec, Hacc.
  unfold state_after, complete_open_issues. fold (target_set issue_numbers).
  rewrite Hrun. simpl.
  exists completed. split; [done|]. split; [done|]. split; [done|].
  intros j d z Hj Hid. rewrite Hrec, list_lookup_fmap, Hj. simpl.
  unfold complete_chosen, chosen. rewrite Hid. split.
  - intros Hopen Hin. rewrite Hopen.
    assert (match target_set issue_numbers with
            | Some t => bool_decide (z ∈ t)
            | None => true
            end = true) as ->.
    { destruct issue_numbers as [ns|]; [|done]. simpl.
      rewrite target_set_elem. apply bool_decide_eq_true_2. by apply Hin. }
    simpl. eexists. split; [done|]. by apply closed_as_completed_fields.
  - intros [Hopen|(ns & -> & Hin)].
    + rewrite Hopen. by rewrite andb_false_r.
    + simpl. rewrite target_set_elem. by rewrite bool_decide_eq_false_2.
Qed.

Lemma resolved_sample : resolved sample_issues.
Proof.
  unfold resolved. change (ids sample_issues) with [@inr exn Z 1; inr 2; inr 3; inr 4].
  repeat (apply Forall_cons; split; [by eexists|]). apply Forall_nil_2.
Qed.

Lemma nodup_sample : NoDup (ids sample_issues).
Proof. change (ids sample_issues) with [@inr exn Z 1; inr 2; inr 3; inr 4]. nodup_eval. Qed.

Lemma complete_open_issues_restricted_witness :
  wf sample_issues /\ resolved sample_issues /\ NoDup (ids sample_issues) /\
  exists completed, snd (complete_open_issues (Some [3; 1]) sample_issues) = inr completed /\
    let s' := state_after (complete_open_issues (Some [3; 1])) sample_issues in
    records s' = complete_chosen (target_set (Some [3; 1])) <$> records sample_issues /\
    Some <$> completed
    = (fun m => issues s' !! m)
      <$> chosen_indices (target_set (Some [3; 1])) (records sample_issues) 0
            (length (issues sample_issues)) /\
    (forall j d z, records sample_issues !! j = Some d -> _issue_identifier d = inr z ->
       (_is_open d = true -> (forall ns, Some [3; 1] = Some ns -> z ∈ ns) ->
        exists d', records s' !! j = Some d' /\ closed_as d d' z (Some (VBool true))) /\
       (_is_open d = false \/ (exists ns, Some [3; 1] = Some ns /\ z ∉ ns) ->
        records s' !! j = Some (with_number d))).
Proof.
  split; [wf_eval|]. split; [exact resolved_sample|]. split; [exact nodup_sample|].
  apply (complete_open_issues_restricted sample_issues (Some [3; 1]));
    [wf_eval|exact resolved_sample|exact nodup_sample].
Defined.

(** X12 ([complete_open_issues] with nothing to do).  When every record
    resolves and either [issue_numbers] is the empty list or no record is
    open, the call returns the empty list; it still writes the identifier
    of every record back into [number], changes nothing else, and keeps
    every dictionary of the collection in place. *)
Theorem complete_open_issues_nothing (s : store) (issue_numbers : option (list Z)) :
  wf s -> resolved s ->
  issue_numbers = Some [] \/ Forall (fun d => _is_open d = false) (records s) ->
  snd (complete_open_issues issue_numbers s) = inr [] /\
  let s' := state_after (complete_open_issues issue_numbers) s in
  records s' = with_number <$> records s /\
  (forall j l d, issues s !! j = Some l -> heap s !! l = Some (Obj true d) ->
                 issues s' !! j = Some l).
Proof.
  intros Hwf Hres Hno.
  assert (complete_open_issues issue_numbers s
          = (touch_range s 0 (length (issues s)), inr [])) as Hrun.
  { unfold complete_open_issues. apply complete_none_loop; [done..|intros; lia|].
    intros m d _ Hd. unfold chosen. destruct Hno as [->|Hno].
    - simpl. by destruct (_issue_identifier d).
    - rewrite Forall_lookup in Hno. rewrite (Hno m d); [apply andb_false_r|].
      by rewrite records_lookup. }
  unfold state_after. rewrite Hrun. simpl. split; [done|].
  split; [by apply touch_range_records_all|].
  apply (ext_entry _ _ (touch_range_ext s 0 _ Hwf)).
Qed.

Lemma complete_open_issues_nothing_witness :
  wf sample_issues /\ resolved sample_issues /\
  (Some [] = Some (@nil Z) \/ Forall (fun d => _is_open d = false) (records sample_issues)) /\
  snd (complete_open_issues (Some []) sample_issues) = inr [] /\
  let s' := state_after (complete_open_issues (Some [])) sample_issues in
  records s' = with_number <$> records sample_issues /\
  (forall j l d, issues sample_issues !! j = Some l ->
                 heap sample_issues !! l = Some (Obj true d) ->
                 issues s' !! j = Some l).
Proof.
  split; [wf_eval|]. split; [exact resolved_sample|]. split; [by left|].
  apply (complete_open_issues_nothing sample_issues (Some []));
    [wf_eval|exact resolved_sample|by left].
Defined.

(** X13 ([complete_open_issues] twice).  On a collection whose records
    resolve to pairwise distinct identifiers, a second call with the same
    [issue_numbers] returns the empty list and leaves the store as the
    first call left it. *)
Theorem complete_open_issues_idempotent (s : store) (issue_numbers : option (list Z)) :
  wf s -> resolved s -> NoDup (ids s) ->
  let s' := state_after (complete_open_issues issue_numbers) s in
  complete_open_issues issue_numbers s' = (s', inr []).
Proof.
  intros Hwf Hres Hnd.
  destruct (complete_chosen_loop (target_set issue_numbers) (length (issues s)) 0 [] s
              Hwf Hres Hnd eq_refl)
    as (completed & s' & Hrun & Hev & Hset & Hrec & Hacc); [intros; lia|].
  rewrite drop_0, take_0 in Hrec. simpl in Hrec, Hset.
  assert (complete_open_issues issue_numbers s = (s', inr completed)) as Hfirst
    by exact Hrun.
  unfold state_after. rewrite Hfirst. simpl.
  change (complete_open_issues issue_numbers s')
    with (complete_open_loop (seq 0 (length (issues s'))) (target_set issue_numbers) [] s').
  rewrite complete_none_loop.
  - rewrite touch_range_settled_id; [done|].
    intros m Hm. apply Hset. rewrite <- (evolve_length _ _ Hev). lia.
  - apply Hev.
  - unfold resolved. by rewrite (evolve_ids _ _ Hev).
  - done.
  - intros; lia.
  - intros m d _ Hd. rewrite <- records_lookup in Hd by apply Hev.
    rewrite Hrec, list_lookup_fmap in Hd.
    destruct (records s !! m) as [d0|]; [|done]. simpl in Hd.
    injection Hd as <-. apply chosen_complete_chosen.
Qed.

Lemma complete_open_issues_idempotent_witness :
  wf sample_issues /\ resolved sample_issues /\ NoDup (ids sample_issues) /\
  let s' := state_after (complete_open_issues (Some [3; 1])) sample_issues in
  complete_open_issues (Some [3; 1]) s' = (s', inr []).
Proof.
  split; [wf_eval|]. split; [exact resolved_sample|]. split; [exact nodup_sample|].
  apply (complete_open_issues_idempotent sample_issues (Some [3; 1]));
    [wf_eval|exact resolved_sample|exact nodup_sample].
Defined.

Lemma no_open_records (s : store) :
  Forall (fun d => _is_open d = false) (records s) -> open_records s = [].
Proof.
  unfold open_records. generalize (records s) as rs.
  induction rs as [|d rs IH]; intros H; [done|].
  apply Forall_cons in H as [Hd H]. simpl. rewrite Hd. by apply IH.
Qed.

(** X14 ([complete_open_issues] then [list_open_issues]).  On a
    collection whose records resolve to pairwise distinct identifiers,
    after [complete_open_issues] without restriction no record is open:
    [list_open_issues] returns the empty list and changes nothing. *)
Theorem list_open_after_complete (s : store) :
  wf s -> resolved s -> NoDup (ids s) ->
  let s' := state_after (complete_open_issues None) s in
  open_records s' = [] /\ list_open_issues s' = (s', inr []).
Proof.
  intros Hwf Hres Hnd.
  destruct (complete_chosen_loop None (length (issues s)) 0 [] s Hwf Hres Hnd eq_refl)
    as (completed & s' & Hrun & Hev & Hset & Hrec & Hacc); [intros; lia|].
  rewrite drop_0, take_0 in Hrec. simpl in Hrec.
  unfold state_after, complete_open_issues. simpl. rewrite Hrun. simpl.
  assert (Forall (fun d => _is_open d = false) (records s')) as Hclosed.
  { rewrite Hrec. apply Forall_fmap, Forall_forall. intros d _. simpl.
    pose proof (chosen_complete_chosen None d) as H. by unfold chosen in H. }
  assert (open_records s' = []) as Hopen.
  { by apply no_open_records. }
  split; [done|]. rewrite list_open_issues_run.
  - rewrite Hopen. simpl. by rewrite app_nil_r, store_eta.
  - apply Hev.
  - unfold listable. eapply Forall_impl; [exact Hclosed|]. simpl. congruence.
Qed.

Lemma list_open_after_complete_witness :
  wf sample_issues /\ resolved sample_issues /\ NoDup (ids sample_issues) /\
  let s' := state_after (complete_open_issues None) sample_issues in
  open_records s' = [] /\ list_open_issues s' = (s', inr []).
Proof.
  split; [wf_eval|]. split; [exact resolved_sample|]. split; [exact nodup_sample|].
  apply (list_open_after_complete sample_issues);
    [wf_eval|exact resolved_sample|exact nodup_sample].
Defined.

(** X15 ([complete_open_issues], the restriction as a set).  Two
    restriction lists with the same elements give the same result and the
    same store on every collection: order and repetitions in
    [issue_numbers] do not matter. *)
Theorem complete_open_issues_target_set (s : store) (ns ns' : list Z) :
  (forall z, z ∈ ns <-> z ∈ ns') ->
  complete_open_issues (Some ns) s = complete_open_issues (Some ns') s.
Proof.
  intros H. unfold complete_open_issues. simpl.
  assert ((list_to_set ns : gset Z) = list_to_set ns') as ->; [|done].
  apply set_eq. intros z. by rewrite !elem_of_list_to_set.
Qed.

Lemma complete_open_issues_target_set_witness :
  (forall z, z ∈ [3; 1; 3] <-> z ∈ [1; 3]) /\
  complete_open_issues (Some [3; 1; 3]) sample_issues
  = complete_open_issues (Some [1; 3]) sample_issues.
Proof.
  assert (forall z : Z, z ∈ [3; 1; 3] <-> z ∈ [1; 3]) as H.
  { intros z. rewrite !elem_of_cons, !elem_of_nil. tauto. }
  split; [exact H|].
  apply (complete_open_issues_target_set sample_issues [3; 1; 3] [1; 3]). exact H.
Defined.

(** ** Closing again *)

Lemma closed_state_fixed (d : dict) : closed_state d -> closed_fields d = d.
Proof.
  intros (Hst & st & Hst' & Hstatus & Hclosed).
  assert (st = VStr "closed") as -> by congruence.
  unfold closed_fields, set_state_fields.
  change (_normalise_state (VStr "closed")) with "closed".
  rewrite (insert_id d "state") by done. rewrite (insert_id d "status") by done.
  by rewrite insert_id.
Qed.

Lemma ids_not_found_free (s : store) :
  Forall (fun r => r ≠ inl IssueNotFoundError) (ids s).
Proof.
  unfold ids. apply Forall_fmap, Forall_forall. intros d _ H. simpl in H.
  apply identifier_error in H. destruct H as [H|[H|H]]; discriminate H.
Qed.

Lemma lookup_number_not_found (l : list (result Z)) (n : Z) :
  Forall (fun r => r ≠ inl IssueNotFoundError) l ->
  lookup_number l n = inl IssueNotFoundError ->
  forall m, (m < length l)%nat -> exists z, l !! m = Some (inr z).
Proof.
  induction l as [|[e|z] l IH]; simpl; intros Hl H m Hm; [lia| |];
    apply Forall_cons in Hl as [Hr Hl].
  - by injection H as ->.
  - destruct (z =? n)%Z; [done|].
    destruct (lookup_number l n) as [e|j] eqn:E; [|done].
    destruct m as [|m]; [eauto|]. simpl. apply IH; [done|congruence|lia].
Qed.

Lemma close_not_found (s : store) (n : Z) :
  wf s -> lookup_number (ids s) n = inl IssueNotFoundError ->
  close_issue n s = (touch_range s 0 (length (issues s)), inl IssueNotFoundError) /\
  forall m, (m < length (issues s))%nat ->
            settled (touch_range s 0 (length (issues s))) m.
Proof.
  intros Hwf Hn. split.
  - pose proof (find_run n s Hwf) as Hfind. rewrite Hn in Hfind.
    unfold close_issue. by apply bind_inl.
  - intros m Hm. apply touch_range_settles; [done|lia| |lia].
    intros m' Hm'. apply (lookup_number_not_found (ids s) n);
      [apply ids_not_found_free|done|rewrite length_ids; lia].
Qed.

Lemma closed_for_close (s : store) (n : Z) :
  wf s -> (exists j, lookup_number (ids s) n = inr j)
          \/ lookup_number (ids s) n = inl IssueNotFoundError ->
  closed_for (state_after (close_issue n) s) n.
Proof.
  intros Hwf Hn. destruct (close_evolve s n Hwf Hn) as [Hev _].
  unfold closed_for. rewrite (evolve_ids _ _ Hev), (evolve_length _ _ Hev).
  destruct Hn as [[j Hn]|Hn]; rewrite Hn.
  - destruct (found_update s n j closed_fields Hwf Hn)
      as (l & d & _ & _ & _ & _ & _ & Hj2 & Hl2 & _ & Hset2);
      [intros; apply identifier_set_state|apply grows_closed_fields|].
    destruct (close_run s n j Hwf Hn) as (l1 & _ & Hclose).
    unfold state_after. rewrite Hclose. simpl. split; [done|].
    exists l, (closed_fields (with_number d)).
    split; [done|]. split; [done|]. apply closed_state_closed_fields.
  - destruct (close_not_found s n Hwf Hn) as [Hrun Hset].
    unfold state_after. by rewrite Hrun.
Qed.

Lemma closed_for_evolve (s s' : store) (n : Z) :
  evolve s s' -> closed_for s n -> closed_for s' n.
Proof.
  intros Hev. unfold closed_for.
  rewrite (evolve_ids _ _ Hev), (evolve_length _ _ Hev).
  destruct (lookup_number (ids s) n) as [e|j].
  - destruct e; try done. intros H m Hm. eapply evolve_settled; eauto.
  - intros [Hset (l & d & Hj & Hl & Hc)]. split.
    + intros m Hm. eapply evolve_settled; eauto.
    + destruct (evolve_obj _ _ Hev l d Hl) as (d' & Hl' & _ & Hg).
      exists l, d'. split; [by apply (evolve_entry _ _ Hev j l d)|]. auto.
Qed.

Lemma close_implemented_loop_again (ns : list Z) : forall (acc : list loc) (s : store),
  wf s -> Forall (closed_for s) ns ->
  close_implemented_loop ns acc s = (s, inr (acc ++ found_entries s s ns)).
Proof.
  induction ns as [|n ns IH]; intros acc s Hwf Hns.
  { simpl. unfold ret. by rewrite app_nil_r. }
  apply Forall_cons in Hns as [Hn Hns]. unfold closed_for in Hn.
  destruct (lookup_number (ids s) n) as [e|j] eqn:Hlook.
  - destruct e; try done.
    destruct (close_not_found s n Hwf Hlook) as [Hrun _].
    rewrite touch_range_settled_id in Hrun by (intros m Hm; apply Hn; lia).
    rewrite (found_entries_skip s s n ns _ Hlook).
    rewrite close_implemented_step_skip by by rewrite Hrun.
    unfold state_after. rewrite Hrun. by apply IH.
  - destruct Hn as [Hset (l & d & Hj & Hl & Hc)].
    destruct (close_again s n j l d Hwf Hlook Hset Hj Hl) as [Hclose _].
    specialize (Hclose (closed_state_fixed d Hc)).
    rewrite (found_entries_found s s n ns j l Hlook Hj).
    rewrite (close_implemented_step_ok n ns acc s s l Hclose).
    rewrite IH by done. by rewrite <- app_assoc.
Qed.

Lemma close_implemented_loop_settles (ns : list Z) : forall (acc : list loc) (s : store),
  wf s -> scannable s ns ->
  Forall (closed_for (fst (close_implemented_loop ns acc s))) ns.
Proof.
  induction ns as [|n ns IH]; intros acc s Hwf Hscan; [apply Forall_nil_2|].
  apply Forall_cons in Hscan as [Hn Hscan].
  destruct (close_evolve s n Hwf Hn) as [Hev _].
  pose proof (closed_for_close s n Hwf Hn) as Hcf.
  set (s2 := state_after (close_issue n) s) in *.
  assert (Hscan' : scannable s2 ns)
    by (unfold scannable; by rewrite (evolve_ids _ _ Hev)).
  assert (exists acc', close_implemented_loop (n :: ns) acc s
                       = close_implemented_loop ns acc' s2) as [acc' ->].
  { destruct Hn as [[j Hn]|Hn].
    - destruct (close_run s n j Hwf Hn) as (l & _ & Hclose).
      exists (acc ++ [l]). unfold s2, state_after. rewrite Hclose. simpl.
      by apply close_implemented_step_ok.
    - exists acc. apply close_implemented_step_skip.
      by destruct (close_fails s n _ Hwf Hn) as (H & _ & _). }
  destruct (close_implemented_loop_run ns acc' s2 (evolve_wf _ _ Hev) Hscan')
    as (s' & Hrun & Hev' & _).
  apply Forall_cons. split.
  - rewrite Hrun. simpl. by eapply closed_for_evolve.
  - by apply IH; [apply Hev|].
Qed.

(** X16 ([close_implemented_issues] twice).  When the scan for every
    number of the input ends (by finding a record or by not finding one),
    a second call with the same input leaves the store as the first call
    left it and returns the same objects. *)
Theorem close_implemented_issues_idempotent (s : store) (ns : list Z) :
  wf s -> scannable s ns ->
  let s' := state_after (close_implemented_issues ns) s in
  close_implemented_issues ns s' = (s', snd (close_implemented_issues ns s)).
Proof.
  intros Hwf Hscan.
  pose proof (close_implemented_loop_settles ns [] s Hwf Hscan) as Hcf.
  destruct (close_implemented_loop_run ns [] s Hwf Hscan) as (s' & Hrun & Hev & _).
  unfold close_implemented_issues, state_after. rewrite Hrun in *. simpl in *.
  rewrite (close_implemented_loop_again ns [] s' (evolve_wf _ _ Hev) Hcf). simpl.
  by rewrite (found_entries_ids s s' s' ns (evolve_ids _ _ Hev)).
Qed.

Lemma close_implemented_issues_idempotent_witness :
  wf sample_issues /\ scannable sample_issues [2; 999] /\
  let s' := state_after (close_implemented_issues [2; 999]) sample_issues in
  close_implemented_issues [2; 999] s'
  = (s', snd (close_implemented_issues [2; 999] sample_issues)).
Proof.
  assert (scannable sample_issues [2; 999]) as H.
  { unfold scannable. apply Forall_cons. split; [left; by exists 1%nat|].
    apply Forall_cons. split; [by right|]. apply Forall_nil_2. }
  split; [wf_eval|]. split; [exact H|].
  apply (close_implemented_issues_idempotent sample_issues [2; 999]); [wf_eval|exact H].
Defined.

(** ** Records an operation is not about *)

Lemma with_number_same (d d' : dict) :
  with_number d' = with_number d -> same_but_number d d'.
Proof.
  intros H. split; [|split].
  - intros key Hkey.
    by rewrite <- (with_number_lookup_ne d' key Hkey), H, with_number_lookup_ne.
  - by rewrite <- (identifier_with_number d'), H, identifier_with_number.
  - by rewrite <- (is_open_with_number d'), H, is_open_with_number.
Qed.

(** The store after [_ensure_mutable_issue] replaced a read-only entry. *)
Lemma copy_ext (s : store) (i : nat) (l : loc) (o : obj) :
  wf s -> issues s !! i = Some l -> heap s !! l = Some o -> is_mutable o = false ->
  ext s (Store (heap s ++ [Obj true (fields o)]) (<[i := length (heap s)]> (issues s))).
Proof.
  intros Hwf Hi Hl Hm. pose proof (lookup_lt_Some _ _ _ Hi) as Hlt. split; simpl.
  - unfold wf. simpl. rewrite length_app. simpl. apply Forall_insert.
    + eapply Forall_impl; [exact Hwf|]. simpl. intros; lia.
    + lia.
  - by rewrite length_insert.
  - intros j. f_equal. unfold record_at, fields_at. simpl.
    destruct (decide (j = i)) as [->|Hne].
    + rewrite list_lookup_insert_eq, Hi by done. simpl.
      by rewrite list_lookup_middle, Hl.
    + rewrite list_lookup_insert_ne by done.
      destruct (issues s !! j) as [lj|] eqn:Hj; [|done]. simpl.
      destruct (wf_lookup s j lj Hwf Hj) as [oj Hoj].
      by rewrite (lookup_app_l_Some _ _ _ _ Hoj), Hoj.
  - intros l' o' Hl'. exists o'. split; [by apply lookup_app_l_Some|done].
  - intros j l' d Hj Hl'. destruct (decide (j = i)) as [->|Hne].
    + assert (l' = l) as -> by congruence. rewrite Hl in Hl'.
      injection Hl' as ->. done.
    + by rewrite list_lookup_insert_ne.
  - intros l' d Hl' _. by apply lookup_app_l_Some.
Qed.

Lemma find_loop_ext (n : Z) (c : nat) : forall (s : store) (k : nat),
  wf s -> ext s (fst (find_loop (seq k c) n s)).
Proof.
  induction c as [|c IH]; intros s k Hwf; [by apply ext_refl|].
  change (seq k (S c)) with (k :: seq (S k) c).
  destruct (issues s !! k) as [l|] eqn:Hk.
  2:{ simpl. unfold bind at 1, _ensure_mutable_issue, bind at 1, getitem.
      rewrite Hk. by apply ext_refl. }
  destruct (wf_lookup s k l Hwf Hk) as [o Ho].
  change (find_loop (k :: seq (S k) c) n s)
    with (bind (_ensure_mutable_issue k)
            (fun issue => bind (_ensure_issue_number issue)
               (fun current_number => if (current_number =? n)%Z then ret k
                                      else find_loop (seq (S k) c) n)) s).
  rewrite (visit_run (fun _ current_number =>
             if (current_number =? n)%Z then ret k else find_loop (seq (S k) c) n)
             s k l o Hk Ho).
  destruct (_issue_identifier (fields o)) as [e|z].
  - simpl. destruct (is_mutable o) eqn:Hm; [by apply ext_refl|by apply (copy_ext s k l o)].
  - pose proof (touch_ext s k Hwf) as Hext.
    destruct (z =? n)%Z; [exact Hext|].
    eapply ext_trans; [exact Hext|]. apply IH. apply Hext.
Qed.

Lemma keeps_others_ext (ns : list Z) (s s' : store) : ext s s' -> keeps_others ns s s'.
Proof.
  intros Hext m d Hd _. pose proof (ext_record _ _ Hext m) as H. rewrite Hd in H.
  destruct (record_at s' m) as [d'|]; [|done]. simpl in H. injection H as H. eauto.
Qed.

Lemma keeps_others_cons (n : Z) (ns : list Z) (s s2 s' : store) :
  keeps_others [n] s s2 -> keeps_others ns s2 s' -> keeps_others (n :: ns) s s'.
Proof.
  intros H1 H2 m d Hd Hne.
  destruct (H1 m d Hd) as (d2 & Hd2 & He2).
  { intros n' Hn'. apply list_elem_of_singleton in Hn' as ->. apply Hne, list_elem_of_here. }
  destruct (H2 m d2 Hd2) as (d' & Hd' & He').
  { intros n' Hn'. destruct (with_number_same _ _ He2) as (_ & -> & _).
    apply Hne. by apply list_elem_of_further. }
  exists d'. split; [done|congruence].
Qed.

Lemma keeps_others_weaken (n : Z) (ns : list Z) (s s' : store) :
  n ∈ ns -> keeps_others [n] s s' -> keeps_others ns s s'.
Proof.
  intros Hn H m d Hd Hne. apply (H m d Hd). intros n' Hn'.
  apply list_elem_of_singleton in Hn' as ->. by apply Hne.
Qed.

(** [close_issue] and [complete_issue], whatever their outcome. *)
Lemma close_keeps_others (s : store) (n : Z) :
  wf s ->
  (wf (state_after (close_issue n) s) /\
   keeps_others [n] s (state_after (close_issue n) s)) /\
  (wf (state_after (complete_issue n) s) /\
   keeps_others [n] s (state_after (complete_issue n) s)).
Proof.
  intros Hwf. destruct (lookup_number (ids s) n) as [e|j] eqn:Hn.
  - assert (Hext : ext s (state_after (_find_issue_index n) s))
      by by apply find_loop_ext.
    destruct (close_fails s n e Hwf Hn) as (_ & _ & Hfind).
    unfold state_after in *.
    destruct (_find_issue_index n s) as [s1 r] eqn:Hrun. simpl in Hfind, Hext. subst r.
    assert (close_issue n s = (s1, inl e)) as Hclose
      by (unfold close_issue; by apply bind_inl).
    assert (complete_issue n s = (s1, inl e)) as Hcomplete
      by (unfold complete_issue; by apply bind_inl).
    rewrite Hclose, Hcomplete. simpl.
    split; (split; [apply Hext|by apply keeps_others_ext]).
  - assert (forall f, (forall d, _issue_identifier (f d) = _issue_identifier d) ->
                      (forall d, grows d (f d)) ->
                      wf (update_at (touch_range s 0 (S j)) j f) /\
                      keeps_others [n] s (update_at (touch_range s 0 (S j)) j f)) as H.
    { intros f Hid Hg.
      destruct (found_update s n j f Hwf Hn Hid Hg)
        as (l & d & Hd & Hidd & Hj1 & Hl1 & _ & _ & _ & Hev & _).
      split; [apply Hev|]. intros m dm Hm Hne.
      destruct (keeps_others_ext [n] _ _ (touch_range_ext s 0 (S j) Hwf) m dm Hm Hne)
        as (d1 & Hd1 & He1).
      exists d1. split; [|done].
      rewrite (update_at_record_other _ j l _ f Hj1 Hl1); [done|].
      intros Hm1. apply (Hne n); [apply list_elem_of_here|].
      destruct (with_number_same _ _ He1) as (_ & <- & _).
      apply record_at_Some in Hd1 as (l' & o' & Hl' & Ho' & <-).
      assert (l' = l) as -> by congruence. rewrite Hl1 in Ho'. injection Ho' as <-.
      simpl. by rewrite identifier_with_number. }
    destruct (close_run s n j Hwf Hn) as (l1 & _ & Hclose).
    destruct (complete_run s n j Hwf Hn) as (l2 & _ & Hcomplete).
    unfold state_after. rewrite Hclose, Hcomplete. simpl. split; apply H.
    + intros; apply identifier_set_state.
    + apply grows_closed_fields.
    + apply identifier_completed.
    + apply grows_completed_fields.
Qed.

(** X17 ([close_issue], [complete_issue]: the other records).  Whatever
    the outcome of the call, found, not found or an identifier error, a
    record that does not resolve to [n] keeps all its fields, except that
    [number] may have been written back: it has the same identifier and
    is open exactly when it was. *)
Theorem close_issue_keeps_others (s : store) (n : Z) (m : nat) (d : dict) :
  wf s -> record_at s m = Some d -> _issue_identifier d ≠ inr n ->
  (exists d', record_at (state_after (close_issue n) s) m = Some d' /\
              same_but_number d d') /\
  (exists d', record_at (state_after (complete_issue n) s) m = Some d' /\
              same_but_number d d').
Proof.
  intros Hwf Hd Hne.
  destruct (close_keeps_others s n Hwf) as [[_ H1] [_ H2]].
  assert (forall n', n' ∈ [n] -> _issue_identifier d ≠ inr n') as Hne'
    by (intros n' Hn'; by apply list_elem_of_singleton in Hn' as ->).
  destruct (H1 m d Hd Hne') as (d1 & Hd1 & He1).
  destruct (H2 m d Hd Hne') as (d2 & Hd2 & He2).
  split; eexists; (split; [eassumption|by apply with_number_same]).
Qed.

Lemma close_issue_keeps_others_witness :
  let d : dict := {[ "id" := VInt 4; "title" := VStr "Add achievements";
                     "closed" := VBool false ]} in
  wf sample_issues /\ record_at sample_issues 3 = Some d /\
  _issue_identifier d ≠ inr 999 /\
  (exists d', record_at (state_after (close_issue 999) sample_issues) 3 = Some d' /\
              same_but_number d d') /\
  (exists d', record_at (state_after (complete_issue 999) sample_issues) 3 = Some d' /\
              same_but_number d d').
Proof.
  intros d. split; [wf_eval|]. split; [reflexivity|]. split; [discriminate|].
  apply (close_issue_keeps_others sample_issues 999 3 d);
    [wf_eval|reflexivity|discriminate].
Defined.

Lemma close_implemented_loop_keeps (ns : list Z) : forall (acc : list loc) (s : store),
  wf s -> keeps_others ns s (fst (close_implemented_loop ns acc s)).
Proof.
  induction ns as [|n ns IH]; intros acc s Hwf.
  { simpl. apply keeps_others_ext. by apply ext_refl. }
  destruct (close_keeps_others s n Hwf) as [[Hwf2 Hk2] _].
  unfold state_after in Hwf2, Hk2.
  destruct (close_issue n s) as [s2 [e|l]] eqn:Hclose; simpl in Hwf2, Hk2.
  - destruct (decide (e = IssueNotFoundError)) as [->|He].
    + rewrite close_implemented_step_skip by by rewrite Hclose.
      unfold state_after. rewrite Hclose. simpl.
      eapply keeps_others_cons; [exact Hk2|by apply IH].
    + assert (fst (close_implemented_loop (n :: ns) acc s) = s2) as ->.
      { simpl. unfold bind at 1, try_except, bind at 1. rewrite Hclose.
        by rewrite decide_False. }
      eapply keeps_others_weaken; [apply list_elem_of_here|done].
  - rewrite (close_implemented_step_ok n ns acc s s2 l Hclose).
    eapply keeps_others_cons; [exact Hk2|by apply IH].
Qed.

(** X18 ([close_implemented_issues]: the other records).  Whatever the
    outcome of the call, a record that resolves to none of the numbers of
    the input keeps all its fields, except that [number] may have been
    written back: it has the same identifier and is open exactly when it
    was. *)
Theorem close_implemented_issues_keeps_others (s : store) (ns : list Z) (m : nat)
    (d : dict) :
  wf s -> record_at s m = Some d ->
  (forall n, n ∈ ns -> _issue_identifier d ≠ inr n) ->
  exists d', record_at (state_after (close_implemented_issues ns) s) m = Some d' /\
             same_but_number d d'.
Proof.
  intros Hwf Hd Hne.
  destruct (close_implemented_loop_keeps ns [] s Hwf m d Hd Hne) as (d' & Hd' & He).
  exists d'. split; [done|by apply with_number_same].
Qed.

Lemma close_implemented_issues_keeps_others_witness :
  let d : dict := {[ "number" := VInt 3; "title" := VStr "Persist game state";
                     "status" := VStr "in_progress" ]} in
  wf sample_issues /\ record_at sample_issues 2 = Some d /\
  (forall n, n ∈ [2; 999] -> _issue_identifier d ≠ inr n) /\
  exists d', record_at (state_after (close_implemented_issues [2; 999]) sample_issues) 2
             = Some d' /\ same_but_number d d'.
Proof.
  intros d.
  assert (forall n, n ∈ [2; 999] -> _issue_identifier d ≠ inr n) as H.
  { intros n Hn. rewrite !elem_of_cons, elem_of_nil in Hn.
    destruct Hn as [->|[->|[]]]; discriminate. }
  split; [wf_eval|]. split; [reflexivity|]. split; [exact H|].
  apply (close_implemented_issues_keeps_others sample_issues [2; 999] 2 d);
    [wf_eval|reflexivity|exact H].
Defined.

(** X19 (a failed [close_issue]).  When [close_issue] raises,
    [complete_issue] raises the same error and leaves the same store.  In
    that store the collection has its length, every dictionary is still
    in place, and every record keeps all its fields except perhaps a
    written-back [number]: nothing was closed. *)
Theorem failed_close_keeps_records (s : store) (n : Z) (e : exn) :
  wf s -> snd (close_issue n s) = inl e ->
  snd (complete_issue n s) = inl e /\
  state_after (complete_issue n) s = state_after (close_issue n) s /\
  let s' := state_after (close_issue n) s in
  length (issues s') = length (issues s) /\
  (forall j l d, issues s !! j = Some l -> heap s !! l = Some (Obj true d) ->
                 issues s' !! j = Some l) /\
  (forall m d, record_at s m = Some d ->
     exists d', record_at s' m = Some d' /\ same_but_number d d').
Proof.
  intros Hwf He. destruct (lookup_number (ids s) n) as [e'|j] eqn:Hn.
  2:{ destruct (close_run s n j Hwf Hn) as (l & _ & Hclose).
      by rewrite Hclose in He. }
  assert (Hext : ext s (state_after (_find_issue_index n) s))
    by by apply find_loop_ext.
  destruct (close_fails s n e' Hwf Hn) as (_ & _ & Hfind).
  unfold state_after in *.
  destruct (_find_issue_index n s) as [s1 r] eqn:Hrun. simpl in Hfind, Hext. subst r.
  assert (close_issue n s = (s1, inl e')) as Hclose
    by (unfold close_issue; by apply bind_inl).
  assert (complete_issue n s = (s1, inl e')) as Hcomplete
    by (unfold complete_issue; by apply bind_inl).
  rewrite Hclose in *. rewrite Hcomplete. simpl in *.
  split; [done|]. split; [done|]. split; [apply Hext|]. split; [apply Hext|].
  intros m d Hd.
  destruct (keeps_others_ext [] _ _ Hext m d Hd) as (d' & Hd' & Hs).
  { intros n' Hn'. by apply elem_of_nil in Hn'. }
  exists d'. split; [done|by apply with_number_same].
Qed.

Lemma failed_close_keeps_records_witness :
  wf anonymous_issue /\ snd (close_issue 5 anonymous_issue) = inl KeyError /\
  snd (complete_issue 5 anonymous_issue) = inl KeyError /\
  state_after (complete_issue 5) anonymous_issue
  = state_after (close_issue 5) anonymous_issue /\
  let s' := state_after (close_issue 5) anonymous_issue in
  length (issues s') = length (issues anonymous_issue) /\
  (forall j l d, issues anonymous_issue !! j = Some l ->
                 heap anonymous_issue !! l = Some (Obj true d) ->
                 issues s' !! j = Some l) /\
  (forall m d, record_at anonymous_issue m = Some d ->
     exists d', record_at s' m = Some d' /\ same_but_number d d').
Proof.
  split; [wf_eval|]. split; [reflexivity|].
  apply (failed_close_keeps_records anonymous_issue 5 KeyError); [wf_eval|reflexivity].
Defined.

(** ** Listing again, and listing after a close *)

Lemma list_open_issues_fields (s : store) :
  wf s -> listable s ->
  let s' := state_after list_open_issues s in
  snd (list_open_issues s) = inr (seq (length (heap s)) (length (open_records s))) /\
  fields_at s' <$> seq (length (heap s)) (length (open_records s))
  = Some <$> (with_number <$> open_records s) /\
  wf s' /\ issues s' = issues s /\ records s' = records s /\
  (length (heap s') = length (heap s) + length (open_records s))%nat /\
  (forall l, (l < length (heap s))%nat -> heap s' !! l = heap s !! l).
Proof.
  intros Hwf Hok. unfold state_after. rewrite (list_open_issues_run s Hwf Hok).
  set (opens := open_records s). set (h := heap s). simpl.
  assert (Hold : forall l, (l < length h)%nat ->
            (h ++ (Obj true <$> (with_number <$> opens))) !! l = h !! l)
    by (intros l Hl; by rewrite lookup_app_l).
  split; [done|]. split; [|split; [|split; [done|split; [|split; [|done]]]]].
  - apply list_eq. intros k. rewrite !list_lookup_fmap.
    destruct (decide (k < length opens)%nat) as [Hk|Hk].
    + rewrite lookup_seq_lt by done. simpl. unfold fields_at; simpl.
      rewrite lookup_app_r by lia.
      replace (length h + k - length h)%nat with k by lia.
      rewrite !list_lookup_fmap.
      destruct (lookup_lt_is_Some_2 opens k Hk) as [d Hd]. by rewrite Hd.
    + rewrite lookup_seq_ge by lia. rewrite lookup_ge_None_2; [done|]. lia.
  - unfold wf. simpl. rewrite length_app.
    eapply Forall_impl; [exact Hwf|]. simpl. subst h. intros; lia.
  - by apply records_frame.
  - by rewrite length_app, !length_fmap.
Qed.

(** X20 ([list_open_issues] twice).  When the identifiers of the open
    records are absent or integers, a second call returns copies with the
    same fields as the first, in the same order; they are other objects
    than the first copies, which the second call leaves as they are, and
    the collection is unchanged after both calls. *)
Theorem list_open_issues_again (s : store) :
  wf s -> listable s ->
  let s1 := state_after list_open_issues s in
  let s2 := state_after list_open_issues s1 in
  exists first second,
    snd (list_open_issues s) = inr first /\ snd (list_open_issues s1) = inr second /\
    fields_at s2 <$> second = fields_at s1 <$> first /\
    fields_at s2 <$> first = fields_at s1 <$> first /\
    (forall l, l ∈ first -> l ∉ second) /\
    issues s2 = issues s /\ records s2 = records s.
Proof.
  intros Hwf Hok s1 s2.
  destruct (list_open_issues_fields s Hwf Hok)
    as (Hr1 & Hf1 & Hwf1 & Hi1 & Hrec1 & Hlen1 & Hold1). fold s1 in Hf1, Hwf1, Hi1, Hrec1, Hlen1, Hold1.
  assert (Hok1 : listable s1) by (unfold listable; by rewrite Hrec1).
  destruct (list_open_issues_fields s1 Hwf1 Hok1)
    as (Hr2 & Hf2 & Hwf2 & Hi2 & Hrec2 & Hlen2 & Hold2). fold s2 in Hf2, Hwf2, Hi2, Hrec2, Hlen2, Hold2.
  assert (open_records s1 = open_records s) as Hopen
    by (unfold open_records; by rewrite Hrec1).
  rewrite Hopen in *.
  eexists _, _. split; [exact Hr1|]. split; [exact Hr2|].
  split; [by rewrite Hf2, Hf1|]. split; [|split; [|split; [congruence|congruence]]].
  - apply list_fmap_ext. intros k l Hl. unfold fields_at. f_equal. apply Hold2.
    apply lookup_seq in Hl as [-> Hk]. lia.
  - intros l Hl1 Hl2. apply elem_of_seq in Hl1, Hl2. lia.
Qed.

Lemma list_open_issues_again_witness :
  wf sample_issues /\ listable sample_issues /\
  let s1 := state_after list_open_issues sample_issues in
  let s2 := state_after list_open_issues s1 in
  exists first second,
    snd (list_open_issues sample_issues) = inr first /\
    snd (list_open_issues s1) = inr second /\
    fields_at s2 <$> second = fields_at s1 <$> first /\
    fields_at s2 <$> first = fields_at s1 <$> first /\
    (forall l, l ∈ first -> l ∉ second) /\
    issues s2 = issues sample_issues /\ records s2 = records sample_issues.
Proof.
  split; [wf_eval|]. split; [exact listable_sample|].
  apply (list_open_issues_again sample_issues); [wf_eval|exact listable_sample].
Defined.

Lemma is_open_closed_fields (d : dict) : _is_open (closed_fields d) = false.
Proof.
  unfold _is_open, closed_fields, set_state_fields, _get_state, get.
  by lookup_inserts.
Qed.

Lemma filter_open_with_number (rs : list dict) :
  List.filter _is_open (with_number <$> rs) = with_number <$> List.filter _is_open rs.
Proof.
  induction rs as [|d rs IH]; [done|].
  rewrite fmap_cons. cbn [List.filter]. rewrite is_open_with_number.
  destruct (_is_open d); [rewrite fmap_cons|]; by rewrite IH.
Qed.

Lemma filter_insert_closed (rs : list dict) : forall (j : nat) (x : dict),
  _is_open x = false ->
  List.filter _is_open (<[j := x]> rs) = List.filter _is_open (delete j rs).
Proof.
  induction rs as [|d rs IH]; intros j x Hx; [done|].
  destruct j as [|j]; simpl.
  - by rewrite Hx.
  - by rewrite (IH j x Hx).
Qed.

Lemma fmap_delete_list {A B} (f : A -> B) (l : list A) : forall (j : nat),
  f <$> delete j l = delete j (f <$> l).
Proof.
  induction l as [|a l IH]; intros j; [done|].
  destruct j as [|j]; simpl; [done|]. by rewrite <- IH.
Qed.

(** The records after an operation that found [n] at [j] and left the
    record [x] there, when no other record resolves to [n]. *)
Lemma records_after_found (s s' : store) (n : Z) (j : nat) (x : dict) :
  wf s -> wf s' -> length (issues s') = length (issues s) ->
  keeps_others [n] s s' -> record_at s' j = Some x ->
  (forall m, m ≠ j -> ids s !! m ≠ Some (inr n)) ->
  with_number <$> records s' = <[j := with_number x]> (with_number <$> records s).
Proof.
  intros Hwf Hwf' Hlen Hkeep Hj Hne. apply list_eq. intros m.
  rewrite list_lookup_fmap, records_lookup by done.
  destruct (decide (m = j)) as [->|Hm].
  - rewrite Hj. simpl. rewrite list_lookup_insert_eq; [done|].
    rewrite length_fmap, length_records, <- Hlen.
    apply record_at_Some in Hj as (l & o & Hl & _). by eapply lookup_lt_Some.
  - rewrite list_lookup_insert_ne by done.
    rewrite list_lookup_fmap, records_lookup by done.
    destruct (record_at s m) as [d|] eqn:Hd.
    + destruct (Hkeep m d Hd) as (d' & -> & He); [|simpl; by rewrite He].
      intros n' Hn' Hid. apply list_elem_of_singleton in Hn' as ->.
      apply (Hne m Hm). by rewrite ids_lookup, Hd by done; simpl; rewrite Hid.
    + assert (record_at s' m = None) as ->; [|done].
      unfold record_at in *. destruct (issues s !! m) as [l|] eqn:Hl.
      * destruct (wf_lookup s m l Hwf Hl) as [o Ho]. simpl in Hd.
        unfold fields_at in Hd. by rewrite Ho in Hd.
      * apply lookup_ge_None_1 in Hl. rewrite lookup_ge_None_2; [done|lia].
Qed.

Lemma list_after_found (s s' : store) (n : Z) (j : nat) (x : dict) :
  wf s -> listable s -> wf s' -> length (issues s') = length (issues s) ->
  keeps_others [n] s s' -> record_at s' j = Some x -> _is_open x = false ->
  (forall m, m ≠ j -> ids s !! m ≠ Some (inr n)) ->
  exists copies, snd (list_open_issues s') = inr copies /\
    fields_at (state_after list_open_issues s') <$> copies
    = Some <$> (with_number <$> List.filter _is_open (delete j (records s))).
Proof.
  intros Hwf Hok Hwf' Hlen Hkeep Hj Hx Hne.
  pose proof (records_after_found s s' n j x Hwf Hwf' Hlen Hkeep Hj Hne) as Hrec.
  assert (Hok' : listable s').
  { unfold listable. apply Forall_lookup. intros m d' Hd' Hopen e He.
    rewrite records_lookup in Hd' by done.
    destruct (decide (m = j)) as [->|Hm]; [congruence|].
    apply (f_equal (fun rs => rs !! m)) in Hrec.
    rewrite list_lookup_insert_ne, !list_lookup_fmap, !records_lookup, Hd' in Hrec
      by done.
    destruct (record_at s m) as [d|] eqn:Hd; [|done]. simpl in Hrec.
    injection Hrec as Hrec. destruct (with_number_same d d' Hrec) as (_ & Hid & Hop).
    unfold listable in Hok. rewrite Forall_lookup in Hok.
    apply (Hok m d); [by rewrite records_lookup|congruence|congruence]. }
  destruct (list_open_issues_fields s' Hwf' Hok') as (Hr & Hf & _).
  eexists. split; [exact Hr|]. rewrite Hf. f_equal.
  unfold open_records. rewrite <- filter_open_with_number, Hrec.
  rewrite filter_insert_closed by by rewrite is_open_with_number.
  by rewrite <- fmap_delete_list, filter_open_with_number.
Qed.

(** X21 ([close_issue] or [complete_issue], then [list_open_issues]).
    When the scan finds [n] at index [j], no other record resolves to [n],
    and the identifiers of the open records are absent or integers, then
    after the call [list_open_issues] returns copies of exactly the
    records that were open before, in order, without the record at [j]
    (each with its identifier written into [number]). *)
Theorem list_open_after_close (s : store) (n : Z) (j : nat) :
  wf s -> listable s -> lookup_number (ids s) n = inr j ->
  (forall m, m ≠ j -> ids s !! m ≠ Some (inr n)) ->
  lists_the_others close_issue s n j /\ lists_the_others complete_issue s n j.
Proof.
  intros Hwf Hok Hn Hne.
  destruct (close_keeps_others s n Hwf) as [[Hwf1 Hk1] [Hwf2 Hk2]].
  destruct (close_evolve s n Hwf) as [Hev1 Hev2]; [left; eauto|].
  destruct (found_update s n j closed_fields Hwf Hn)
    as (l & d & _ & _ & _ & _ & _ & Hj2 & Hl2 & _);
    [intros; apply identifier_set_state|apply grows_closed_fields|].
  destruct (found_update s n j completed_fields Hwf Hn)
    as (l' & d0 & _ & _ & _ & _ & _ & Hj3 & Hl3 & _);
    [apply identifier_completed|apply grows_completed_fields|].
  destruct (close_run s n j Hwf Hn) as (l1 & _ & Hclose).
  destruct (complete_run s n j Hwf Hn) as (l2 & _ & Hcomplete).
  simpl in Hj2, Hl2, Hj3, Hl3, Hclose, Hcomplete.
  assert (record_at (state_after (close_issue n) s) j
          = Some (closed_fields (with_number d))) as Hr1.
  { unfold state_after. rewrite Hclose. simpl. apply record_at_Some. eauto. }
  assert (record_at (state_after (complete_issue n) s) j
          = Some (completed_fields (with_number d0))) as Hr2.
  { unfold state_after. rewrite Hcomplete. simpl. apply record_at_Some. eauto. }
  split.
  - apply (list_after_found s _ n j (closed_fields (with_number d)));
      [done|done|done|apply Hev1|done|done|apply is_open_closed_fields|done].
  - apply (list_after_found s _ n j (completed_fields (with_number d0)));
      [done|done|done|apply Hev2|done|done|apply is_open_completed_fields|done].
Qed.

Lemma list_open_after_close_witness :
  wf sample_issues /\ listable sample_issues /\
  lookup_number (ids sample_issues) 2 = inr 1%nat /\
  (forall m, m ≠ 1%nat -> ids sample_issues !! m ≠ Some (inr 2)) /\
  lists_the_others close_issue sample_issues 2 1 /\
  lists_the_others complete_issue sample_issues 2 1.
Proof.
  assert (forall m, m ≠ 1%nat -> ids sample_issues !! m ≠ Some (inr 2)) as H.
  { intros m Hm. destruct m as [|[|[|[|m]]]]; try discriminate. done. }
  split; [wf_eval|]. split; [exact listable_sample|]. split; [reflexivity|].
  split; [exact H|].
  apply (list_open_after_close sample_issues 2 1);
    [wf_eval|exact listable_sample|reflexivity|exact H].
Defined.

(** ** C9: two open records with the same identifier

    The claim (C9) holds when the loop gets to the two records and they
    are the only open records with their identifier.  It does not when an
    earlier record has no identifier, or an identifier that is not an
    integer: the loop raises at that record and nothing is returned, so
    the result holds no record at all.  (The two records are then still
    open, as claimed.) *)
Lemma complete_open_issues_duplicates_raises :
  issues anonymous_then_duplicates !! 1%nat ≠ issues anonymous_then_duplicates !! 2%nat /\
  ids anonymous_then_duplicates = [inl KeyError; inr 1; inr 1] /\
  _is_open <$> records anonymous_then_duplicates = [true; true; true] /\
  snd (complete_open_issues None anonymous_then_duplicates) = inl KeyError /\
  issues unnumbered_then_duplicates !! 1%nat ≠ issues unnumbered_then_duplicates !! 2%nat /\
  ids unnumbered_then_duplicates = [inl ValueError; inr 1; inr 1] /\
  _is_open <$> records unnumbered_then_duplicates = [true; true; true] /\
  snd (complete_open_issues None unnumbered_then_duplicates) = inl ValueError.
Proof.
  split; [discriminate|]. do 3 (split; [reflexivity|]).
  split; [discriminate|]. repeat split; reflexivity.
Qed.

Lemma NoDup_insert_fresh {A} (l : list A) (k : nat) (x : A) :
  NoDup l -> x ∉ l -> NoDup (<[k := x]> l).
Proof.
  intros Hnd Hx. apply NoDup_alt. intros i j y Hi Hj.
  apply list_lookup_insert_Some in Hi, Hj.
  destruct Hi as [(<- & <- & _)|[Hik Hi]], Hj as [(Hj1 & Hj2 & _)|[Hjk Hj]].
  - done.
  - exfalso. apply Hx. by eapply list_elem_of_lookup_2.
  - subst. exfalso. apply Hx. by eapply list_elem_of_lookup_2.
  - by eapply NoDup_lookup.
Qed.

Lemma touch_nodup (s : store) (k : nat) :
  wf s -> NoDup (issues s) -> NoDup (issues (touch s k)).
Proof.
  intros Hwf Hnd.
  destruct (issues s !! k) as [l|] eqn:Hk; [|unfold touch; by rewrite Hk].
  destruct (wf_lookup s k l Hwf Hk) as [o Ho].
  rewrite (touch_unfold s k l o Hk Ho). destruct (is_mutable o); simpl; [done|].
  apply NoDup_insert_fresh; [done|]. intros Hin.
  apply list_elem_of_lookup in Hin as [j Hj]. apply (wf_lt s j _ Hwf) in Hj. lia.
Qed.

Lemma nodup_unique_entry (s : store) (k : nat) (l : loc) :
  NoDup (issues s) -> issues s !! k = Some l ->
  forall m, m ≠ k -> issues s !! m ≠ Some l.
Proof. intros Hnd Hk m Hne Hm. apply Hne. by eapply NoDup_lookup. Qed.

Lemma has_open_from_S (s : store) (k : nat) (d : dict) (r : result Z) :
  records s !! k = Some d ->
  has_open_from s k r = resolves_open r d || has_open_from s (S k) r.
Proof. intros Hk. unfold has_open_from. by rewrite (drop_S _ _ _ Hk). Qed.

Lemma open_from_S (s : store) (k c : nat) (d : dict) :
  records s !! k = Some d ->
  open_from s k (S c) = (if _is_open d then [k] else []) ++ open_from s (S k) c.
Proof.
  intros Hk. unfold open_from. simpl. rewrite Hk. by destruct (_is_open d).
Qed.

Lemma first_index_ids (s s' : store) (k : nat) :
  ids s' = ids s -> first_index s' k = first_index s k.
Proof. intros H. unfold first_index. by rewrite H. Qed.

Lemma settled_record (s : store) (m : nat) (d : dict) :
  wf s -> settled s m -> records s !! m = Some d -> with_number d = d.
Proof.
  intros Hwf (l & d' & Hm & Hl & Hn) Hd. rewrite records_lookup in Hd by done.
  apply record_at_Some in Hd as (l0 & o0 & H1 & H2 & <-).
  assert (l0 = l) as -> by congruence. rewrite Hl in H2. injection H2 as <-.
  by apply with_number_present.
Qed.

Lemma completed_with_number (d : dict) (z : Z) :
  _issue_identifier d = inr z ->
  with_number (completed_fields (with_number d)) = completed_fields (with_number d).
Proof.
  intros Hz. apply with_number_present.
  unfold completed_fields, closed_fields, set_state_fields. lookup_inserts.
  by eapply with_number_is_Some.
Qed.

(** The loop of [complete_open_issues], without restriction, on a
    collection of pairwise distinct objects whose records all resolve. *)
Lemma complete_shared_loop (c : nat) : forall (k : nat) (acc : list loc) (s : store),
  wf s -> resolved s -> NoDup (issues s) ->
  (k + c)%nat = length (issues s) ->
  (forall m, (m < k)%nat -> settled s m) ->
  exists acc' s',
    complete_open_loop (seq k c) None acc s = (s', inr acc') /\
    evolve s s' /\ NoDup (issues s') /\
    (forall m d, records s !! m = Some d -> records s' !! m = Some (finished s k m d)) /\
    Some <$> acc'
    = (Some <$> acc)
      ++ ((fun m => first_index s m ≫= (fun f => issues s' !! f)) <$> open_from s k c).
Proof.
  induction c as [|c IH]; intros k acc s Hwf Hres Hnd Hlen Hset.
  { exists acc, s. split; [done|]. split; [by apply evolve_refl|]. split; [done|].
    split; [|by rewrite app_nil_r].
    intros m d Hd. unfold finished, has_open_from.
    rewrite drop_ge by (rewrite length_records; lia). simpl. rewrite andb_false_r.
    rewrite (settled_record s m d); [done..| |done].
    apply Hset. apply lookup_lt_Some in Hd. rewrite length_records in Hd. lia. }
  change (seq k (S c)) with (k :: seq (S k) c).
  destruct (lookup_lt_is_Some_2 (issues s) k) as [l Hl]; [lia|].
  destruct (wf_lookup s k l Hwf Hl) as [o Ho].
  assert (record_at s k = Some (fields o)) as Hrk by (apply record_at_Some; eauto).
  assert (records s !! k = Some (fields o)) as Hrsk by by rewrite records_lookup.
  assert (ids s !! k = Some (_issue_identifier (fields o))) as Hidk
    by (rewrite ids_lookup, Hrk by done; done).
  assert (Hlt' : forall m, (m < k)%nat -> exists z, ids s !! m = Some (inr z))
    by (intros m Hm; apply resolved_lookup; [done|lia]).
  pose proof (complete_open_step k (seq (S k) c) None acc s l o Hwf Hl Ho Hset Hlt')
    as Hstep.
  destruct (resolved_lookup s k Hres) as [z Hz]; [lia|]. rewrite Hz in Hidk.
  injection Hidk as Hidk. rewrite <- Hidk in Hstep. symmetry in Hidk.
  assert (Hev : evolve s (touch s k)) by by apply touch_evolve.
  assert (Hset1 : forall m, (m < S k)%nat -> settled (touch s k) m)
    by (eapply touch_prefix_settled; eauto).
  assert (Hnd1 : NoDup (issues (touch s k))) by by apply touch_nodup.
  assert (Hrec1 : records (touch s k) = <[k := with_number (fields o)]> (records s))
    by (apply (touch_records s k l o); [done..|by apply nodup_unique_entry]).
  assert (forall acc1 s2 tail,
    evolve s s2 -> NoDup (issues s2) -> (forall m, (m < S k)%nat -> settled s2 m) ->
    (forall m, (k < m)%nat -> records s2 !! m = records s !! m) ->
    (forall m d, records s !! m = Some d ->
       exists d2, records s2 !! m = Some d2 /\ finished s2 (S k) m d2 = finished s k m d) ->
    Some <$> acc1 = (Some <$> acc) ++ tail ->
    (forall s', evolve s2 s' ->
       (fun m => first_index s m ≫= (fun f => issues s' !! f))
         <$> (if _is_open (fields o) then [k] else []) = tail) ->
    exists acc' s',
      complete_open_loop (seq (S k) c) None acc1 s2 = (s', inr acc') /\
      evolve s s' /\ NoDup (issues s') /\
      (forall m d, records s !! m = Some d -> records s' !! m = Some (finished s k m d)) /\
      Some <$> acc'
      = (Some <$> acc)
        ++ ((fun m => first_index s m ≫= (fun f => issues s' !! f))
              <$> open_from s k (S c)))
    as Hnext.
  { intros acc1 s2 tail Hev2 Hnd2 Hset2 Hbeyond Hpt Hacc1 Htail.
    destruct (IH (S k) acc1 s2) as (acc' & s' & Hrun & Hev' & Hnd' & Hrec & Hacc).
    - apply Hev2.
    - unfold resolved. by rewrite (evolve_ids _ _ Hev2).
    - done.
    - rewrite (evolve_length _ _ Hev2). lia.
    - done.
    - exists acc', s'. split; [done|]. split; [by eapply evolve_trans|].
      split; [done|]. split.
      + intros m d Hd. destruct (Hpt m d Hd) as (d2 & Hd2 & <-). by apply Hrec.
      + rewrite Hacc, Hacc1, <- (Htail s' Hev'), <- app_assoc. f_equal.
        rewrite (open_from_S s k c (fields o) Hrsk), fmap_app. f_equal.
        assert (open_from s2 (S k) c = open_from s (S k) c) as ->.
        { unfold open_from. apply List.filter_ext_in. intros m Hm.
          apply in_seq in Hm. by rewrite Hbeyond by lia. }
        apply list_fmap_ext. intros _ m _.
        by rewrite (first_index_ids s s2 m (evolve_ids _ _ Hev2)). }
  assert (Hopen_k : forall r, has_open_from s k r
                    = resolves_open r (fields o) || has_open_from s (S k) r)
    by (intros r; by apply has_open_from_S).
  destruct (_is_open (fields o)) eqn:Hopen.
  2:{ (* the record at [k] is not open: the round only writes its number *)
    rewrite Hstep.
    assert (Hdrop : forall r, has_open_from (touch s k) (S k) r = has_open_from s (S k) r).
    { intros r. unfold has_open_from. by rewrite Hrec1, drop_insert_lt by lia. }
    eapply (Hnext _ _ []); [done|done|done| | |by rewrite app_nil_r|done].
    - intros m Hm. by rewrite Hrec1, list_lookup_insert_ne by lia.
    - intros m d Hd. rewrite Hrec1. unfold finished.
      rewrite (evolve_ids _ _ Hev). destruct (decide (m = k)) as [->|Hne].
      + rewrite list_lookup_insert_eq by (by eapply lookup_lt_Some).
        assert (d = fields o) as -> by congruence.
        eexists. split; [done|].
        rewrite identifier_with_number, with_number_idem, Hdrop, Hopen_k.
        unfold resolves_open. by rewrite Hopen.
      + rewrite list_lookup_insert_ne by done. exists d. split; [done|].
        rewrite Hdrop, Hopen_k. unfold resolves_open at 1. by rewrite Hopen. }
  (* the record at [k] is open: the first record that resolves to its
     number is completed *)
  cbv iota in Hstep. destruct Hstep as (f & lf & Hf & Hfk & Hlf & ->).
  destruct (lookup_number_inr _ _ _ Hf) as [Hidf _].
  assert (Hev2 : evolve (touch s k) (update_at (touch s k) f completed_fields))
    by (apply update_completed_evolve; [apply Hev|apply Hset1; lia]).
  destruct (Hset1 f) as (lf' & x & Hlf' & Hx & Hxn); [lia|].
  assert (lf' = lf) as -> by congruence.
  assert (Hrec2 : records (update_at (touch s k) f completed_fields)
                  = <[f := completed_fields x]> (records (touch s k))).
  { rewrite (update_at_records _ f lf _ _ (evolve_wf _ _ Hev) Hlf Hx); [done|].
    by apply nodup_unique_entry. }
  assert (records (touch s k) !! f = Some x) as Hxf.
  { rewrite records_lookup by apply Hev. apply record_at_Some. eauto. }
  assert (Hdrop : forall r, has_open_from (update_at (touch s k) f completed_fields) (S k) r
                            = has_open_from s (S k) r).
  { intros r. unfold has_open_from.
    by rewrite Hrec2, Hrec1, !drop_insert_lt by lia. }
  assert (Hzopen : has_open_from s k (inr z) = true).
  { rewrite Hopen_k. unfold resolves_open. rewrite Hopen, Hidk.
    by rewrite bool_decide_eq_true_2. }
  eapply (Hnext _ _ [Some lf]).
  - by eapply evolve_trans.
  - by rewrite (update_at_issues _ f lf _ _ Hlf Hx).
  - intros m Hm. eapply evolve_settled; [exact Hev2|by apply Hset1].
  - intros m Hm. by rewrite Hrec2, Hrec1, !list_lookup_insert_ne by lia.
  - intros m d Hd. rewrite Hrec2. unfold finished.
    rewrite (evolve_ids _ _ Hev2), (evolve_ids _ _ Hev).
    assert (Hxd : x = with_number (if decide (f = k) then fields o else x)
                  /\ (f ≠ k -> records s !! f = Some x)).
    { rewrite Hrec1 in Hxf. destruct (decide (f = k)) as [->|Hne].
      - rewrite list_lookup_insert_eq in Hxf by (by eapply lookup_lt_Some).
        split; [congruence|done].
      - rewrite list_lookup_insert_ne in Hxf by done.
        split; [by rewrite with_number_present|done]. }
    destruct Hxd as [Hxw Hxs].
    assert (Hidx : _issue_identifier x = inr z).
    { assert (ids (touch s k) !! f = Some (_issue_identifier x)) as H.
      { rewrite ids_lookup by apply Hev.
        assert (record_at (touch s k) f = Some x) as -> by (apply record_at_Some; eauto).
        done. }
      rewrite (evolve_ids _ _ Hev), Hidf in H. congruence. }
    destruct (decide (m = f)) as [->|Hmf].
    + rewrite list_lookup_insert_eq by (by eapply lookup_lt_Some).
      eexists. split; [done|].
      assert (with_number d = x) as Hdx.
      { destruct (decide (f = k)) as [->|Hne]; [congruence|].
        rewrite (Hxs Hne) in Hd. injection Hd as <-. by apply with_number_present. }
      assert (_issue_identifier d = inr z) as Hidd
        by (by rewrite <- identifier_with_number, Hdx).
      rewrite identifier_completed, Hidx, Hidd, Hzopen, Hdx. unfold is_first.
      rewrite bool_decide_eq_true_2 by done. simpl.
      rewrite <- Hdx, (completed_with_number d z Hidd).
      destruct (has_open_from (update_at (touch s k) f completed_fields) (S k) (inr z));
        [apply completed_fields_idem|done].
    + rewrite list_lookup_insert_ne by done. rewrite Hrec1.
      assert (forall d', _issue_identifier d' = _issue_identifier d ->
                is_first (ids s) m (_issue_identifier d')
                && has_open_from (update_at (touch s k) f completed_fields) (S k)
                     (_issue_identifier d')
                = is_first (ids s) m (_issue_identifier d)
                  && has_open_from s k (_issue_identifier d)) as Hsame.
      { intros d' ->. rewrite Hdrop, Hopen_k. unfold resolves_open.
        rewrite Hopen, Hidk. simpl.
        destruct (decide (_issue_identifier d = inr z)) as [Hdz|Hdz].
        - rewrite Hdz. unfold is_first. rewrite Hf.
          rewrite bool_decide_eq_false_2 by congruence. done.
        - by rewrite bool_decide_eq_false_2 by congruence. }
      destruct (decide (m = k)) as [->|Hmk].
      * rewrite list_lookup_insert_eq by (by eapply lookup_lt_Some).
        assert (d = fields o) as -> by congruence.
        eexists. split; [done|].
        by rewrite (Hsame _ (identifier_with_number _)), with_number_idem.
      * rewrite list_lookup_insert_ne by done. exists d. split; [done|].
        by rewrite (Hsame d eq_refl).
  - by rewrite fmap_app.
  - intros s' Hev'. simpl. unfold first_index. rewrite Hz, Hf. simpl.
    f_equal. apply (evolve_entry _ _ Hev' f lf (completed_fields x)).
    + by rewrite (update_at_issues _ f lf _ _ Hlf Hx).
    + apply (update_at_heap_at _ f lf _ _ Hlf Hx).
Qed.

Lemma occurrences_map (first : loc) (g : nat -> option loc) (P : nat -> bool) :
  forall (xs : list nat) (ys : list loc),
  Some <$> ys = g <$> xs ->
  (forall k, k ∈ xs -> P k = bool_decide (g k = Some first)) ->
  occurrences first ys = length (List.filter P xs).
Proof.
  unfold occurrences.
  induction xs as [|x xs IH]; intros ys Hys HP.
  { by destruct ys. }
  destruct ys as [|y ys]; [done|]. rewrite !fmap_cons in Hys.
  injection Hys as Hy Hys. simpl.
  rewrite (HP x) by apply list_elem_of_here. rewrite <- Hy.
  assert (bool_decide (Some y = Some first) = bool_decide (y = first)) as ->
    by (apply bool_decide_ext; split; congruence).
  specialize (IH ys Hys (fun k Hk => HP k (list_elem_of_further _ _ _ Hk))).
  destruct (bool_decide (y = first)); simpl; by rewrite IH.
Qed.

Lemma filter_two (P : nat -> bool) (l1 l2 l3 : list nat) (a b : nat) :
  P a = true -> P b = true ->
  exists m1 m2 m3, List.filter P (l1 ++ a :: l2 ++ b :: l3) = m1 ++ a :: m2 ++ b :: m3.
Proof.
  intros Ha Hb. exists (List.filter P l1), (List.filter P l2), (List.filter P l3).
  rewrite List.filter_app. simpl. rewrite Ha, List.filter_app. simpl. by rewrite Hb.
Qed.

Lemma seq_split_two (len a b : nat) :
  (a < b < len)%nat ->
  seq 0 len = seq 0 a ++ a :: seq (S a) (b - S a) ++ b :: seq (S b) (len - S b).
Proof.
  intros H. replace len with (a + (S (b - S a) + S (len - S b)))%nat at 1 by lia.
  rewrite seq_app. simpl. f_equal. f_equal.
  rewrite seq_app. replace (S (a + (b - S a))) with b by lia.
  replace (S a + (b - S a))%nat with b by lia. done.
Qed.

Lemma open_resolving_two (s : store) (n : Z) (a b : nat) (da db : dict) :
  wf s -> (a < b)%nat -> record_at s a = Some da -> record_at s b = Some db ->
  _issue_identifier da = inr n -> _issue_identifier db = inr n ->
  _is_open da = true -> _is_open db = true ->
  (2 <= length (open_resolving s n))%nat.
Proof.
  intros Hwf Hab Ha Hb Hida Hidb Hoa Hob.
  assert (b < length (issues s))%nat as Hlen.
  { apply record_at_Some in Hb as (l & o & Hl & _). by eapply lookup_lt_Some. }
  unfold open_resolving, open_indices, open_from.
  rewrite (seq_split_two (length (issues s)) a b) by lia.
  destruct (filter_two (fun m => match records s !! m with
                                 | Some d => _is_open d
                                 | None => false
                                 end) (seq 0 a) (seq (S a) (b - S a))
              (seq (S b) (length (issues s) - S b)) a b) as (m1 & m2 & m3 & ->).
  { by rewrite records_lookup, Ha. }
  { by rewrite records_lookup, Hb. }
  destruct (filter_two (fun k => bool_decide (ids s !! k = Some (inr n))) m1 m2 m3 a b)
    as (p1 & p2 & p3 & ->).
  { apply bool_decide_eq_true_2. by rewrite ids_lookup, Ha by done; simpl; rewrite Hida. }
  { apply bool_decide_eq_true_2. by rewrite ids_lookup, Hb by done; simpl; rewrite Hidb. }
  rewrite length_app. simpl. rewrite length_app. simpl. lia.
Qed.

Lemma open_from_elem (s : store) (k : nat) :
  k ∈ open_indices s -> (k < length (issues s))%nat.
Proof.
  unfold open_indices, open_from. intros H. apply list_elem_of_In in H.
  apply List.filter_In in H as [H _]. apply in_seq in H. lia.
Qed.

(** C9, amended.  Let every record of the collection resolve to an
    identifier, let the entries of the collection be pairwise distinct
    objects, and let the records at [a < b] be open and resolve to the
    same identifier [n].  Then [complete_open_issues] without restriction
    returns a list that holds, in the order of the collection, one entry
    for every record that was open before the call, and this entry is the
    first record of the collection that resolves to the same identifier.
    So the first record that resolves to [n] is in the result once for
    every open record that resolves to [n]: twice at least, and exactly
    twice when the records at [a] and [b] are the only open records that
    resolve to [n].  This first record is closed and completed.  A record
    that is not the first one that resolves to its identifier is neither
    closed nor completed, it only has its identifier written back: the
    record at [b], and the record at [a] unless it is that first record,
    is still open after the call. *)
Theorem complete_open_issues_shared_identifier (s : store) (n : Z) (a b : nat)
    (da db : dict) :
  wf s -> resolved s -> NoDup (issues s) -> (a < b)%nat ->
  record_at s a = Some da -> record_at s b = Some db ->
  _issue_identifier da = inr n -> _issue_identifier db = inr n ->
  _is_open da = true -> _is_open db = true ->
  completes_first_each_round s n a b da db.
Proof.
  intros Hwf Hres Hnd Hab Ha Hb Hida Hidb Hoa Hob.
  assert (ids s !! a = Some (inr n)) as Hia
    by (by rewrite ids_lookup, Ha by done; simpl; rewrite Hida).
  assert (ids s !! b = Some (inr n)) as Hib
    by (by rewrite ids_lookup, Hb by done; simpl; rewrite Hidb).
  destruct (lookup_number_exists (ids s) a n Hia) as (i & Hi_le & Hi).
  { intros m Hm. apply resolved_lookup; [done|].
    apply lookup_lt_Some in Hia. rewrite length_ids in Hia. lia. }
  destruct (lookup_number_inr _ _ _ Hi) as [Hidi _].
  assert (exists di, record_at s i = Some di /\ _issue_identifier di = inr n)
    as (di & Hdi & Hiddi).
  { rewrite ids_lookup in Hidi by done.
    destruct (record_at s i) as [di|]; [|done]. exists di. split; [done|].
    simpl in Hidi. congruence. }
  destruct (complete_shared_loop (length (issues s)) 0 [] s Hwf Hres Hnd eq_refl)
    as (completed & s' & Hrun & Hev & Hnd' & Hrec & Hacc); [intros; lia|].
  simpl in Hacc. fold (open_indices s) in Hacc.
  assert (Hwf' : wf s') by apply Hev.
  destruct (lookup_lt_is_Some_2 (issues s') i) as [first Hfirst].
  { rewrite (evolve_length _ _ Hev). apply lookup_lt_Some in Hidi.
    by rewrite length_ids in Hidi. }
  assert (Hr : forall j d, record_at s j = Some d ->
                 record_at s' j = Some (finished s 0 j d)).
  { intros j d Hd. rewrite <- records_lookup in Hd by done.
    rewrite <- records_lookup by done. by apply Hrec. }
  assert (Hother : forall j d, record_at s j = Some d -> first_index s j ≠ Some j ->
                     record_at s' j = Some (with_number d)).
  { intros j d Hd Hj. rewrite (Hr j d Hd). f_equal. unfold finished.
    assert (is_first (ids s) j (_issue_identifier d) = false) as ->; [|done].
    unfold first_index in Hj. rewrite ids_lookup, Hd in Hj by done. simpl in Hj.
    unfold is_first. destruct (_issue_identifier d) as [e|z]; [done|].
    apply bool_decide_eq_false_2. intros Hz. by rewrite Hz in Hj. }
  assert (Hfa : first_index s a = Some i) by (unfold first_index; by rewrite Hia, Hi).
  assert (Hfb : first_index s b = Some i) by (unfold first_index; by rewrite Hib, Hi).
  assert (Hcount : occurrences first completed = length (open_resolving s n)).
  { unfold open_resolving. apply (occurrences_map first _ _ _ _ Hacc).
    intros k Hk. apply open_from_elem in Hk.
    destruct (resolved_lookup s k Hres Hk) as [z Hz].
    destruct (lookup_number_exists (ids s) k z Hz) as (f & Hfk & Hf).
    { intros m Hm. apply resolved_lookup; [done|lia]. }
    unfold first_index. rewrite Hz, Hf. simpl. apply bool_decide_ext. split.
    - intros [= ->]. by rewrite Hi in Hf; injection Hf as <-.
    - intros Hkf. assert (f = i) as -> by (eapply NoDup_lookup; eauto).
      destruct (lookup_number_inr _ _ _ Hf) as [Hidf _]. congruence. }
  exists completed, first, i, di. split; [done|]. split; [done|].
  unfold state_after, complete_open_issues. simpl. rewrite Hrun. simpl.
  split; [done|]. split; [done|]. split; [done|]. split; [done|].
  split; [rewrite Hcount; by eapply open_resolving_two|].
  split; [intros H; by rewrite Hcount, H|]. split.
  - rewrite (Hr i di Hdi). f_equal. unfold finished. rewrite Hiddi. unfold is_first.
    rewrite bool_decide_eq_true_2 by done. simpl.
    assert (has_open_from s 0 (inr n) = true) as ->; [|done].
    unfold has_open_from. rewrite drop_0. apply existsb_exists. exists da. split.
    + apply list_elem_of_In. eapply list_elem_of_lookup_2. by rewrite records_lookup.
    + unfold resolves_open. rewrite Hoa, Hida. by rewrite bool_decide_eq_true_2.
  - split; [done|]. unfold stays_open. rewrite !is_open_with_number. split.
    + split; [|done]. apply Hother; [done|]. rewrite Hfb. intros [= ->]. lia.
    + intros Hne. split; [|done]. apply Hother; [done|]. rewrite Hfa. congruence.
Qed.

Lemma resolved_duplicates : resolved duplicate_issues.
Proof.
  unfold resolved. change (ids duplicate_issues) with [@inr exn Z 1; inr 1].
  repeat (apply Forall_cons; split; [by eexists|]). apply Forall_nil_2.
Qed.

Lemma complete_open_issues_shared_identifier_witness :
  let da : dict := {[ "number" := VInt 1; "state" := VStr "open" ]} in
  let db : dict := {[ "number" := VInt 1; "title" := VStr "Again"; "state" := VStr "open" ]} in
  wf duplicate_issues /\ resolved duplicate_issues /\ NoDup (issues duplicate_issues) /\
  (0 < 1)%nat /\
  record_at duplicate_issues 0 = Some da /\ record_at duplicate_issues 1 = Some db /\
  _issue_identifier da = inr 1 /\ _issue_identifier db = inr 1 /\
  _is_open da = true /\ _is_open db = true /\
  completes_first_each_round duplicate_issues 1 0 1 da db.
Proof.
  intros da db.
  assert (NoDup (issues duplicate_issues)) as Hnd by apply NoDup_seq.
  split; [wf_eval|]. split; [exact resolved_duplicates|]. split; [exact Hnd|].
  split; [lia|]. do 6 (split; [reflexivity|]).
  apply (complete_open_issues_shared_identifier duplicate_issues 1 0 1 da db);
    [wf_eval|exact resolved_duplicates|exact Hnd|lia|reflexivity..].
Defined.

(** With three open records that resolve to the same number the first of
    them is appended three times, once in the round of each, and the two
    others stay open. *)
Example complete_open_issues_three_duplicates :
  snd (complete_open_issues None three_duplicates) = inr [0%nat; 0%nat; 0%nat] /\
  _is_open <$> records (state_after (complete_open_issues None) three_duplicates)
  = [false; true; true].
Proof. split; reflexivity. Qed.
